(** * school-map: the navigation graph, the path planner and the camera

    A shallow embedding of the [MapEngine] class (the current variant,
    with accessibility-aware weights and rotation-decoupled panning) and
    of its [MinHeap] priority queue.

    Numbers.  JavaScript numbers are IEEE doubles.  Three idealisations
    are used, each where the code needs it:
    - graph weights, floor layout and node coordinates are exact
      rationals [Q] (JSON numbers are finite; rounding is not modelled);
    - the bounding-box fits, which start from [Infinity] and guard with
      [isFinite], use [JsNum.t]: rationals extended with the two
      infinities and NaN;
    - panning and rotation, which call [Math.cos], [Math.sin] and
      [Math.atan2], use the real numbers [R].

    Objects.  Node objects are shared between [globalNodes] and [idMap]:
    the list [globalNodes] is the store, and [idMap] maps an id to an
    index in it.  Plain objects used as dictionaries ([connectionMap],
    [adj], [dists], [prev]) are keyed by strings; keys are assumed not
    to collide with the property names inherited from
    [Object.prototype]. *)

From Stdlib Require Import Ascii QArith Qround Qabs Lqa Reals Lra.
From stdpp Require Import gmap strings list fin_maps pretty sorting.

(** Linear arithmetic over the rationals ([lra] is the one over the reals). *)
Ltac qlra := Lqa.lra.

(** ** JSON scalars used as identifiers *)

(** A node id, an edge endpoint or a [connectionId] read from JSON is a
    string or an integer. *)
Inductive JsKey :=
| KNum (n : Z)
| KStr (s : string).

(** Template-literal / property-key conversion to a string. *)
Definition key_to_string (k : JsKey) : string :=
  match k with
  | KNum n => pretty n
  | KStr s => s
  end.

(** Truthiness: [0] and the empty string are falsy. *)
Definition key_truthy (k : JsKey) : bool :=
  match k with
  | KNum n => negb (n =? 0)%Z
  | KStr s => negb (String.eqb s "")
  end.

Definition str_truthy (o : option string) : bool :=
  match o with
  | Some s => negb (String.eqb s "")
  | None => false
  end.

(** [o === 'lit'] for an optional string field. *)
Definition str_is (o : option string) (lit : string) : bool :=
  match o with
  | Some s => String.eqb s lit
  | None => false
  end.

(** ** Records *)

(** Per-floor JSON records, as fetched. *)
Record RawNode := {
  rn_id : JsKey;
  rn_x : Q;
  rn_y : Q;
  rn_type : option string;
  rn_name : option string;
  rn_connectionId : option JsKey
}.

(** [re_dist = None] stands for a [dist] that is absent or not a number. *)
Record RawEdge := {
  re_from : JsKey;
  re_to : JsKey;
  re_dist : option Q;
  re_barrierFreeBlocked : option bool
}.

Record FloorJson := {
  fj_nodes : list RawNode;
  fj_edges : list RawEdge
}.

Record FloorConf := {
  fc_id : Z;
  fc_jsonPath : string;
  fc_imagePath : string
}.

(** A loaded image; a failed load leaves both dimensions at 0. *)
Record Image := {
  img_width : Q;
  img_height : Q
}.

Record AppConfigT := {
  FLOORS : list FloorConf;
  FLOOR_GAP : Q;
  DEFAULT_FLOOR_ID : Z
}.

(** The node objects stored by [loadAllData]: [{...node, id, originalId,
    floorId, x, baseX, localY, y}]. *)
Record Node := {
  n_id : string;
  n_originalId : JsKey;
  n_floorId : Z;
  n_x : Q;
  n_baseX : Q;
  n_localY : Q;
  n_y : Q;
  n_type : option string;
  n_name : option string;
  n_connectionId : option JsKey
}.

(** Stored edges.  Intra-floor edges carry [floorId] and no [type];
    transfer edges carry [type] and no [floorId]. *)
Record Edge := {
  e_from : string;
  e_to : string;
  e_dist : Q;
  e_type : option string;
  e_floorId : option Z
}.

(** Adjacency entries are built as [{to, dist, type}].  The planner also
    reads [edge.barrierFreeBlocked] from them; the field is kept as an
    optional one, [None] being JavaScript's [undefined]. *)
Record AdjEntry := {
  a_to : string;
  a_dist : Q;
  a_type : option string;
  a_barrierFreeBlocked : option bool
}.

Record FloorVisual := {
  fv_scale : Q;
  fv_opacity : Q;
  fv_y : Q
}.

(** The engine state that graph building, layout and planning touch,
    from [loadAllData] on.  The constructor creates no [idMap]
    ([this.idMap] is first assigned by [loadAllData]), so that [getNode]
    throws on an engine that has not been loaded; the controller awaits
    [loadAllData] before it makes a call that reads the map.  A record
    of this type stands for an engine whose [idMap] exists. *)
Record MapEngine := {
  floorsConfig : list FloorConf;
  images : gmap Z Image;
  floorOffsets : gmap Z Q;
  floorCropX : gmap Z Q;
  totalHeight : Q;
  globalNodes : list Node;
  globalEdges : list Edge;
  idMap : gmap string nat;
  adj : option (gmap string (list AdjEntry));
  floorVisuals : gmap Z FloorVisual;
  accessibilityMode : bool;
  path : list string;
  startNode : option nat
}.

(** [getNode(id)], that is [this.idMap.get(id)]: the node object the id
    map points to, [None] for [undefined]. *)
Definition getNode (e : MapEngine) (i : string) : option Node :=
  idMap e !! i ≫= λ k, globalNodes e !! k.

(** ** loadAllData *)

(** The outside world: what the image loads and the JSON fetches give. *)
Record World := {
  loadImage : FloorConf → Image;
  fetchJson : FloorConf → option FloorJson
}.

(** [[...floorsConfig].sort((a, b) => b.id - a.id)]: a stable sort,
    largest id first. *)
Fixpoint insertFloor (c : FloorConf) (l : list FloorConf) : list FloorConf :=
  match l with
  | [] => [c]
  | d :: l' =>
      if (fc_id c <? fc_id d)%Z then d :: insertFloor c l' else c :: d :: l'
  end.

Definition sortFloors (l : list FloorConf) : list FloorConf :=
  foldr insertFloor [] l.

(** [(img && img.height) ? img.height : 1000] *)
Definition baseHeightOf (imgs : gmap Z Image) (i : Z) : Q :=
  match imgs !! i with
  | Some img => if Qeq_bool (img_height img) 0 then 1000%Q else img_height img
  | None => 1000%Q
  end.

(** [AppConfig.FLOOR_GAP || 200] *)
Definition defaultGapOf (cfg : AppConfigT) : Q :=
  if Qeq_bool (FLOOR_GAP cfg) 0 then 200%Q else FLOOR_GAP cfg.

Definition TARGET_WIDTH : Q := 940%Q.

Definition cropOf (imgs : gmap Z Image) (i : Z) : Q :=
  match imgs !! i with
  | Some img =>
      if Qlt_le_dec TARGET_WIDTH (img_width img)
      then ((img_width img - TARGET_WIDTH) / 2)%Q else 0%Q
  | None => 0%Q
  end.

(** Step 2 of [loadAllData]: stacking offsets and crops, top floor first. *)
Definition layoutStep (gap : Q) (imgs : gmap Z Image)
    (acc : gmap Z Q * gmap Z Q * Q) (c : FloorConf) : gmap Z Q * gmap Z Q * Q :=
  let '(offs, crops, currentY) := acc in
  (<[fc_id c := currentY]> offs,
   <[fc_id c := cropOf imgs (fc_id c)]> crops,
   (currentY + (baseHeightOf imgs (fc_id c) + gap))%Q).

(** [`${conf.id}_${x}`] *)
Definition globalId (floor : Z) (k : JsKey) : string :=
  pretty floor +:+ "_" +:+ key_to_string k.

Definition mkNode (floor : Z) (xCrop yOffset : Q) (r : RawNode) : Node :=
  {| n_id := globalId floor (rn_id r);
     n_originalId := rn_id r;
     n_floorId := floor;
     n_x := (rn_x r - xCrop)%Q;
     n_baseX := (rn_x r - xCrop)%Q;
     n_localY := rn_y r;
     n_y := (rn_y r + yOffset)%Q;
     n_type := rn_type r;
     n_name := rn_name r;
     n_connectionId := rn_connectionId r |}.

(** [idMap.set(newId, {...}); globalNodes.push(idMap.get(newId))] *)
Definition addNode (floor : Z) (xCrop yOffset : Q)
    (acc : list Node * gmap string nat) (r : RawNode) : list Node * gmap string nat :=
  let '(nodes, ids) := acc in
  let n := mkNode floor xCrop yOffset r in
  (nodes ++ [n], <[n_id n := length nodes]> ids).

(** An edge is stored only when both endpoints are in the id map. *)
Definition addEdge (floor : Z) (ids : gmap string nat)
    (edges : list Edge) (r : RawEdge) : list Edge :=
  let fromId := globalId floor (re_from r) in
  let toId := globalId floor (re_to r) in
  if bool_decide (is_Some (ids !! fromId)) && bool_decide (is_Some (ids !! toId))
  then edges ++ [ {| e_from := fromId; e_to := toId;
                     e_dist := default 1%Q (re_dist r);
                     e_type := None; e_floorId := Some floor |} ]
  else edges.

(** Step 3 of [loadAllData] for one floor; a failed fetch is caught and
    leaves the graph as it is. *)
Definition loadFloor (w : World) (offs crops : gmap Z Q)
    (acc : list Node * gmap string nat * list Edge) (c : FloorConf)
    : list Node * gmap string nat * list Edge :=
  let '(nodes, ids, edges) := acc in
  match fetchJson w c with
  | None => acc
  | Some data =>
      let yOffset := default 0%Q (offs !! fc_id c) in
      let xCrop := default 0%Q (crops !! fc_id c) in
      let '(nodes', ids') :=
        foldl (addNode (fc_id c) xCrop yOffset) (nodes, ids) (fj_nodes data) in
      (nodes', ids', foldl (addEdge (fc_id c) ids') edges (fj_edges data))
  end.

(** ** buildGlobalGraph *)

(** The connection key of a node: its name when it is a named stairs or
    elevator node, else its [connectionId] when that is truthy. *)
Definition connectionKey (n : Node) : option string :=
  if str_truthy (n_name n) && (str_is (n_type n) "stairs" || str_is (n_type n) "elevator")
  then n_name n
  else match n_connectionId n with
       | Some k => if key_truthy k then Some (key_to_string k) else None
       | None => None
       end.

(** [connectionMap]: a plain object, kept in insertion order of its keys. *)
Fixpoint cm_push (key : string) (n : Node) (m : list (string * list Node))
    : list (string * list Node) :=
  match m with
  | [] => [(key, [n])]
  | (k, ns) :: m' =>
      if String.eqb k key then (k, ns ++ [n]) :: m' else (k, ns) :: cm_push key n m'
  end.

Definition cm_add (m : list (string * list Node)) (n : Node) : list (string * list Node) :=
  match connectionKey n with
  | Some key => cm_push key n m
  | None => m
  end.

(** [Object.values] lists array-index keys first, in ascending numeric
    order, then the other keys in insertion order. *)
Definition digitOf (c : ascii) : option N :=
  let n := N_of_ascii c in
  if (48 <=? n)%N && (n <=? 57)%N then Some (n - 48)%N else None.

Fixpoint parseDigits (acc : N) (s : string) : option N :=
  match s with
  | EmptyString => Some acc
  | String c s' => d ← digitOf c; parseDigits (acc * 10 + d)%N s'
  end.

Definition arrayIndexOf (s : string) : option N :=
  match s with
  | EmptyString => None
  | _ =>
      n ← parseDigits 0%N s;
      if String.eqb (pretty n) s && (n <? 4294967295)%N then Some n else None
  end.

Fixpoint insertIndexed {A} (k : N) (v : A) (l : list (N * A)) : list (N * A) :=
  match l with
  | [] => [(k, v)]
  | (k', v') :: l' =>
      if (k <? k')%N then (k, v) :: l else (k', v') :: insertIndexed k v l'
  end.

Definition Object_values {A} (m : list (string * A)) : list A :=
  let indexed :=
    foldl (λ acc kv, match arrayIndexOf kv.1 with
                     | Some i => insertIndexed i kv.2 acc
                     | None => acc
                     end) [] m in
  let named :=
    filter (λ kv, arrayIndexOf kv.1 = None) m in
  (snd <$> indexed) ++ (snd <$> named).

(** [(f1 && f2) ? Math.abs(f1.id - f2.id) : 1], the floors being looked
    up in [AppConfig.FLOORS]. *)
Definition findFloor (cfg : AppConfigT) (i : Z) : option FloorConf :=
  find (λ f, (fc_id f =? i)%Z) (FLOORS cfg).

Definition floorDistOf (cfg : AppConfigT) (n1 n2 : Node) : Z :=
  match findFloor cfg (n_floorId n1), findFloor cfg (n_floorId n2) with
  | Some f1, Some f2 => Z.abs (fc_id f1 - fc_id f2)
  | _, _ => 1
  end.

Definition transferTypeOf (n1 n2 : Node) : string :=
  if str_is (n_type n1) "elevator" && str_is (n_type n2) "elevator" then "elevator"
  else if str_is (n_type n1) "stairs" && str_is (n_type n2) "stairs" then "stairs"
  else "transfer".

Definition transferEdge (cfg : AppConfigT) (n1 n2 : Node) : Edge :=
  {| e_from := n_id n1;
     e_to := n_id n2;
     e_dist := (inject_Z (floorDistOf cfg n1 n2) * 150)%Q;
     e_type := Some (transferTypeOf n1 n2);
     e_floorId := None |}.

(** The pairs [(nodes[i], nodes[j])], [i < j], in the order of the two
    nested loops. *)
Fixpoint cliquePairs {A} (l : list A) : list (A * A) :=
  match l with
  | [] => []
  | a :: t => (pair a <$> t) ++ cliquePairs t
  end.

Definition groupEdges (cfg : AppConfigT) (nodes : list Node) : list Edge :=
  if (1 <? length nodes)%nat
  then (λ p, transferEdge cfg p.1 p.2) <$> cliquePairs nodes
  else [].

Definition transferEdges (cfg : AppConfigT) (nodes : list Node) : list Edge :=
  Object_values (foldl cm_add [] nodes) ≫= groupEdges cfg.

(** [adj[k].push(a)], creating the list when the key is new. *)
Definition adj_push (k : string) (a : AdjEntry)
    (m : gmap string (list AdjEntry)) : gmap string (list AdjEntry) :=
  <[k := default [] (m !! k) ++ [a]]> m.

Definition adjEntry (to : string) (e : Edge) : AdjEntry :=
  {| a_to := to; a_dist := e_dist e; a_type := e_type e;
     a_barrierFreeBlocked := None |}.

Definition addAdj (m : gmap string (list AdjEntry)) (e : Edge)
    : gmap string (list AdjEntry) :=
  adj_push (e_to e) (adjEntry (e_from e) e)
    (adj_push (e_from e) (adjEntry (e_to e) e) m).

Definition buildAdj (nodes : list Node) (edges : list Edge)
    : gmap string (list AdjEntry) :=
  foldl addAdj (foldl (λ m n, <[n_id n := []]> m) ∅ nodes) edges.

Definition buildGlobalGraph (cfg : AppConfigT) (e : MapEngine) : MapEngine :=
  let edges := globalEdges e ++ transferEdges cfg (globalNodes e) in
  {| floorsConfig := floorsConfig e;
     images := images e;
     floorOffsets := floorOffsets e;
     floorCropX := floorCropX e;
     totalHeight := totalHeight e;
     globalNodes := globalNodes e;
     globalEdges := edges;
     idMap := idMap e;
     adj := Some (buildAdj (globalNodes e) edges);
     floorVisuals := floorVisuals e;
     accessibilityMode := accessibilityMode e;
     path := path e;
     startNode := startNode e |}.

(** ** updateFloorLayout *)

Definition defaultVisual : FloorVisual :=
  {| fv_scale := 1; fv_opacity := 1; fv_y := 0 |}.

(** Step 1: the floors strictly between the floors of the first and of
    the last node of the path. *)
Definition intermediateFloors (cfg : AppConfigT) (e : MapEngine)
    (pathNodes : list string) : list Z :=
  match head pathNodes, last pathNodes with
  | Some s, Some t =>
      match getNode e s, getNode e t with
      | Some startN, Some endN =>
          if bool_decide (n_floorId startN ≠ n_floorId endN) then
            let minF := Z.min (n_floorId startN) (n_floorId endN) in
            let maxF := Z.max (n_floorId startN) (n_floorId endN) in
            filter (λ i, (minF < i)%Z ∧ (i < maxF)%Z) (fc_id <$> FLOORS cfg)
          else []
      | _, _ => []
      end
  | _, _ => []
  end.

(** The style chosen for one floor: [(scale, opacity, gap)]. *)
Definition floorStyle (defaultGap : Q) (inter : list Z) (i : Z) : Q * Q * Q :=
  if bool_decide (i ∈ inter)
  then (0.6, 0.3, defaultGap * 0.1)%Q
  else (1, 1, defaultGap)%Q.

(** Step 2: one turn of the stacking loop. *)
Definition stackStep (defaultGap : Q) (imgs : gmap Z Image) (inter : list Z)
    (acc : gmap Z FloorVisual * Q) (c : FloorConf) : gmap Z FloorVisual * Q :=
  let '(vis, currentY) := acc in
  let '(scale, opacity, gap) := floorStyle defaultGap inter (fc_id c) in
  (<[fc_id c := {| fv_scale := scale; fv_opacity := opacity; fv_y := currentY |}]> vis,
   (currentY + (baseHeightOf imgs (fc_id c) * scale + gap))%Q).

(** Step 3: world coordinates of one node. *)
Definition placeNode (vis : gmap Z FloorVisual) (n : Node) : Node :=
  match vis !! n_floorId n with
  | Some v =>
      {| n_id := n_id n;
         n_originalId := n_originalId n;
         n_floorId := n_floorId n;
         n_x := (n_baseX n * fv_scale v)%Q;
         n_baseX := n_baseX n;
         n_localY := n_localY n;
         n_y := (n_localY n * fv_scale v + fv_y v)%Q;
         n_type := n_type n;
         n_name := n_name n;
         n_connectionId := n_connectionId n |}
  | None => n
  end.

Definition layoutVisuals (cfg : AppConfigT) (e : MapEngine)
    (pathNodes : list string) : gmap Z FloorVisual * Q :=
  foldl (stackStep (defaultGapOf cfg) (images e) (intermediateFloors cfg e pathNodes))
        (foldl (λ m f, <[fc_id f := defaultVisual]> m) ∅ (FLOORS cfg), 0%Q)
        (sortFloors (floorsConfig e)).

Definition updateFloorLayout (cfg : AppConfigT) (e : MapEngine)
    (pathNodes : list string) : MapEngine :=
  let '(vis, currentY) := layoutVisuals cfg e pathNodes in
  {| floorsConfig := floorsConfig e;
     images := images e;
     floorOffsets := floorOffsets e;
     floorCropX := floorCropX e;
     totalHeight := currentY;
     globalNodes := placeNode vis <$> globalNodes e;
     globalEdges := globalEdges e;
     idMap := idMap e;
     adj := adj e;
     floorVisuals := vis;
     accessibilityMode := accessibilityMode e;
     path := path e;
     startNode := startNode e |}.

(** ** loadAllData, continued *)

(** What the first [loadAllData] starts from.  Of the fields of the
    record, [loadAllData] leaves three as it finds them:
    [accessibilityMode] and [path], which the constructor sets to
    [false] and [[]], and [startNode], which the constructor does not
    set.  Every other field it assigns before it reads it, so that the
    values given to them here stand for nothing (the result of
    [loadAllData] does not depend on them): in particular the engine
    before its first load has no [idMap], and [loadStart] is not meant
    as an engine to call [getNode] on. *)
Definition loadStart : MapEngine :=
  {| floorsConfig := [];
     images := ∅;
     floorOffsets := ∅;
     floorCropX := ∅;
     totalHeight := 0;
     globalNodes := [];
     globalEdges := [];
     idMap := ∅;
     adj := None;
     floorVisuals := ∅;
     accessibilityMode := false;
     path := [];
     startNode := None |}.

(** [loadAllData(floorsConfig)].  The JSON fetches resolve in some order;
    each floor is then processed in one piece (its nodes, then its
    edges).  The floors are taken here in the order of [floorsConfig]. *)
Definition loadAllData (cfg : AppConfigT) (w : World) (e : MapEngine)
    (floors : list FloorConf) : MapEngine :=
  let imgs := foldl (λ m c, <[fc_id c := loadImage w c]> m) ∅ floors in
  let '(offs, crops, currentY) :=
    foldl (layoutStep (defaultGapOf cfg) imgs) (∅, ∅, 0%Q) (sortFloors floors) in
  let '(nodes, ids, edges) :=
    foldl (loadFloor w offs crops) ([], ∅, []) floors in
  updateFloorLayout cfg
    (buildGlobalGraph cfg
       {| floorsConfig := floors;
          images := imgs;
          floorOffsets := offs;
          floorCropX := crops;
          totalHeight := currentY;
          globalNodes := nodes;
          globalEdges := edges;
          idMap := ids;
          adj := adj e;
          floorVisuals := floorVisuals e;
          accessibilityMode := accessibilityMode e;
          path := path e;
          startNode := startNode e |})
    [].

(** ** MinHeap *)

(** [a < b] on rationals, as a boolean. *)
Definition Qltb (a b : Q) : bool := negb (Qle_bool b a).

Record HeapItem := {
  h_id : string;
  h_dist : Q
}.

(** The loops of the heap and of the planner take a fuel argument.  A
    result [None] stands for a run that gives no result: the fuel ran
    out, or a property of [undefined] or [null] was read. *)
Module MinHeap.

Definition size (heap : list HeapItem) : nat := length heap.

Fixpoint bubbleUp_loop (fuel : nat) (heap : list HeapItem) (n : nat)
    : option (list HeapItem) :=
  match fuel with
  | O => None
  | S fuel' =>
      if (0 <? n)%nat then
        let parent := ((n - 1) / 2)%nat in
        a ← heap !! n;
        b ← heap !! parent;
        if Qle_bool (h_dist b) (h_dist a) then Some heap
        else bubbleUp_loop fuel' (<[parent := a]> (<[n := b]> heap)) parent
      else Some heap
  end.

Definition _bubbleUp (heap : list HeapItem) (n : nat) : option (list HeapItem) :=
  bubbleUp_loop (S n) heap n.

Definition push (heap : list HeapItem) (val : HeapItem) : option (list HeapItem) :=
  _bubbleUp (heap ++ [val]) (length (heap ++ [val]) - 1).

(** The index chosen by one turn of [_sinkDown], [None] for [null]. *)
Definition sinkChoice (heap : list HeapItem) (n : nat) : option (option nat) :=
  let len := length heap in
  let left := (2 * n + 1)%nat in
  let right := (2 * n + 2)%nat in
  swap1 ←
    (if (left <? len)%nat then
       l ← heap !! left; c ← heap !! n;
       Some (if Qltb (h_dist l) (h_dist c) then Some left else None)
     else Some None);
  if (right <? len)%nat then
    r ← heap !! right; c ← heap !! default n swap1;
    Some (if Qltb (h_dist r) (h_dist c) then Some right else swap1)
  else Some swap1.

Fixpoint sinkDown_loop (fuel : nat) (heap : list HeapItem) (n : nat)
    : option (list HeapItem) :=
  match fuel with
  | O => None
  | S fuel' =>
      swap ← sinkChoice heap n;
      match swap with
      | None => Some heap
      | Some s =>
          a ← heap !! n;
          b ← heap !! s;
          sinkDown_loop fuel' (<[s := a]> (<[n := b]> heap)) s
      end
  end.

Definition _sinkDown (heap : list HeapItem) (n : nat) : option (list HeapItem) :=
  sinkDown_loop (S (length heap)) heap n.

(** [pop()] gives the removed minimum ([None] for [null]) and the heap
    that is left. *)
Definition pop (heap : list HeapItem) : option (option HeapItem * list HeapItem) :=
  match heap !! 0%nat, last heap with
  | Some min, Some end_ =>
      let rest := removelast heap in
      if (0 <? length rest)%nat
      then heap' ← _sinkDown (<[0%nat := end_]> rest) 0; Some (Some min, heap')
      else Some (Some min, rest)
  | _, _ => Some (None, heap)
  end.

End MinHeap.

(** ** setStartMarker *)

(** [setStartMarker(nodeId)]: [this.startNode = this.getNode(nodeId)];
    the marker is kept as the place of the node in [globalNodes].  The
    call to [draw] touches the canvas only. *)
Definition setStartMarker (nodeId : string) (e : MapEngine) : MapEngine :=
  {| floorsConfig := floorsConfig e;
     images := images e;
     floorOffsets := floorOffsets e;
     floorCropX := floorCropX e;
     totalHeight := totalHeight e;
     globalNodes := globalNodes e;
     globalEdges := globalEdges e;
     idMap := idMap e;
     adj := adj e;
     floorVisuals := floorVisuals e;
     accessibilityMode := accessibilityMode e;
     path := path e;
     startNode := idMap e !! nodeId ≫= λ k, (λ _, k) <$> globalNodes e !! k |}.

(** ** calculatePath *)

(** [s.includes(k)] *)
Fixpoint includes (s k : string) : bool :=
  String.prefix k s ||
  match s with
  | EmptyString => false
  | String _ s' => includes s' k
  end.

(** The target set of a request. *)
Definition targetIdsOf (e : MapEngine) (endId : string) : gset string :=
  if String.eqb endId "NEAREST_MALE" || String.eqb endId "NEAREST_FEMALE"
     || String.eqb endId "NEAREST_VENDING" then
    if String.eqb endId "NEAREST_VENDING" then
      list_to_set (n_id <$> filter (λ n, str_is (n_type n) "vending" = true) (globalNodes e))
    else
      let keyword :=
        if String.eqb endId "NEAREST_MALE" then ["男性"; "男子"] else ["女性"; "女子"] in
      list_to_set
        (n_id <$> filter
           (λ n, str_is (n_type n) "toilet"
                 && existsb (λ k, match n_name n with
                                  | Some nm => negb (String.eqb nm "") && includes nm k
                                  | None => false
                                  end) keyword = true)
           (globalNodes e))
  else
    match getNode e endId with
    | Some eNode => {[ n_id eNode ]}
    | None => ∅
    end.

(** The weight the search gives to an adjacency entry; [None] when the
    entry is skipped. *)
Definition effectiveWeight (accessibility : bool) (edge : AdjEntry) : option Q :=
  if accessibility then
    if default false (a_barrierFreeBlocked edge) then None
    else if str_is (a_type edge) "elevator" then Some (a_dist edge * 0.1)%Q
    else if str_is (a_type edge) "stairs" then Some (a_dist edge + 50000)%Q
    else Some (a_dist edge)
  else
    if str_is (a_type edge) "elevator" then Some (a_dist edge + 2000)%Q
    else Some (a_dist edge).

Record Search := {
  dists : gmap string Q;
  prev : gmap string string;
  pq : list HeapItem;
  visited : gset string;
  finalDestId : option string
}.

(** One turn of [for (const edge of this.adj[minId])]. *)
Definition relaxEdge (accessibility : bool) (minId : string) (minDist : Q)
    (st : Search) (edge : AdjEntry) : option Search :=
  match effectiveWeight accessibility edge with
  | None => Some st
  | Some weight =>
      let newDist := (minDist + weight)%Q in
      if match dists st !! a_to edge with
         | Some d => Qltb newDist d
         | None => true
         end
      then
        pq' ← MinHeap.push (pq st) {| h_id := a_to edge; h_dist := newDist |};
        Some {| dists := <[a_to edge := newDist]> (dists st);
                prev := <[a_to edge := minId]> (prev st);
                pq := pq';
                visited := visited st;
                finalDestId := finalDestId st |}
      else Some st
  end.

Fixpoint relaxEdges (accessibility : bool) (minId : string) (minDist : Q)
    (st : Search) (edges : list AdjEntry) : option Search :=
  match edges with
  | [] => Some st
  | edge :: rest =>
      st' ← relaxEdge accessibility minId minDist st edge;
      relaxEdges accessibility minId minDist st' rest
  end.

Definition withQueue (st : Search) (q : list HeapItem) : Search :=
  {| dists := dists st; prev := prev st; pq := q;
     visited := visited st; finalDestId := finalDestId st |}.

(** [while (pq.size() > 0)] *)
Fixpoint searchLoop (fuel : nat) (g : gmap string (list AdjEntry))
    (accessibility : bool) (targetIds : gset string) (st : Search) : option Search :=
  match fuel with
  | O => None
  | S fuel' =>
      if (0 <? MinHeap.size (pq st))%nat then
        '(popped, q) ← MinHeap.pop (pq st);
        min ← popped;
        let minId := h_id min in
        let minDist := h_dist min in
        if match dists st !! minId with
           | Some d => Qltb d minDist
           | None => false
           end
        then searchLoop fuel' g accessibility targetIds (withQueue st q)
        else if bool_decide (minId ∈ visited st)
        then searchLoop fuel' g accessibility targetIds (withQueue st q)
        else
          let st1 := {| dists := dists st; prev := prev st; pq := q;
                        visited := visited st ∪ {[ minId ]};
                        finalDestId := finalDestId st |} in
          if bool_decide (minId ∈ targetIds) then
            Some {| dists := dists st1; prev := prev st1; pq := pq st1;
                    visited := visited st1; finalDestId := Some minId |}
          else
            st2 ← relaxEdges accessibility minId minDist st1 (default [] (g !! minId));
            searchLoop fuel' g accessibility targetIds st2
      else Some st
  end.

(** [while (curr !== undefined) { path.unshift(curr); curr = prev[curr] }] *)
Fixpoint unwind (fuel : nat) (prv : gmap string string)
    (curr : option string) (acc : list string) : option (list string) :=
  match curr with
  | None => Some acc
  | Some c =>
      match fuel with
      | O => None
      | S fuel' => unwind fuel' prv (prv !! c) (c :: acc)
      end
  end.

(** Every turn of the search loop removes one queue entry, and entries
    are added only while a node is visited, one for each of its
    adjacency entries at most. *)
Definition searchFuel (g : gmap string (list AdjEntry)) : nat :=
  2 + map_fold (λ _ l n, length l + n)%nat 0%nat g.

(** [if (!this.adj || Object.keys(this.adj).length === 0) this.buildGlobalGraph()] *)
Definition ensureGraph (cfg : AppConfigT) (e : MapEngine) : MapEngine :=
  match adj e with
  | Some g => if bool_decide (g = ∅) then buildGlobalGraph cfg e else e
  | None => buildGlobalGraph cfg e
  end.

Definition adjOf (e : MapEngine) : gmap string (list AdjEntry) :=
  default ∅ (adj e).

Definition withPath (e : MapEngine) (p : list string) : MapEngine :=
  {| floorsConfig := floorsConfig e;
     images := images e;
     floorOffsets := floorOffsets e;
     floorCropX := floorCropX e;
     totalHeight := totalHeight e;
     globalNodes := globalNodes e;
     globalEdges := globalEdges e;
     idMap := idMap e;
     adj := adj e;
     floorVisuals := floorVisuals e;
     accessibilityMode := accessibilityMode e;
     path := p;
     startNode := None |}.

(** The search proper, from the resolved start node to the target set. *)
Definition search (g : gmap string (list AdjEntry)) (accessibility : bool)
    (targetIds : gset string) (s : string) : option Search :=
  pq0 ← MinHeap.push [] {| h_id := s; h_dist := 0 |};
  searchLoop (searchFuel g) g accessibility targetIds
    {| dists := {[ s := 0%Q ]}; prev := ∅; pq := pq0;
       visited := ∅; finalDestId := None |}.

(** [calculatePath(startId, endId)]: the engine after the call and the
    returned path.  The calls to [draw] and [fitToPath] at the end touch
    the canvas and the camera only. *)
Definition calculatePath (cfg : AppConfigT) (e : MapEngine)
    (startId endId : string) : option (MapEngine * list string) :=
  let e0 := withPath e [] in
  match getNode e0 startId with
  | None => Some (e0, [])
  | Some sNode =>
      let targetIds := targetIdsOf e0 endId in
      if bool_decide (targetIds = ∅) then Some (e0, [])
      else
        let e1 := ensureGraph cfg e0 in
        st ← search (adjOf e1) (accessibilityMode e1) targetIds (n_id sNode);
        p ← match finalDestId st with
            | Some d => unwind (S (size (visited st))) (prev st) (Some d) []
            | None => Some []
            end;
        Some (withPath e1 p, p)
  end.

(** ** The camera transform *)

(** [{k, x, y}], over the number type at hand. *)
Record Transform (A : Type) := {
  t_k : A;
  t_x : A;
  t_y : A
}.
Arguments t_k {A} _.
Arguments t_x {A} _.
Arguments t_y {A} _.

(** The arithmetic d3-zoom's [Transform] methods use. *)
Class JsArith (A : Type) := {
  jadd : A → A → A;
  jmul : A → A → A;
  jzero : A;
  jone : A
}.

Section D3Transform.
Context {A : Type} `{JsArith A}.

Definition zoomIdentity : Transform A :=
  {| t_k := jone; t_x := jzero; t_y := jzero |}.

(** [new Transform(this.k, this.x + this.k * x, this.y + this.k * y)];
    the shortcut that returns [this] for a zero shift gives the same
    value. *)
Definition translate (t : Transform A) (x y : A) : Transform A :=
  {| t_k := t_k t;
     t_x := jadd (t_x t) (jmul (t_k t) x);
     t_y := jadd (t_y t) (jmul (t_k t) y) |}.

(** [new Transform(this.k * k, this.x, this.y)] *)
Definition scale (t : Transform A) (k : A) : Transform A :=
  {| t_k := jmul (t_k t) k; t_x := t_x t; t_y := t_y t |}.

End D3Transform.

(** ** Numbers with infinities and NaN *)

(** Finite values are exact rationals; the sign of zero is not kept, and
    a zero divisor counts as [+0]. *)
Module JsNum.

Inductive t :=
| Fin (q : Q)
| PInf
| NInf
| NaN.

Definition ofN (n : N) : t := Fin (inject_Z (Z.of_N n)).

Definition isFinite (a : t) : bool :=
  match a with
  | Fin _ => true
  | _ => false
  end.

Definition isNaN (a : t) : bool :=
  match a with
  | NaN => true
  | _ => false
  end.

Definition neg (a : t) : t :=
  match a with
  | Fin q => Fin (- q)
  | PInf => NInf
  | NInf => PInf
  | NaN => NaN
  end.

Definition add (a b : t) : t :=
  match a, b with
  | NaN, _ | _, NaN => NaN
  | Fin x, Fin y => Fin (x + y)
  | PInf, NInf | NInf, PInf => NaN
  | PInf, _ | _, PInf => PInf
  | NInf, _ | _, NInf => NInf
  end.

Definition sub (a b : t) : t := add a (neg b).

(** The sign of a rational: [1], [0] or [-1]. *)
Definition sgn (q : Q) : Z := Z.sgn (Qnum q).

Definition signedInf (s : Z) : t :=
  match s with
  | Z0 => NaN
  | Zpos _ => PInf
  | Zneg _ => NInf
  end.

Definition mul (a b : t) : t :=
  match a, b with
  | NaN, _ | _, NaN => NaN
  | Fin x, Fin y => Fin (x * y)
  | Fin x, PInf | PInf, Fin x => signedInf (sgn x)
  | Fin x, NInf | NInf, Fin x => signedInf (- sgn x)
  | PInf, PInf | NInf, NInf => PInf
  | PInf, NInf | NInf, PInf => NInf
  end.

Definition div (a b : t) : t :=
  match a, b with
  | NaN, _ | _, NaN => NaN
  | Fin x, Fin y =>
      if Qeq_bool y 0 then signedInf (sgn x) else Fin (x / y)
  | Fin _, PInf | Fin _, NInf => Fin 0
  | PInf, Fin y => if Qltb y 0 then NInf else PInf
  | NInf, Fin y => if Qltb y 0 then PInf else NInf
  | _, _ => NaN
  end.

(** [a < b] *)
Definition lt (a b : t) : bool :=
  match a, b with
  | NaN, _ | _, NaN => false
  | Fin x, Fin y => Qltb x y
  | NInf, NInf => false
  | NInf, _ => true
  | _, PInf => match a with PInf => false | _ => true end
  | _, _ => false
  end.

(** [a <= b] *)
Definition le (a b : t) : bool :=
  match a, b with
  | NaN, _ | _, NaN => false
  | Fin x, Fin y => Qle_bool x y
  | NInf, _ => true
  | _, PInf => true
  | _, _ => false
  end.

(** [a === b] *)
Definition eqb (a b : t) : bool :=
  match a, b with
  | Fin x, Fin y => Qeq_bool x y
  | PInf, PInf | NInf, NInf => true
  | _, _ => false
  end.

(** [Math.min(a, b)] and [Math.max(a, b)] *)
Definition min (a b : t) : t :=
  match a, b with
  | NaN, _ | _, NaN => NaN
  | _, _ => if lt b a then b else a
  end.

Definition max (a b : t) : t :=
  match a, b with
  | NaN, _ | _, NaN => NaN
  | _, _ => if lt a b then b else a
  end.

End JsNum.

#[export] Instance JsNum_arith : JsArith JsNum.t :=
  {| jadd := JsNum.add; jmul := JsNum.mul;
     jzero := JsNum.Fin 0; jone := JsNum.Fin 1 |}.

(** ** fitBounds and the camera part of fitToPath *)

Module Fit.
Import JsNum.

Definition padding : t := Fin 100.

Record Box := {
  minX : t;
  maxX : t;
  minY : t;
  maxY : t
}.

Definition emptyBox : Box :=
  {| minX := PInf; maxX := NInf; minY := PInf; maxY := NInf |}.

(** One turn of the bounding-box loop of [fitBounds].  An entry is
    [None] when it fails [n && typeof n.x === 'number' && typeof n.y ===
    'number']. *)
Definition growBox (b : Box) (n : option (t * t)) : Box :=
  match n with
  | Some (x, y) =>
      {| minX := if lt x (minX b) then x else minX b;
         maxX := if lt (maxX b) x then x else maxX b;
         minY := if lt y (minY b) then y else minY b;
         maxY := if lt (maxY b) y then y else maxY b |}
  | None => b
  end.

(** [fitBounds(nodes)] on a canvas of the given size: the transform
    handed to the zoom transition, or [None] when the call returns
    before that. *)
Definition fitBounds (canvasWidth canvasHeight : N) (nodes : list (option (t * t)))
    : option (Transform t) :=
  match nodes with
  | [] => None
  | _ =>
      let b := foldl growBox emptyBox nodes in
      if eqb (minX b) PInf || eqb (maxX b) NInf then None
      else
        let targetWidth := add (sub (maxX b) (minX b)) (mul padding (Fin 2)) in
        let targetHeight := add (sub (maxY b) (minY b)) (mul padding (Fin 2)) in
        let targetWidth := if le targetWidth (Fin 0) then Fin 500 else targetWidth in
        let targetHeight := if le targetHeight (Fin 0) then Fin 500 else targetHeight in
        let centerX := div (add (minX b) (maxX b)) (Fin 2) in
        let centerY := div (add (minY b) (maxY b)) (Fin 2) in
        let scaleX := div (ofN canvasWidth) targetWidth in
        let scaleY := div (ofN canvasHeight) targetHeight in
        let k := min scaleX scaleY in
        let k := if negb (isFinite k) || isNaN k then Fin 1 else k in
        let k := min (max k (Fin 0.2)) (Fin 3) in
        let tX := sub (div (ofN canvasWidth) (Fin 2)) (mul centerX k) in
        let tY := sub (div (ofN canvasHeight) (Fin 2)) (mul centerY k) in
        if negb (isFinite tX) || isNaN tX || negb (isFinite tY) || isNaN tY
        then None
        else Some (scale (translate zoomIdentity tX tY) k)
  end.

(** One turn of the bounding-box loop of [fitToPath]. *)
Definition growPathBox (e : MapEngine) (b : Box) (i : string) : Box :=
  match getNode e i with
  | Some n =>
      {| minX := min (minX b) (Fin (n_x n));
         maxX := max (maxX b) (Fin (n_x n));
         minY := min (minY b) (Fin (n_y n));
         maxY := max (maxY b) (Fin (n_y n)) |}
  | None => b
  end.

(** The zoom and pan part of [fitToPath(pathNodes)]: the transform
    handed to the zoom transition, [None] for the early return. *)
Definition fitToPath (e : MapEngine) (canvasWidth canvasHeight : N)
    (pathNodes : list string) : option (Transform t) :=
  match pathNodes with
  | [] => None
  | _ =>
      let b := foldl (growPathBox e) emptyBox pathNodes in
      let width := add (sub (maxX b) (minX b)) (mul padding (Fin 2)) in
      let height := add (sub (maxY b) (minY b)) (mul padding (Fin 2)) in
      let cx := div (add (minX b) (maxX b)) (Fin 2) in
      let cy := div (add (minY b) (maxY b)) (Fin 2) in
      let scaleX := div (ofN canvasWidth) width in
      let scaleY := div (ofN canvasHeight) height in
      let sc := min scaleX scaleY in
      let sc := min sc (Fin 2) in
      let sc := max sc (Fin 0.2) in
      let tX := sub (div (ofN canvasWidth) (Fin 2)) (mul cx sc) in
      let tY := sub (div (ofN canvasHeight) (Fin 2)) (mul cy sc) in
      Some (scale (translate zoomIdentity tX tY) sc)
  end.


End Fit.

(** ** Panning and rotation, over the reals *)

#[export] Instance R_arith : JsArith R :=
  {| jadd := Rplus; jmul := Rmult; jzero := 0%R; jone := 1%R |}.

Module Camera.
Local Open Scope R_scope.

(** The world-space shift of a screen drag at a rotation in degrees. *)
Definition worldDelta (rotation dx dy : R) : R * R :=
  let rad := rotation * PI / 180 in
  let c := cos rad in
  let s := sin rad in
  (dx * c + dy * s, - dx * s + dy * c).

(** [applyRotatedPan(dx, dy)]: the new transform. *)
Definition applyRotatedPan (rotation : R) (transform : Transform R) (dx dy : R)
    : Transform R :=
  let '(dtx, dty) := worldDelta rotation dx dy in
  scale (translate zoomIdentity (t_x transform + dtx) (t_y transform + dty))
        (t_k transform).

(** Truncation towards zero. *)
Definition Rtrunc (x : R) : Z :=
  if Rle_dec 0 x then Int_part x else (- Int_part (- x))%Z.

(** [x % m]: the remainder has the sign of the dividend. *)
Definition jsRem (x m : R) : R := x - m * IZR (Rtrunc (x / m)).

(** [setRotation(angle)]: the angle the rotation tween ends on. *)
Definition setRotation (rotation angle : R) : R :=
  let startAngle := rotation in
  let delta := jsRem (angle - startAngle) 360 in
  let delta := if Rlt_dec 180 delta then delta - 360 else delta in
  let delta := if Rlt_dec delta (-180) then delta + 360 else delta in
  startAngle + delta.

(** [Math.atan2(y, x)], zeros counting as [+0]. *)
Definition atan2 (y x : R) : R :=
  if Rlt_dec 0 x then atan (y / x)
  else if Rlt_dec x 0 then
    if Rle_dec 0 y then atan (y / x) + PI else atan (y / x) - PI
  else if Rlt_dec 0 y then PI / 2
  else if Rlt_dec y 0 then - (PI / 2)
  else 0.

(** The heading [fitToPath] aims at. *)
Definition targetRotationOf (e : MapEngine) (enableAutoRotation : bool)
    (rotation : R) (pathNodes : list string) : R :=
  if enableAutoRotation && (2 <=? length pathNodes)%nat then
    match pathNodes !! 0%nat ≫= getNode e, pathNodes !! 1%nat ≫= getNode e with
    | Some n1, Some n2 =>
        let dx := Q2R (n_x n2) - Q2R (n_x n1) in
        let dy := Q2R (n_y n2) - Q2R (n_y n1) in
        let rad := atan2 dy dx in
        let deg := rad * (180 / PI) in
        -90 - deg + 15
    | _, _ => rotation
    end
  else if negb enableAutoRotation then 0
  else rotation.

(** The rotation part of [fitToPath(pathNodes)]: the angle the rotation
    tween ends on, [None] for the early return. *)
Definition fitToPath (e : MapEngine) (enableAutoRotation : bool)
    (rotation : R) (pathNodes : list string) : option R :=
  match pathNodes with
  | [] => None
  | _ =>
      let targetRotation := targetRotationOf e enableAutoRotation rotation pathNodes in
      let startRotation := rotation in
      let delta := jsRem (targetRotation - startRotation) 360 in
      let delta := if Rlt_dec 180 delta then delta - 360 else delta in
      let delta := if Rlt_dec delta (-180) then delta + 360 else delta in
      Some (startRotation + delta)
  end.

End Camera.

(** * Scenarios and specification predicates *)

(** ** Graph building: groups, adjacency and the loading invariant *)

(** The nodes with a given connection key, in their order. *)
Definition groupOf (key : string) (nodes : list Node) : list Node :=
  filter (λ n, connectionKey n = Some key) nodes.

(** The adjacency cache has the entry [a] under the key [k]. *)
Definition adjHas (m : gmap string (list AdjEntry)) (k : string) (a : AdjEntry) : Prop :=
  ∃ l, m !! k = Some l ∧ a ∈ l.

(** What [loadAllData] keeps true while it reads the floors. *)
Record LoadInv (floors : list FloorConf)
    (nodes : list Node) (ids : gmap string nat) (edges : list Edge) : Prop := {
  li_ids : ∀ i k, ids !! i = Some k → ∃ n, nodes !! k = Some n ∧ n_id n = i;
  li_nodes : ∀ n, n ∈ nodes → is_Some (ids !! n_id n);
  li_edges : ∀ edge, edge ∈ edges →
    is_Some (ids !! e_from edge) ∧ is_Some (ids !! e_to edge);
  li_floors : ∀ n, n ∈ nodes → ∃ c, c ∈ floors ∧ n_floorId n = fc_id c
}.

(** ** Scenario A: two stairs nodes named "A", on floors 1 and 2 of 3 *)

Definition floorConf (i : Z) : FloorConf :=
  {| fc_id := i;
     fc_jsonPath := "JSON/" +:+ pretty i +:+ ".json";
     fc_imagePath := "images/floor" +:+ pretty i +:+ ".png" |}.

Definition scenarioA_config : AppConfigT :=
  {| FLOORS := [floorConf 1; floorConf 2; floorConf 3];
     FLOOR_GAP := 200;
     DEFAULT_FLOOR_ID := 2 |}.

Definition stairsA : RawNode :=
  {| rn_id := KStr "s"; rn_x := 100; rn_y := 200;
     rn_type := Some "stairs"; rn_name := Some "A"; rn_connectionId := None |}.

Definition scenarioA_world : World :=
  {| loadImage := λ _, {| img_width := 940; img_height := 1000 |};
     fetchJson := λ c,
       if (fc_id c =? 3)%Z then Some {| fj_nodes := []; fj_edges := [] |}
       else Some {| fj_nodes := [stairsA]; fj_edges := [] |} |}.

Definition scenarioA : MapEngine :=
  loadAllData scenarioA_config scenarioA_world loadStart (FLOORS scenarioA_config).

(** The floor distance of a transfer edge: the difference of the floor
    ids when [AppConfig.FLOORS] lists both floors, else 1. *)
Definition transferFloorDistance (cfg : AppConfigT) (n1 n2 : Node) : Z :=
  if bool_decide (n_floorId n1 ∈ (fc_id <$> FLOORS cfg) ∧
                  n_floorId n2 ∈ (fc_id <$> FLOORS cfg))
  then Z.abs (n_floorId n1 - n_floorId n2)
  else 1.

(** The transfer edge between two nodes, as the specification words it,
    for a given floor distance. *)
Definition expectedTransferEdge (floorDist : Z) (n1 n2 : Node) : Edge :=
  {| e_from := n_id n1;
     e_to := n_id n2;
     e_dist := (inject_Z floorDist * 150)%Q;
     e_type :=
       Some (if str_is (n_type n1) "elevator" && str_is (n_type n2) "elevator"
             then "elevator"
             else if str_is (n_type n1) "stairs" && str_is (n_type n2) "stairs"
             then "stairs" else "transfer");
     e_floorId := None |}.

(** ** Floor layout *)

(** The path spans two different floors: its first and its last node
    resolve, on floors whose smaller and larger ids are [lo] and [hi]. *)
Definition spansFloors (e : MapEngine) (pathNodes : list string) (lo hi : Z) : Prop :=
  ∃ s t startN endN,
    head pathNodes = Some s ∧ last pathNodes = Some t ∧
    getNode e s = Some startN ∧ getNode e t = Some endN ∧
    n_floorId startN ≠ n_floorId endN ∧
    lo = Z.min (n_floorId startN) (n_floorId endN) ∧
    hi = Z.max (n_floorId startN) (n_floorId endN).

(** A floor of [AppConfig.FLOORS] strictly between the two. *)
Definition isIntermediateFloor (cfg : AppConfigT) (e : MapEngine)
    (pathNodes : list string) (i : Z) : Prop :=
  i ∈ (fc_id <$> FLOORS cfg) ∧
  ∃ lo hi, spansFloors e pathNodes lo hi ∧ (lo < i < hi)%Z.

(** The floors the path visits, in its order. *)
Definition pathFloors (e : MapEngine) (pathNodes : list string) : list Z :=
  omap (λ i, n_floorId <$> getNode e i) pathNodes.

(** The specification's wording: a floor strictly between the path's
    minimum and maximum floor. *)
Definition betweenPathFloors (e : MapEngine) (pathNodes : list string) (i : Z) : Prop :=
  ∃ lo hi,
    lo ∈ pathFloors e pathNodes ∧ hi ∈ pathFloors e pathNodes ∧
    (∀ f, f ∈ pathFloors e pathNodes → (lo ≤ f ≤ hi)%Z) ∧
    (lo < i < hi)%Z.

(** A venue of three floors with a stairs node named "A" on each. *)
Definition threeFloors_world : World :=
  {| loadImage := λ _, {| img_width := 940; img_height := 1000 |};
     fetchJson := λ _, Some {| fj_nodes := [stairsA]; fj_edges := [] |} |}.

Definition threeFloors : MapEngine :=
  loadAllData scenarioA_config threeFloors_world loadStart (FLOORS scenarioA_config).

(** [engine.accessibilityMode = checked], as the accessibility toggle does. *)
Definition setAccessibilityMode (b : bool) (e : MapEngine) : MapEngine :=
  {| floorsConfig := floorsConfig e;
     images := images e;
     floorOffsets := floorOffsets e;
     floorCropX := floorCropX e;
     totalHeight := totalHeight e;
     globalNodes := globalNodes e;
     globalEdges := globalEdges e;
     idMap := idMap e;
     adj := adj e;
     floorVisuals := floorVisuals e;
     accessibilityMode := b;
     path := path e;
     startNode := startNode e |}.

(** ** Scenario B: an elevator edge of base weight 100 and a stairs edge
    of base weight 50 between the same two nodes *)

Definition plainNode (i : string) : Node :=
  {| n_id := i; n_originalId := KStr i; n_floorId := 1;
     n_x := 0; n_baseX := 0; n_localY := 0; n_y := 0;
     n_type := Some "junction"; n_name := None; n_connectionId := None |}.

Definition entry (to : string) (dist : Q) (type : string) : AdjEntry :=
  {| a_to := to; a_dist := dist; a_type := Some type; a_barrierFreeBlocked := None |}.

Definition scenarioB : MapEngine :=
  {| floorsConfig := [floorConf 1];
     images := ∅;
     floorOffsets := ∅;
     floorCropX := ∅;
     totalHeight := 0;
     globalNodes := [plainNode "s"; plainNode "t"];
     globalEdges :=
       [ {| e_from := "s"; e_to := "t"; e_dist := 100;
            e_type := Some "elevator"; e_floorId := None |};
         {| e_from := "s"; e_to := "t"; e_dist := 50;
            e_type := Some "stairs"; e_floorId := None |} ];
     idMap := {[ "s" := 0%nat; "t" := 1%nat ]};
     adj := Some {[ "s" := [entry "t" 100 "elevator"; entry "t" 50 "stairs"];
                    "t" := [entry "s" 100 "elevator"; entry "s" 50 "stairs"] ]};
     floorVisuals := ∅;
     accessibilityMode := true;
     path := [];
     startNode := None |}.

(** ** A floor whose only edge is flagged [barrierFreeBlocked] *)

Definition roomNode (i : string) : RawNode :=
  {| rn_id := KStr i; rn_x := 10; rn_y := 20;
     rn_type := Some "room"; rn_name := None; rn_connectionId := None |}.

Definition blocked_world : World :=
  {| loadImage := λ _, {| img_width := 940; img_height := 1000 |};
     fetchJson := λ _,
       Some {| fj_nodes := [roomNode "a"; roomNode "b"];
               fj_edges :=
                 [ {| re_from := KStr "a"; re_to := KStr "b"; re_dist := Some 5%Q;
                      re_barrierFreeBlocked := Some true |};
                   {| re_from := KStr "a"; re_to := KStr "nowhere"; re_dist := None;
                      re_barrierFreeBlocked := None |} ] |} |}.

Definition oneFloor_config : AppConfigT :=
  {| FLOORS := [floorConf 1]; FLOOR_GAP := 200; DEFAULT_FLOOR_ID := 1 |}.

Definition loadedVenue : MapEngine :=
  loadAllData oneFloor_config blocked_world loadStart (FLOORS oneFloor_config).

Definition blockedVenue : MapEngine := setAccessibilityMode true loadedVenue.

Definition unflagged (m : gmap string (list AdjEntry)) : Prop :=
  ∀ k l a, m !! k = Some l → a ∈ l → a_barrierFreeBlocked a = None.

(** ** Rotation: the shortest signed turn, as the specification words it *)

Definition shortestDelta (target current : R) : R :=
  let delta := Camera.jsRem (target - current) 360 in
  let delta := if Rlt_dec 180 delta then (delta - 360)%R else delta in
  if Rlt_dec delta (-180) then (delta + 360)%R else delta.

(** ** Fits and non-finite values *)

Definition finiteTransform (t : Transform JsNum.t) : Prop :=
  JsNum.isFinite (t_k t) = true ∧ JsNum.isFinite (t_x t) = true ∧
  JsNum.isFinite (t_y t) = true.

(** ** The binary heap *)

(** Every entry is at least its parent. *)
Definition heapOrdered (heap : list HeapItem) : Prop :=
  ∀ i a b, 0 < i → heap !! i = Some a → heap !! ((i - 1) / 2) = Some b →
    (h_dist b <= h_dist a)%Q.

(** The order holds except at the places [skip] names. *)
Definition heapOrderedBut (skip : nat → Prop) (heap : list HeapItem) : Prop :=
  ∀ i a b, 0 < i → ¬ skip i → heap !! i = Some a → heap !! ((i - 1) / 2) = Some b →
    (h_dist b <= h_dist a)%Q.

(** The children of [n] are at least the parent of [n]. *)
Definition grandOrdered (n : nat) (heap : list HeapItem) : Prop :=
  ∀ c a b, 0 < n → 0 < c → (c - 1) / 2 = n →
    heap !! c = Some a → heap !! ((n - 1) / 2) = Some b →
    (h_dist b <= h_dist a)%Q.

(** ** Walks in the adjacency cache *)

(** The entry [a] leaves [u] and the search gives it the weight [w]. *)
Definition usable (g : gmap string (list AdjEntry)) (accessibility : bool)
    (u : string) (a : AdjEntry) (w : Q) : Prop :=
  ∃ l, g !! u = Some l ∧ a ∈ l ∧ effectiveWeight accessibility a = Some w.

(** A walk from a node, as the list of the entries it takes. *)
Inductive walk (g : gmap string (list AdjEntry)) (accessibility : bool)
    : string → list AdjEntry → string → Prop :=
| walk_nil u : walk g accessibility u [] u
| walk_cons u a w es v :
    usable g accessibility u a w →
    walk g accessibility (a_to a) es v →
    walk g accessibility u (a :: es) v.

Definition walkWeight (accessibility : bool) (es : list AdjEntry) : Q :=
  foldr (λ a r, default 0 (effectiveWeight accessibility a) + r)%Q 0%Q es.

Definition walkNodes (u : string) (es : list AdjEntry) : list string :=
  u :: (a_to <$> es).

(** No entry that the search weighs has a negative weight. *)
Definition nonNegative (g : gmap string (list AdjEntry)) (accessibility : bool) : Prop :=
  ∀ u a w, usable g accessibility u a w → (0 <= w)%Q.

(** The adjacency entries of the nodes not visited yet. *)
Definition pending (g : gmap string (list AdjEntry)) (V : gset string) : nat :=
  map_fold (λ k l n, if decide (k ∈ V) then n else length l + n) 0 g.

(** ** What the search keeps true *)

(** [finished u a] tells which entries of visited nodes have been
    relaxed already. *)
Record SearchInv (g : gmap string (list AdjEntry)) (accessibility : bool)
    (targetIds : gset string) (s : string)
    (finished : string → AdjEntry → Prop) (st : Search) : Prop := {
  si_start : dists st !! s = Some 0%Q;
  si_nostart : prev st !! s = None;
  si_nonneg : ∀ v d, dists st !! v = Some d → (0 <= d)%Q;
  si_heap : heapOrdered (pq st);
  si_queue : ∀ item, item ∈ pq st →
    ∃ d, dists st !! h_id item = Some d ∧ (d <= h_dist item)%Q;
  si_frontier : ∀ v d, dists st !! v = Some d → v ∉ visited st →
    {| h_id := v; h_dist := d |} ∈ pq st;
  si_visited : ∀ v, v ∈ visited st → is_Some (dists st !! v);
  si_mono : ∀ v d item, v ∈ visited st → dists st !! v = Some d →
    item ∈ pq st → (d <= h_dist item)%Q;
  si_closed : ∀ u a w du, u ∈ visited st → u ∉ targetIds →
    usable g accessibility u a w → finished u a →
    dists st !! u = Some du →
    ∃ dv, dists st !! a_to a = Some dv ∧ (dv <= du + w)%Q;
  si_lower : ∀ v d es, v ∈ visited st → dists st !! v = Some d →
    walk g accessibility s es v → (d <= walkWeight accessibility es)%Q;
  si_prev : ∀ v u, prev st !! v = Some u →
    u ∈ visited st ∧
    ∃ a w du dv, usable g accessibility u a w ∧ a_to a = v ∧
                 dists st !! u = Some du ∧ dists st !! v = Some dv ∧
                 (dv == du + w)%Q;
  si_prev_dom : ∀ v, v ≠ s → is_Some (dists st !! v) → is_Some (prev st !! v);
  si_rank : ∃ rk : string → nat,
    (∀ v u, prev st !! v = Some u → rk u < rk v) ∧
    (∀ v, v ∈ visited st → rk v < size (visited st)) ∧
    (∀ v, v ∉ visited st → rk v = size (visited st));
  si_target : ∀ v, v ∈ visited st → v ∈ targetIds → finalDestId st = Some v;
  si_found : ∀ t, finalDestId st = Some t →
    t ∈ targetIds ∧ t ∈ visited st ∧
    ∀ d t' es, dists st !! t = Some d → t' ∈ targetIds →
      walk g accessibility s es t' → (d <= walkWeight accessibility es)%Q
}.

Definition everything (_ : string) (_ : AdjEntry) : Prop := True.

(** The state while the entries of [x], popped at [minDist], are relaxed. *)
Definition Relaxing (targetIds : gset string) (x : string) (minDist : Q)
    (st : Search) : Prop :=
  x ∈ visited st ∧ (x ∉ targetIds) ∧ finalDestId st = None ∧
  (∃ dx, dists st !! x = Some dx ∧ (dx == minDist)%Q) ∧
  (∀ v d, v ∈ visited st → dists st !! v = Some d → (d <= minDist)%Q).

(** A check of [nonNegative] that computes. *)
Definition nonNegativeb (g : gmap string (list AdjEntry)) (accessibility : bool) : bool :=
  forallb (λ kl, forallb (λ a, match effectiveWeight accessibility a with
                               | Some w => Qle_bool 0 w
                               | None => true
                               end) kl.2)
          (map_to_list g).

(** ** Two rooms with no way between them, and a route left from before *)

Definition islands_world : World :=
  {| loadImage := λ _, {| img_width := 940; img_height := 1000 |};
     fetchJson := λ _,
       Some {| fj_nodes := [roomNode "a"; roomNode "b"]; fj_edges := [] |} |}.

(** The venue after [calculatePath('1_a', '1_a')] and
    [setStartMarker('1_a')]: a route is stored and the marker is set. *)
Definition islands : MapEngine :=
  let loaded := loadAllData oneFloor_config islands_world loadStart (FLOORS oneFloor_config) in
  setStartMarker "1_a"
    (default loaded (fst <$> calculatePath oneFloor_config loaded "1_a" "1_a")).

(** * More of the program, and what is said about it *)

(** ** The heap as a priority queue *)

(** The heap order, as a check that can be run. *)
Definition heapOrderedb (heap : list HeapItem) : bool :=
  forallb (λ i, match heap !! i, heap !! ((i - 1) / 2)%nat with
                | Some a, Some b => Qle_bool (h_dist b) (h_dist a)
                | _, _ => true
                end)
          (seq 1 (length heap - 1)).

(** [items.forEach(v => heap.push(v))] *)
Definition pushAll (heap : list HeapItem) (items : list HeapItem)
    : option (list HeapItem) :=
  foldl (λ h v, h ≫= λ h', MinHeap.push h' v) (Some heap) items.

(** [while (heap.size() > 0) out.push(heap.pop())] *)
Fixpoint popAll (fuel : nat) (heap : list HeapItem) : option (list HeapItem) :=
  if (0 <? MinHeap.size heap)%nat then
    match fuel with
    | O => None
    | S fuel' =>
        '(popped, heap') ← MinHeap.pop heap;
        min ← popped;
        rest ← popAll fuel' heap';
        Some (min :: rest)
    end
  else Some [].

(** Ascending distances. *)
Definition ascending (l : list HeapItem) : Prop :=
  ∀ i j a b, i ≤ j → l !! i = Some a → l !! j = Some b → (h_dist a <= h_dist b)%Q.

(** ** What loadAllData stores *)

(** The nodes one floor file gives, as [loadAllData] stores them. *)
Definition floorNodes (w : World) (offs crops : gmap Z Q) (c : FloorConf) : list Node :=
  match fetchJson w c with
  | Some data =>
      mkNode (fc_id c) (default 0%Q (crops !! fc_id c)) (default 0%Q (offs !! fc_id c))
        <$> fj_nodes data
  | None => []
  end.

(** ** The stack of floors after loading *)

(** The running [currentY] of step 2 of [loadAllData]. *)
Definition advance (gap : Q) (imgs : gmap Z Image) (y : Q) (l : list FloorConf) : Q :=
  foldl (λ y c, y + (baseHeightOf imgs (fc_id c) + gap))%Q y l.

(** ** The edges and the adjacency cache after loading *)

(** The edge [loadAllData] stores for an edge of a floor file. *)
Definition floorEdge (floor : Z) (r : RawEdge) : Edge :=
  {| e_from := globalId floor (re_from r);
     e_to := globalId floor (re_to r);
     e_dist := default 1%Q (re_dist r);
     e_type := None;
     e_floorId := Some floor |}.

(** What steps 3 of [loadAllData] leave: nodes, id map and edges. *)
Definition loaded (w : World) (e : MapEngine) (floors : list FloorConf)
    : list Node * gmap string nat * list Edge :=
  foldl (loadFloor w (floorOffsets e) (floorCropX e)) ([], ∅, []) floors.

(** ** Laying out again *)

(** A keyed value, mapped. *)
Definition mapValue {K A B} (f : A → B) (kv : K * A) : K * B := (kv.1, f kv.2).

Definition placeGroup (vis : gmap Z FloorVisual) (kv : string * list Node)
    : string * list Node :=
  mapValue (λ ns : list Node, placeNode vis <$> ns) kv.

(** ** What the fits achieve *)

(** A node as [fitBounds] sees it, with finite coordinates. *)
Definition finPoint (n : option (Q * Q)) : option (JsNum.t * JsNum.t) :=
  (λ p, (JsNum.Fin p.1, JsNum.Fin p.2)) <$> n.

(** The nodes that pass the test of the bounding-box loop. *)
Definition validPoints (nodes : list (option (Q * Q))) : list (Q * Q) :=
  omap (λ n, n) nodes.

(** [a], [b], [c] and [d] are the least and the greatest first and
    second coordinates of the points. *)
Definition boundsOf (pts : list (Q * Q)) (a b c d : Q) : Prop :=
  (∀ p, p ∈ pts → (a <= p.1 <= b)%Q ∧ (c <= p.2 <= d)%Q) ∧
  (∃ p, p ∈ pts ∧ p.1 = a) ∧ (∃ p, p ∈ pts ∧ p.1 = b) ∧
  (∃ p, p ∈ pts ∧ p.2 = c) ∧ (∃ p, p ∈ pts ∧ p.2 = d).

(** The entries of a list handed to [fitBounds] that pass the test of
    its loop, [n && typeof n.x === 'number' && typeof n.y === 'number'];
    NaN and the infinities are numbers and pass. *)
Definition passing (nodes : list (option (JsNum.t * JsNum.t)))
    : list (JsNum.t * JsNum.t) :=
  omap (λ n, n) nodes.

(** The finite ones among some coordinates. *)
Definition finiteOnes (l : list JsNum.t) : list Q :=
  omap (λ a, match a with JsNum.Fin q => Some q | _ => None end) l.

(** Coordinates that give the box a finite side: one of them at least
    is finite, and none is an infinity.  NaN does not count: every
    comparison with it is false, so the loop passes over it. *)
Definition boxed (l : list JsNum.t) : Prop :=
  finiteOnes l ≠ [] ∧ (JsNum.PInf ∉ l) ∧ (JsNum.NInf ∉ l).

(** [a] and [b] are the least and the greatest of the list. *)
Definition extremes (l : list Q) (a b : Q) : Prop :=
  a ∈ l ∧ b ∈ l ∧ ∀ x, x ∈ l → (a <= x <= b)%Q.

(** [if (x < m) m = x] and [if (x > m) m = x], along a list. *)
Definition lowest (m : JsNum.t) (l : list JsNum.t) : JsNum.t :=
  foldl (λ m x, if JsNum.lt x m then x else m) m l.

Definition highest (m : JsNum.t) (l : list JsNum.t) : JsNum.t :=
  foldl (λ m x, if JsNum.lt m x then x else m) m l.

(** The path nodes that resolve, as points. *)
Definition pathPoints (e : MapEngine) (pathNodes : list string) : list (option (Q * Q)) :=
  (λ i, (λ n, (n_x n, n_y n)) <$> getNode e i) <$> pathNodes.

(** ** From the floor files to the fitted route *)

(** No edge of a floor file has a negative weight. *)
Definition fileWeightsNonNegative (w : World) (floors : list FloorConf) : Prop :=
  ∀ c data r d,
    c ∈ floors → fetchJson w c = Some data → r ∈ fj_edges data →
    re_dist r = Some d → (0 <= d)%Q.

(** ** The fits the program makes *)


(** ** Dragging under rotation *)

(** [ctx.rotate(angle)], the angle in degrees: the point a canvas
    rotation takes a point to. *)
Definition rotate (rotation : R) (p : R * R) : R * R :=
  let rad := (rotation * PI / 180)%R in
  (p.1 * cos rad - p.2 * sin rad, p.1 * sin rad + p.2 * cos rad)%R.

(** Where [draw] puts a world point: the rotation about the centre of
    the canvas, applied to the panned and zoomed point. *)
Definition screenOf (width height rotation : R) (transform : Transform R) (p : R * R)
    : R * R :=
  let q := rotate rotation
             (t_x transform + t_k transform * p.1 - width / 2,
              t_y transform + t_k transform * p.2 - height / 2)%R in
  (width / 2 + q.1, height / 2 + q.2)%R.

(** ** panToNode, focusNode and switchFloor *)

(** [panToNode(node)]: the floor made current and the transform handed
    to the zoom transition, [None] for the early return. *)
Definition panToNode (canvasWidth canvasHeight : N) (transform : Transform JsNum.t)
    (node : option Node) : option (Z * Transform JsNum.t) :=
  n ← node;
  let targetScale := t_k transform in
  let targetScale :=
    if JsNum.lt targetScale (JsNum.Fin 0.5) then JsNum.Fin 0.8 else targetScale in
  let tX := JsNum.sub (JsNum.div (JsNum.ofN canvasWidth) (JsNum.Fin 2))
                      (JsNum.mul (JsNum.Fin (n_x n)) targetScale) in
  let tY := JsNum.sub (JsNum.div (JsNum.ofN canvasHeight) (JsNum.Fin 2))
                      (JsNum.mul (JsNum.Fin (n_y n)) targetScale) in
  Some (n_floorId n, scale (translate zoomIdentity tX tY) targetScale).

(** The argument of [focusNode]: an id, or a node object that may be
    missing. *)
Inductive NodeOrId :=
| ById (i : string)
| ByNode (n : option Node).

(** [focusNode(nodeOrId, zoomLevel)]: the transform handed to the zoom
    transition, [None] for the early return. *)
Definition focusNode (e : MapEngine) (canvasWidth canvasHeight : N)
    (nodeOrId : NodeOrId) (zoomLevel : JsNum.t) : option (Transform JsNum.t) :=
  node ← match nodeOrId with
         | ById i => getNode e i
         | ByNode n => n
         end;
  let k := zoomLevel in
  let x := JsNum.sub (JsNum.div (JsNum.ofN canvasWidth) (JsNum.Fin 2))
                     (JsNum.mul (JsNum.Fin (n_x node)) k) in
  let y := JsNum.sub (JsNum.div (JsNum.ofN canvasHeight) (JsNum.Fin 2))
                     (JsNum.mul (JsNum.Fin (n_y node)) k) in
  Some (scale (translate zoomIdentity x y) k).

(** [(img && img.width) ? img.width : 2000] *)
Definition baseWidthOf (imgs : gmap Z Image) (i : Z) : Q :=
  match imgs !! i with
  | Some img => if Qeq_bool (img_width img) 0 then 2000%Q else img_width img
  | None => 2000%Q
  end.

(** [switchFloor(floorId)]: the transform it sets.  An offset that is
    missing is [undefined], and gives NaN in the sum. *)
Definition switchFloor (e : MapEngine) (canvasWidth canvasHeight : N) (floorId : Z)
    : Transform JsNum.t :=
  let yOffset := match floorOffsets e !! floorId with
                 | Some y => JsNum.Fin y
                 | None => JsNum.NaN
                 end in
  let height := baseHeightOf (images e) floorId in
  let width := baseWidthOf (images e) floorId in
  let centerX := JsNum.div (JsNum.Fin width) (JsNum.Fin 2) in
  let centerY := JsNum.add yOffset (JsNum.div (JsNum.Fin height) (JsNum.Fin 2)) in
  let k := JsNum.Fin 0.5 in
  let tX := JsNum.sub (JsNum.div (JsNum.ofN canvasWidth) (JsNum.Fin 2))
                      (JsNum.mul centerX k) in
  let tY := JsNum.sub (JsNum.div (JsNum.ofN canvasHeight) (JsNum.Fin 2))
                      (JsNum.mul centerY k) in
  scale (translate zoomIdentity tX tY) k.

(** ** The controller: step clicks and the route list *)

(** [handleStepClick(node)] at the time [now] that [Date.now()] gives:
    the new [lastStepClickTime], and the node handed to [panToNode] and
    [highlightNode], [None] for the early returns. *)
Definition handleStepClick (lastStepClickTime : Z) (node : option Node) (now : Z)
    : Z * option Node :=
  match node with
  | None => (lastStepClickTime, None)
  | Some n =>
      if (now - lastStepClickTime <? 800)%Z then (lastStepClickTime, None)
      else (now, Some n)
  end.

(** A run of step clicks: the last click time, and the clicks that
    reached the engine, with their times. *)
Definition stepClicks (lastStepClickTime : Z) (clicks : list (option Node * Z))
    : Z * list (Z * Node) :=
  foldl (λ st click,
           match handleStepClick st.1 click.1 click.2 with
           | (last, Some n) => (last, st.2 ++ [(click.2, n)])
           | (last, None) => (last, st.2)
           end)
        (lastStepClickTime, []) clicks.

(** The title a step of the route list gets from a floor change. *)
Inductive StepTitle :=
| Arrived (floor : Z)
| MovingTo (floor : Z)
| OwnTitle.

Record Step := {
  s_nodeId : string;
  s_start : bool;
  s_end : bool;
  s_transfer : bool;
  s_title : StepTitle
}.

(** [pathIds[k] ? this.engine.getNode(pathIds[k]) : null] *)
Definition neighbourNode (e : MapEngine) (pathIds : list string) (k : option nat)
    : option Node :=
  i ← k ≫= (pathIds !!.);
  if String.eqb i "" then None else getNode e i.

(** One turn of the loop of [updateRouteList].  The outer [None] stands
    for the TypeError of reading a property of a node that did not
    resolve, which is thrown before the turn appends anything; the
    inner one for a step that is left out. *)
Definition routeStep (e : MapEngine) (pathIds : list string) (index : nat) (id : string)
    : option (option Step) :=
  node ← getNode e id;
  let nextNode := neighbourNode e pathIds (Some (S index)) in
  let prevNode := neighbourNode e pathIds (match index with O => None | S k => Some k end) in
  let isStart := (index =? 0)%nat in
  let isEnd := (index =? length pathIds - 1)%nat in
  let differs (o : option Node) :=
    match o with
    | Some m => negb (n_floorId m =? n_floorId node)%Z
    | None => false
    end in
  let isTransfer := differs prevNode || differs nextNode in
  if negb (str_truthy (n_name node)) && negb isStart && negb isEnd && negb isTransfer
  then Some None
  else
    Some (Some {| s_nodeId := n_id node;
                  s_start := isStart;
                  s_end := isEnd;
                  s_transfer := isTransfer;
                  s_title :=
                    if isTransfer then
                      if differs prevNode then Arrived (n_floorId node)
                      else match nextNode with
                           | Some m => MovingTo (n_floorId m)
                           | None => OwnTitle
                           end
                    else OwnTitle |}).

(** What the route list shows: the hint to choose a start and a
    destination, or steps. *)
Inductive RouteList :=
| Prompt
| Steps (steps : list Step).

(** The turns of [pathIds.forEach], each appending to the list at most
    one step.  A turn that throws ends the loop, and the call, with the
    steps appended before it on the list: the result is the steps
    appended, and whether the loop came to its end. *)
Fixpoint routeLoop (e : MapEngine) (pathIds : list string)
    (turns : list (nat * string)) (shown : list Step) : list Step * bool :=
  match turns with
  | [] => (shown, true)
  | (index, id) :: rest =>
      match routeStep e pathIds index id with
      | None => (shown, false)
      | Some None => routeLoop e pathIds rest shown
      | Some (Some s) => routeLoop e pathIds rest (shown ++ [s])
      end
  end.

(** [updateRouteList(pathIds)]: what the list, emptied first, shows
    after the call, and whether the call returned ([false]: it threw
    the TypeError). *)
Definition updateRouteList (e : MapEngine) (pathIds : list string) : RouteList * bool :=
  match pathIds with
  | [] => (Prompt, true)
  | _ =>
      let '(steps, returned) := routeLoop e pathIds (imap pair pathIds) [] in
      (Steps steps, returned)
  end.

(** * Lemmas and theorems *)

(** ** Graph building *)

Lemma cm_push_keys key n m :
  (cm_push key n m).*1 = if bool_decide (key ∈ m.*1) then m.*1 else m.*1 ++ [key].
Proof.
  induction m as [|[k ns] m IH]; csimpl.
  - done.
  - destruct (String.eqb k key) eqn:E.
    + apply String.eqb_eq in E as ->. csimpl.
      rewrite bool_decide_eq_true_2; [done | left].
    + apply String.eqb_neq in E. csimpl. rewrite IH.
      destruct (bool_decide (key ∈ m.*1)) eqn:D.
      * apply bool_decide_eq_true in D.
        rewrite bool_decide_eq_true_2; [done | by right].
      * apply bool_decide_eq_false in D.
        rewrite bool_decide_eq_false_2; [done |].
        intros [?|?]%elem_of_cons; congruence.
Qed.

Lemma cm_push_NoDup key n m : NoDup m.*1 → NoDup (cm_push key n m).*1.
Proof.
  intros Hnd. rewrite cm_push_keys. case_bool_decide; [done |].
  apply NoDup_app. split_and!; [done | | apply NoDup_singleton].
  intros x Hx ->%list_elem_of_singleton. done.
Qed.

Lemma cm_push_elem key n m k ns :
  NoDup m.*1 →
  (k, ns) ∈ cm_push key n m ↔
    (k ≠ key ∧ (k, ns) ∈ m) ∨
    (k = key ∧ ((∃ ns0, (key, ns0) ∈ m ∧ ns = ns0 ++ [n]) ∨ ((key ∉ m.*1) ∧ ns = [n]))).
Proof.
  induction m as [|[k' ns'] m IH]; csimpl; intros Hnd.
  - rewrite list_elem_of_singleton. split.
    + intros [= -> ->]. right. split; [done|]. right. split; [apply not_elem_of_nil | done].
    + intros [[_ []%elem_of_nil] | [-> [(? & []%elem_of_nil & _) | [_ ->]]]]. done.
  - apply NoDup_cons in Hnd as [Hk' Hnd]. specialize (IH Hnd).
    destruct (String.eqb k' key) eqn:E.
    + apply String.eqb_eq in E as ->. rewrite !elem_of_cons. split.
      * intros [[= -> ->] | Hin].
        -- right. split; [done|]. left. exists ns'. split; [by left | done].
        -- left. split; [| by right]. intros ->. apply Hk'.
           apply list_elem_of_fmap. by exists (key, ns).
      * intros [[Hne [[= ? ?] | Hin]] | [-> [(ns0 & Hin & ->) | [Hnot _]]]].
        -- congruence.
        -- by right.
        -- apply elem_of_cons in Hin as [[= <-] | Hin]; [by left |].
           exfalso. apply Hk'. apply list_elem_of_fmap. by exists (key, ns0).
        -- exfalso. apply Hnot. by left.
    + apply String.eqb_neq in E. rewrite elem_of_cons, IH. split.
      * intros [[= -> ->] | [[Hne Hin] | [-> Hc]]].
        -- left. split; [done | left].
        -- left. split; [done | by right].
        -- right. split; [done |]. destruct Hc as [(ns0 & Hin & ->) | [Hnot ->]].
           ++ left. exists ns0. split; [by right | done].
           ++ right. split; [| done]. csimpl.
              intros [?|?]%elem_of_cons; [congruence | done].
      * intros [[Hne Hin] | [-> [(ns0 & Hin & ->) | [Hnot ->]]]].
        -- apply elem_of_cons in Hin as [[= -> ->] | Hin]; [by left |].
           right. left. done.
        -- apply elem_of_cons in Hin as [[= ? ?] | Hin]; [congruence |].
           right. right. split; [done |]. left. by exists ns0.
        -- right. right. split; [done |]. right. split; [| done].
           intros Hin. apply Hnot. csimpl. by right.
Qed.

Lemma groupOf_snoc key nodes n :
  groupOf key (nodes ++ [n]) =
    groupOf key nodes ++ (if bool_decide (connectionKey n = Some key) then [n] else []).
Proof.
  unfold groupOf. rewrite filter_app. f_equal.
  case_bool_decide.
  - by rewrite filter_cons_True.
  - by rewrite filter_cons_False.
Qed.

(** The connection map after the grouping loop: one entry for each key
    that occurs, holding the nodes with that key in their order. *)
Lemma connectionMap_spec nodes :
  let m := foldl cm_add [] nodes in
  NoDup m.*1 ∧
  ∀ key ns, (key, ns) ∈ m ↔ ns = groupOf key nodes ∧ ns ≠ [].
Proof.
  induction nodes as [|n nodes IH] using rev_ind; simpl.
  - split; [constructor |]. intros key ns. split.
    + intros []%elem_of_nil.
    + intros [-> H]. done.
  - rewrite foldl_app. simpl. destruct IH as [Hnd IH]. unfold cm_add at 1 3.
    destruct (connectionKey n) as [kn|] eqn:Hk.
    + split; [by apply cm_push_NoDup |].
      intros key ns. rewrite cm_push_elem by done. rewrite groupOf_snoc, Hk.
      split.
      * intros [[Hne Hin] | [-> [(ns0 & Hin & ->) | [Hnot ->]]]].
        -- apply IH in Hin as [-> Hne']. rewrite bool_decide_eq_false_2 by congruence.
           by rewrite app_nil_r.
        -- apply IH in Hin as [-> _]. rewrite bool_decide_eq_true_2 by done.
           split; [done |]. by intros [? ?]%app_eq_nil.
        -- rewrite bool_decide_eq_true_2 by done.
           destruct (groupOf kn nodes) as [|a l] eqn:Hg; [done |].
           exfalso. apply Hnot. apply list_elem_of_fmap. exists (kn, a :: l).
           split; [done |]. apply IH. by rewrite Hg.
      * intros [-> Hne]. destruct (decide (key = kn)) as [-> | Hkk].
        -- right. split; [done |]. rewrite bool_decide_eq_true_2 by done.
           destruct (groupOf kn nodes) as [|a l] eqn:Hg.
           ++ right. split; [| done]. intros (kv & Hfst & Hin)%list_elem_of_fmap.
              destruct kv as [k' v']. simpl in Hfst. subst k'.
              apply IH in Hin as [-> Hv]. by rewrite Hg in Hv.
           ++ left. exists (a :: l). split; [| done]. apply IH. by rewrite Hg.
        -- left. split; [done |]. rewrite bool_decide_eq_false_2 in * by congruence.
           rewrite app_nil_r in *. by apply IH.
    + split; [done |]. intros key ns. rewrite IH, groupOf_snoc, Hk.
      rewrite bool_decide_eq_false_2 by congruence. by rewrite app_nil_r.
Qed.

Lemma insertIndexed_elem {A} (k : N) (v : A) l x :
  x ∈ insertIndexed k v l ↔ x = (k, v) ∨ x ∈ l.
Proof.
  induction l as [|[k' v'] l IH]; simpl.
  - rewrite list_elem_of_singleton, elem_of_nil. tauto.
  - destruct (k <? k')%N; rewrite !elem_of_cons; [done |].
    rewrite IH. tauto.
Qed.

Lemma Object_values_elem {A} (m : list (string * A)) v :
  v ∈ Object_values m ↔ ∃ k, (k, v) ∈ m.
Proof.
  unfold Object_values. rewrite elem_of_app.
  assert (Hidx : ∀ (acc : list (N * A)),
    v ∈ (foldl (λ acc kv, match arrayIndexOf kv.1 with
                           | Some i => insertIndexed i kv.2 acc
                           | None => acc
                           end) acc m).*2
    ↔ v ∈ acc.*2 ∨ ∃ k, (k, v) ∈ m ∧ is_Some (arrayIndexOf k)).
  { induction m as [|[k a] m IH]; intros acc; simpl.
    - split; [by left | intros [? | (? & []%elem_of_nil & _)]; done].
    - rewrite IH. destruct (arrayIndexOf k) as [i|] eqn:Hi.
      + rewrite !list_elem_of_fmap. split.
        * intros [([i' v'] & -> & Hin) | (k' & Hin & Hs)].
          -- apply insertIndexed_elem in Hin as [[= -> ->] | Hin].
             ++ right. exists k. split; [left | by rewrite Hi].
             ++ left. by exists (i', v').
          -- right. exists k'. split; [by right | done].
        * intros [([i' v'] & -> & Hin) | (k' & Hin & Hs)].
          -- left. exists (i', v'). split; [done |]. apply insertIndexed_elem. by right.
          -- apply elem_of_cons in Hin as [[= -> ->] | Hin].
             ++ left. exists (i, a). split; [done |]. apply insertIndexed_elem. by left.
             ++ right. by exists k'.
      + split.
        * intros [? | (k' & Hin & Hs)]; [by left |]. right. exists k'. split; [by right | done].
        * intros [? | (k' & Hin & Hs)]; [by left |].
          apply elem_of_cons in Hin as [[= -> ->] | Hin].
          -- rewrite Hi in Hs. by destruct Hs.
          -- right. by exists k'. }
  rewrite Hidx. simpl. rewrite list_elem_of_fmap. split.
  - intros [[[]%elem_of_nil | (k & Hin & _)] | ([k v'] & -> & Hin)].
    + by exists k.
    + apply list_elem_of_filter in Hin as [_ Hin]. by exists k.
  - intros [k Hin]. destruct (arrayIndexOf k) as [i|] eqn:Hi.
    + left. right. exists k. split; [done | by rewrite Hi].
    + right. exists (k, v). split; [done |]. apply list_elem_of_filter. done.
Qed.

Lemma cliquePairs_elem {A} (l : list A) a b :
  (a, b) ∈ cliquePairs l ↔ ∃ l1 l2 l3, l = l1 ++ a :: l2 ++ b :: l3.
Proof.
  induction l as [|c l IH]; simpl.
  - split; [intros []%elem_of_nil | intros (l1 & l2 & l3 & H)].
    by destruct l1.
  - rewrite elem_of_app, IH, list_elem_of_fmap. split.
    + intros [(y & [= -> ->] & Hin) | (l1 & l2 & l3 & ->)].
      * apply list_elem_of_split in Hin as (l2 & l3 & ->). by exists [], l2, l3.
      * by exists (c :: l1), l2, l3.
    + intros (l1 & l2 & l3 & H). destruct l1 as [|c' l1]; simplify_eq/=.
      * left. exists b. split; [done |]. apply elem_of_app. right. left.
      * right. by exists l1, l2, l3.
Qed.

Lemma transferEdges_elem cfg nodes edge :
  edge ∈ transferEdges cfg nodes ↔
  ∃ key l1 n1 l2 n2 l3,
    groupOf key nodes = l1 ++ n1 :: l2 ++ n2 :: l3 ∧ edge = transferEdge cfg n1 n2.
Proof.
  unfold transferEdges. rewrite list_elem_of_bind.
  destruct (connectionMap_spec nodes) as [_ Hcm]. simpl in Hcm.
  split.
  - intros (ns & Hin & Hv). apply Object_values_elem in Hv as [key Hk].
    apply Hcm in Hk as [-> _]. unfold groupEdges in Hin.
    destruct (1 <? length (groupOf key nodes))%nat; [| by apply elem_of_nil in Hin].
    apply list_elem_of_fmap in Hin as ([a b] & -> & Hp).
    apply cliquePairs_elem in Hp as (l1 & l2 & l3 & Hp).
    by exists key, l1, a, l2, b, l3.
  - intros (key & l1 & n1 & l2 & n2 & l3 & Hg & ->).
    exists (groupOf key nodes). split.
    + unfold groupEdges. rewrite Hg.
      replace (1 <? length (l1 ++ n1 :: l2 ++ n2 :: l3))%nat with true.
      * apply list_elem_of_fmap. exists (n1, n2). split; [done |].
        apply cliquePairs_elem. by exists l1, l2, l3.
      * symmetry. apply Nat.ltb_lt. rewrite length_app. simpl.
        rewrite length_app. simpl. lia.
    + apply Object_values_elem. exists key. apply Hcm. split; [done |].
      rewrite Hg. by destruct l1.
Qed.

Lemma two_positions {A} (l : list A) i j a b :
  l !! i = Some a → l !! j = Some b → i < j →
  ∃ l1 l2 l3, l = l1 ++ a :: l2 ++ b :: l3.
Proof.
  intros Hi Hj Hlt.
  apply list_elem_of_split_length in Hi as (l1 & r & -> & ->).
  rewrite lookup_app_r in Hj by lia.
  replace (j - length l1) with (S (j - length l1 - 1)) in Hj by lia.
  simpl in Hj. apply list_elem_of_split_length in Hj as (l2 & l3 & -> & _).
  by exists l1, l2, l3.
Qed.

Lemma groupOf_positions key nodes l1 n1 l2 n2 l3 :
  nodes = l1 ++ n1 :: l2 ++ n2 :: l3 →
  connectionKey n1 = Some key → connectionKey n2 = Some key →
  groupOf key nodes = groupOf key l1 ++ n1 :: groupOf key l2 ++ n2 :: groupOf key l3.
Proof.
  intros -> H1 H2. unfold groupOf.
  rewrite filter_app, filter_cons_True by done.
  by rewrite filter_app, filter_cons_True by done.
Qed.

Lemma adj_push_has_new k a m : adjHas (adj_push k a m) k a.
Proof.
  unfold adjHas, adj_push. eexists. rewrite lookup_insert_eq. split; [done |].
  apply elem_of_app. right. left.
Qed.

Lemma adj_push_has_old k a m k' a' :
  adjHas m k' a' → adjHas (adj_push k a m) k' a'.
Proof.
  intros (l & Hl & Hin). unfold adjHas, adj_push.
  destruct (decide (k = k')) as [-> | Hne].
  - eexists. rewrite lookup_insert_eq. split; [done |]. rewrite Hl. simpl.
    apply elem_of_app. by left.
  - exists l. by rewrite lookup_insert_ne.
Qed.

Lemma buildAdj_symmetric nodes edges edge :
  edge ∈ edges →
  adjHas (buildAdj nodes edges) (e_from edge) (adjEntry (e_to edge) edge) ∧
  adjHas (buildAdj nodes edges) (e_to edge) (adjEntry (e_from edge) edge).
Proof.
  unfold buildAdj.
  generalize (foldl (λ (m : gmap string (list AdjEntry)) n, <[n_id n := []]> m) ∅ nodes).
  induction edges as [|e' edges IH] using rev_ind; intros m0 Hin.
  - by apply elem_of_nil in Hin.
  - rewrite foldl_app. simpl. apply elem_of_app in Hin as [Hin | ->%list_elem_of_singleton].
    + destruct (IH m0 Hin) as [H1 H2]. unfold addAdj.
      split; by do 2 apply adj_push_has_old.
    + unfold addAdj. split.
      * apply adj_push_has_old, adj_push_has_new.
      * apply adj_push_has_new.
Qed.

Lemma addNode_inv floors c xCrop yOffset nodes ids edges r :
  c ∈ floors →
  LoadInv floors nodes ids edges →
  LoadInv floors (addNode (fc_id c) xCrop yOffset (nodes, ids) r).1
                 (addNode (fc_id c) xCrop yOffset (nodes, ids) r).2 edges.
Proof.
  intros Hc [Hids Hnodes Hedges Hfl]. simpl. split.
  - intros i k. rewrite lookup_insert. case_decide.
    + intros [= <-]. subst i. exists (mkNode (fc_id c) xCrop yOffset r).
      split; [| done]. rewrite lookup_app_r by lia. by rewrite Nat.sub_diag.
    + intros Hk. destruct (Hids _ _ Hk) as (n & Hn & Hid).
      exists n. split; [| done]. by apply lookup_app_l_Some.
  - intros n [Hin | ->%list_elem_of_singleton]%elem_of_app.
    + rewrite lookup_insert. case_decide; [done | by apply Hnodes].
    + by rewrite lookup_insert_eq.
  - intros edge Hin. destruct (Hedges _ Hin) as [H1 H2].
    rewrite !lookup_insert. split; case_decide; done.
  - intros n [Hin | ->%list_elem_of_singleton]%elem_of_app; [by apply Hfl |].
    by exists c.
Qed.

Lemma addNodes_inv floors c xCrop yOffset rs nodes ids edges :
  c ∈ floors →
  LoadInv floors nodes ids edges →
  LoadInv floors (foldl (addNode (fc_id c) xCrop yOffset) (nodes, ids) rs).1
                 (foldl (addNode (fc_id c) xCrop yOffset) (nodes, ids) rs).2 edges.
Proof.
  intros Hc. revert nodes ids. induction rs as [|r rs IH]; intros nodes ids Hinv; [done |].
  pose proof (addNode_inv floors c xCrop yOffset nodes ids edges r Hc Hinv) as H.
  simpl in *. by apply IH.
Qed.

Lemma addEdges_inv floors floor nodes ids rs edges :
  LoadInv floors nodes ids edges →
  LoadInv floors nodes ids (foldl (addEdge floor ids) edges rs).
Proof.
  revert edges. induction rs as [|r rs IH]; intros edges Hinv; [done |].
  simpl. apply IH. unfold addEdge.
  destruct (bool_decide (is_Some (ids !! globalId floor (re_from r)))) eqn:E1;
    [| done].
  destruct (bool_decide (is_Some (ids !! globalId floor (re_to r)))) eqn:E2;
    [| done].
  simpl. apply bool_decide_eq_true in E1, E2.
  destruct Hinv as [Hids Hnodes Hedges Hfl]. split; [done | done | | done].
  intros edge [Hin | ->%list_elem_of_singleton]%elem_of_app; [by apply Hedges |].
  done.
Qed.

Lemma loadFloor_inv floors w offs crops c nodes ids edges :
  c ∈ floors →
  LoadInv floors nodes ids edges →
  let r := loadFloor w offs crops (nodes, ids, edges) c in
  LoadInv floors r.1.1 r.1.2 r.2.
Proof.
  intros Hc Hinv. unfold loadFloor. destruct (fetchJson w c) as [data|]; [| done].
  pose proof (addNodes_inv floors c (default 0%Q (crops !! fc_id c))
                (default 0%Q (offs !! fc_id c)) (fj_nodes data) nodes ids edges Hc Hinv) as H.
  destruct (foldl _ (nodes, ids) (fj_nodes data)) as [nodes' ids'].
  simpl in *. by apply addEdges_inv.
Qed.

Lemma loadFloors_inv floors w offs crops cs acc :
  cs ⊆ floors →
  LoadInv floors acc.1.1 acc.1.2 acc.2 →
  let r := foldl (loadFloor w offs crops) acc cs in
  LoadInv floors r.1.1 r.1.2 r.2.
Proof.
  revert acc. induction cs as [|c cs IH]; intros acc Hsub Hinv; [done |].
  simpl. apply IH.
  - intros x Hx. apply Hsub. by right.
  - destruct acc as [[nodes ids] edges]. apply loadFloor_inv; [| done].
    apply Hsub. left.
Qed.

Lemma LoadInv_empty floors : LoadInv floors [] ∅ [].
Proof.
  split.
  - intros i k. by rewrite lookup_empty.
  - intros n []%elem_of_nil.
  - intros n []%elem_of_nil.
  - intros n []%elem_of_nil.
Qed.

Lemma placeNode_id vis n : n_id (placeNode vis n) = n_id n.
Proof. unfold placeNode. by destruct (vis !! n_floorId n). Qed.

Lemma placeNode_floorId vis n : n_floorId (placeNode vis n) = n_floorId n.
Proof. unfold placeNode. by destruct (vis !! n_floorId n). Qed.

Lemma placeNode_type vis n : n_type (placeNode vis n) = n_type n.
Proof. unfold placeNode. by destruct (vis !! n_floorId n). Qed.

Lemma placeNode_connectionKey vis n : connectionKey (placeNode vis n) = connectionKey n.
Proof. unfold placeNode, connectionKey. by destruct (vis !! n_floorId n). Qed.

(** The engine that [loadAllData] leaves: the nodes read, laid out; the
    edges read, followed by the transfer edges; the adjacency cache of
    all of them. *)
Lemma loadAllData_shape cfg w e0 floors :
  ∃ nodes ids edges0 vis,
    LoadInv floors nodes ids edges0 ∧
    globalNodes (loadAllData cfg w e0 floors) = placeNode vis <$> nodes ∧
    idMap (loadAllData cfg w e0 floors) = ids ∧
    globalEdges (loadAllData cfg w e0 floors) = edges0 ++ transferEdges cfg nodes ∧
    adj (loadAllData cfg w e0 floors)
      = Some (buildAdj nodes (edges0 ++ transferEdges cfg nodes)) ∧
    floorVisuals (loadAllData cfg w e0 floors) = vis ∧
    floorsConfig (loadAllData cfg w e0 floors) = floors.
Proof.
  unfold loadAllData.
  destruct (foldl (layoutStep _ _) _ _) as [[offs crops] currentY].
  pose proof (loadFloors_inv floors w offs crops floors ([], ∅, [])
                (λ x H, H) (LoadInv_empty floors)) as Hinv.
  destruct (foldl (loadFloor w offs crops) _ floors) as [[nodes ids] edges0].
  simpl in Hinv. unfold updateFloorLayout.
  destruct (layoutVisuals _ _ _) as [vis y] eqn:Hvis.
  exists nodes, ids, edges0, vis. simpl. done.
Qed.

Lemma getNode_loaded nodes ids vis e i :
  (∀ i k, ids !! i = Some k → ∃ n, nodes !! k = Some n ∧ n_id n = i) →
  globalNodes e = placeNode vis <$> nodes → idMap e = ids →
  is_Some (ids !! i) → ∃ n, getNode e i = Some n ∧ n_id n = i.
Proof.
  intros Hids Hn Hi [k Hk]. destruct (Hids _ _ Hk) as (n & Hnk & Hid).
  exists (placeNode vis n). unfold getNode. rewrite Hi, Hk. simpl.
  rewrite Hn, list_lookup_fmap, Hnk. simpl. by rewrite placeNode_id.
Qed.

Lemma transferEdge_endpoints cfg nodes edge :
  edge ∈ transferEdges cfg nodes →
  ∃ n1 n2, n1 ∈ nodes ∧ n2 ∈ nodes ∧ edge = transferEdge cfg n1 n2.
Proof.
  intros (key & l1 & n1 & l2 & n2 & l3 & Hg & ->)%transferEdges_elem.
  assert (Hsub : ∀ n, n ∈ groupOf key nodes → n ∈ nodes).
  { intros n Hn. unfold groupOf in Hn. by apply list_elem_of_filter in Hn as [_ ?]. }
  exists n1, n2. split_and!; [| | done]; apply Hsub; rewrite Hg.
  - apply elem_of_app. right. left.
  - apply elem_of_app. right. right. apply elem_of_app. right. left.
Qed.

Lemma findFloor_spec cfg i :
  match findFloor cfg i with
  | Some f => fc_id f = i ∧ i ∈ (fc_id <$> FLOORS cfg)
  | None => i ∉ (fc_id <$> FLOORS cfg)
  end.
Proof.
  unfold findFloor. destruct (find _ (FLOORS cfg)) as [f|] eqn:E.
  - apply find_some in E as [Hin E]. apply Z.eqb_eq in E. split; [done |].
    apply list_elem_of_fmap. exists f. split; [done |]. by apply list_elem_of_In.
  - intros (c & -> & Hc)%list_elem_of_fmap. apply list_elem_of_In in Hc.
    apply (find_none _ _ E c) in Hc. simpl in Hc. by rewrite Z.eqb_refl in Hc.
Qed.

Lemma floorDistOf_spec cfg n1 n2 :
  floorDistOf cfg n1 n2 = transferFloorDistance cfg n1 n2.
Proof.
  unfold floorDistOf, transferFloorDistance.
  pose proof (findFloor_spec cfg (n_floorId n1)) as H1.
  pose proof (findFloor_spec cfg (n_floorId n2)) as H2.
  destruct (findFloor cfg (n_floorId n1)) as [f1|];
    destruct (findFloor cfg (n_floorId n2)) as [f2|].
  - destruct H1 as [-> ?], H2 as [-> ?]. by rewrite bool_decide_eq_true_2.
  - rewrite bool_decide_eq_false_2; [done | by intros [_ ?]].
  - rewrite bool_decide_eq_false_2; [done | by intros [? _]].
  - rewrite bool_decide_eq_false_2; [done | by intros [? _]].
Qed.

(** C4.  In the graph that [loadAllData(AppConfig.FLOORS)] builds, the
    call the controller makes, any two nodes that share a connection
    key are joined by a transfer edge (so a key with N nodes gives a
    clique), of weight |floorIdA - floorIdB| * 150 and of type
    elevator, stairs or transfer by the types of its two ends; the
    adjacency cache holds the edge in both directions.  Scenario A
    gives exactly one transfer edge, of type stairs and weight 150. *)
Theorem buildGlobalGraph_transfer_clique cfg w e0 i j n1 n2 key :
  globalNodes (loadAllData cfg w e0 (FLOORS cfg)) !! i = Some n1 →
  globalNodes (loadAllData cfg w e0 (FLOORS cfg)) !! j = Some n2 →
  i < j →
  connectionKey n1 = Some key →
  connectionKey n2 = Some key →
  (expectedTransferEdge (Z.abs (n_floorId n1 - n_floorId n2)) n1 n2
     ∈ globalEdges (loadAllData cfg w e0 (FLOORS cfg)) ∧
   ∃ g, adj (loadAllData cfg w e0 (FLOORS cfg)) = Some g ∧
        adjHas g (n_id n1)
          (adjEntry (n_id n2)
             (expectedTransferEdge (Z.abs (n_floorId n1 - n_floorId n2)) n1 n2)) ∧
        adjHas g (n_id n2)
          (adjEntry (n_id n1)
             (expectedTransferEdge (Z.abs (n_floorId n1 - n_floorId n2)) n1 n2))) ∧
  filter (λ e, is_Some (e_type e)) (globalEdges scenarioA)
    = [ {| e_from := "1_s"; e_to := "2_s"; e_dist := 150;
           e_type := Some "stairs"; e_floorId := None |} ].
Proof.
  intros Hi Hj Hlt Hk1 Hk2. split; [| by vm_compute].
  destruct (loadAllData_shape cfg w e0 (FLOORS cfg))
    as (nodes & ids & edges0 & vis & Hinv & Hn & _ & He & Ha & _).
  rewrite Hn, list_lookup_fmap in Hi, Hj.
  destruct (nodes !! i) as [m1|] eqn:Hm1; [| done].
  destruct (nodes !! j) as [m2|] eqn:Hm2; [| done].
  simpl in Hi, Hj. injection Hi as <-. injection Hj as <-.
  rewrite placeNode_connectionKey in Hk1, Hk2.
  assert (Hlisted : ∀ k m, nodes !! k = Some m → n_floorId m ∈ (fc_id <$> FLOORS cfg)).
  { intros k m Hm.
    destruct (li_floors _ _ _ _ Hinv m (list_elem_of_lookup_2 _ _ _ Hm)) as (c & Hc & ->).
    apply list_elem_of_fmap. by exists c. }
  assert (Hedge : expectedTransferEdge
                    (Z.abs (n_floorId (placeNode vis m1) - n_floorId (placeNode vis m2)))
                    (placeNode vis m1) (placeNode vis m2)
                  = transferEdge cfg m1 m2).
  { unfold expectedTransferEdge, transferEdge, transferTypeOf.
    rewrite floorDistOf_spec. unfold transferFloorDistance.
    rewrite bool_decide_eq_true_2 by (split; eauto).
    by rewrite !placeNode_id, !placeNode_floorId, !placeNode_type. }
  rewrite Hedge.
  assert (Hin : transferEdge cfg m1 m2 ∈ edges0 ++ transferEdges cfg nodes).
  { apply elem_of_app. right. apply transferEdges_elem.
    destruct (two_positions nodes i j m1 m2 Hm1 Hm2 Hlt) as (l1 & l2 & l3 & Hsplit).
    exists key, (groupOf key l1), m1, (groupOf key l2), m2, (groupOf key l3).
    split; [| done]. by apply groupOf_positions. }
  split; [by rewrite He |].
  eexists. split; [exact Ha |].
  rewrite !placeNode_id.
  apply (buildAdj_symmetric nodes) in Hin as [H1 H2]. done.
Qed.

Lemma buildGlobalGraph_transfer_clique_witness :
  expectedTransferEdge 1
    (placeNode (floorVisuals scenarioA) (mkNode 1 0 2400 stairsA))
    (placeNode (floorVisuals scenarioA) (mkNode 2 0 1200 stairsA))
  ∈ globalEdges scenarioA.
Proof.
  refine (proj1 (proj1 (buildGlobalGraph_transfer_clique
            scenarioA_config scenarioA_world loadStart
            0 1 _ _ "A" _ _ _ _ _))).
  - by vm_compute.
  - by vm_compute.
  - lia.
  - reflexivity.
  - reflexivity.
Defined.

(** C5.  In the graph that [loadAllData] builds, both endpoints of every
    stored edge resolve in the node map, and the adjacency cache holds
    every stored edge in both directions; an edge with an endpoint that
    is not in the node map is not stored. *)
Theorem built_graph_edges_resolve_and_adjacency_symmetric cfg w e0 floors :
  (∀ edge, edge ∈ globalEdges (loadAllData cfg w e0 floors) →
     (is_Some (getNode (loadAllData cfg w e0 floors) (e_from edge)) ∧
      is_Some (getNode (loadAllData cfg w e0 floors) (e_to edge))) ∧
     ∃ g, adj (loadAllData cfg w e0 floors) = Some g ∧
          adjHas g (e_from edge)
            {| a_to := e_to edge; a_dist := e_dist edge; a_type := e_type edge;
               a_barrierFreeBlocked := None |} ∧
          adjHas g (e_to edge)
            {| a_to := e_from edge; a_dist := e_dist edge; a_type := e_type edge;
               a_barrierFreeBlocked := None |}) ∧
  (∀ floor ids edges r,
     ids !! globalId floor (re_from r) = None ∨ ids !! globalId floor (re_to r) = None →
     addEdge floor ids edges r = edges).
Proof.
  split.
  - intros edge Hin.
    destruct (loadAllData_shape cfg w e0 floors)
      as (nodes & ids & edges0 & vis & Hinv & Hn & Hi & He & Ha & _).
    rewrite He in Hin. split.
    + assert (is_Some (ids !! e_from edge) ∧ is_Some (ids !! e_to edge)) as [H1 H2].
      { apply elem_of_app in Hin as [Hin | Hin].
        - by apply (li_edges _ _ _ _ Hinv).
        - apply transferEdge_endpoints in Hin as (n1 & n2 & Hn1 & Hn2 & ->).
          split; by apply (li_nodes _ _ _ _ Hinv). }
      destruct (getNode_loaded nodes ids vis _ (e_from edge) (li_ids _ _ _ _ Hinv) Hn Hi H1)
        as (m1 & -> & _).
      destruct (getNode_loaded nodes ids vis _ (e_to edge) (li_ids _ _ _ _ Hinv) Hn Hi H2)
        as (m2 & -> & _).
      done.
    + eexists. split; [exact Ha |]. by apply (buildAdj_symmetric nodes) in Hin.
  - intros floor ids edges r Hnone. unfold addEdge.
    destruct Hnone as [-> | ->]; simpl; [done |].
    by destruct (bool_decide _).
Qed.

(** ** Floor layout *)

Lemma intermediateFloors_spec cfg e pathNodes i :
  i ∈ intermediateFloors cfg e pathNodes ↔ isIntermediateFloor cfg e pathNodes i.
Proof.
  unfold intermediateFloors, isIntermediateFloor, spansFloors. split.
  - destruct (head pathNodes) as [s|] eqn:Hs; [| by intros []%elem_of_nil].
    destruct (last pathNodes) as [t|] eqn:Ht; [| by intros []%elem_of_nil].
    destruct (getNode e s) as [startN|] eqn:Hgs; [| by intros []%elem_of_nil].
    destruct (getNode e t) as [endN|] eqn:Hgt; [| by intros []%elem_of_nil].
    case_bool_decide as Hne; [| by intros []%elem_of_nil].
    intros [Hlt Hin]%list_elem_of_filter. split; [done |].
    eexists _, _. split; [| exact Hlt]. by exists s, t, startN, endN.
  - intros (Hin & lo & hi & (s & t & startN & endN & -> & -> & -> & -> & Hne & -> & ->) & Hlt).
    rewrite bool_decide_eq_true_2 by done. by apply list_elem_of_filter.
Qed.

Lemma insertFloor_perm c l : insertFloor c l ≡ₚ c :: l.
Proof.
  induction l as [|d l IH]; simpl; [done |].
  destruct (fc_id c <? fc_id d)%Z; [| done].
  rewrite IH. apply Permutation_swap.
Qed.

Lemma sortFloors_perm l : sortFloors l ≡ₚ l.
Proof.
  induction l as [|c l IH]; simpl; [done |].
  by rewrite insertFloor_perm, IH.
Qed.

Lemma floorStyle_scale gap inter i :
  (floorStyle gap inter i).1.1 = if bool_decide (i ∈ inter) then 0.6%Q else 1%Q.
Proof. unfold floorStyle. by case_bool_decide. Qed.

Lemma floorStyle_opacity gap inter i :
  (floorStyle gap inter i).1.2 = if bool_decide (i ∈ inter) then 0.3%Q else 1%Q.
Proof. unfold floorStyle. by case_bool_decide. Qed.

Lemma floorStyle_gap gap inter i :
  (floorStyle gap inter i).2 = if bool_decide (i ∈ inter) then (gap * 0.1)%Q else gap.
Proof. unfold floorStyle. by case_bool_decide. Qed.

Lemma stackStep_eq gap imgs inter vis y c :
  stackStep gap imgs inter (vis, y) c =
    (<[fc_id c := {| fv_scale := (floorStyle gap inter (fc_id c)).1.1;
                     fv_opacity := (floorStyle gap inter (fc_id c)).1.2;
                     fv_y := y |}]> vis,
     (y + (baseHeightOf imgs (fc_id c) * (floorStyle gap inter (fc_id c)).1.1
           + (floorStyle gap inter (fc_id c)).2))%Q).
Proof. unfold stackStep. by destruct (floorStyle gap inter (fc_id c)) as [[? ?] ?]. Qed.

(** After the stacking loop every stacked floor has the style of its id. *)
Lemma stack_styles gap imgs inter l acc c :
  c ∈ l →
  ∃ v, (foldl (stackStep gap imgs inter) acc l).1 !! fc_id c = Some v ∧
       fv_scale v = (floorStyle gap inter (fc_id c)).1.1 ∧
       fv_opacity v = (floorStyle gap inter (fc_id c)).1.2.
Proof.
  revert acc. induction l as [|d l IH] using rev_ind; intros acc Hin.
  - by apply elem_of_nil in Hin.
  - rewrite foldl_app. simpl.
    destruct (foldl (stackStep gap imgs inter) acc l) as [vis y] eqn:E.
    rewrite stackStep_eq. simpl.
    destruct (decide (fc_id d = fc_id c)) as [Heq | Hne].
    + rewrite Heq, lookup_insert_eq. eexists. split; [done |]. done.
    + rewrite lookup_insert_ne by done.
      apply elem_of_app in Hin as [Hin | ->%list_elem_of_singleton]; [| done].
      specialize (IH acc Hin). by rewrite E in IH.
Qed.

Lemma stack_untouched gap imgs inter l acc i :
  i ∉ (fc_id <$> l) →
  (foldl (stackStep gap imgs inter) acc l).1 !! i = acc.1 !! i.
Proof.
  revert acc. induction l as [|d l IH]; intros acc Hin; [done |].
  simpl. rewrite IH.
  - destruct acc as [vis y]. rewrite stackStep_eq. simpl.
    rewrite lookup_insert_ne; [done |]. intros <-. apply Hin. csimpl. left.
  - intros H. apply Hin. csimpl. by right.
Qed.

(** Two floors that follow each other in the stack. *)
Lemma stack_offsets gap imgs inter pre c1 c2 post acc :
  NoDup (fc_id <$> (pre ++ c1 :: c2 :: post)) →
  ∃ v1 v2,
    (foldl (stackStep gap imgs inter) acc (pre ++ c1 :: c2 :: post)).1 !! fc_id c1 = Some v1 ∧
    (foldl (stackStep gap imgs inter) acc (pre ++ c1 :: c2 :: post)).1 !! fc_id c2 = Some v2 ∧
    fv_scale v1 = (floorStyle gap inter (fc_id c1)).1.1 ∧
    fv_y v2 = (fv_y v1 + (baseHeightOf imgs (fc_id c1) * fv_scale v1
                          + (floorStyle gap inter (fc_id c1)).2))%Q.
Proof.
  intros Hnd. rewrite foldl_app. simpl.
  destruct (foldl (stackStep gap imgs inter) acc pre) as [vis y].
  rewrite !stackStep_eq.
  rewrite fmap_app in Hnd. apply NoDup_app in Hnd as (_ & _ & Hnd).
  csimpl in Hnd. apply NoDup_cons in Hnd as [H1 Hnd].
  apply NoDup_cons in Hnd as [H2 _].
  assert (fc_id c1 ≠ fc_id c2) by (intros Heq; apply H1; rewrite Heq; left).
  assert (fc_id c1 ∉ (fc_id <$> post)) by (intros ?; apply H1; by right).
  rewrite !stack_untouched by done. simpl.
  rewrite lookup_insert_ne by done. rewrite !lookup_insert_eq.
  eexists _, _. split_and!; done.
Qed.

Lemma updateFloorLayout_visuals cfg e pathNodes :
  floorVisuals (updateFloorLayout cfg e pathNodes) = (layoutVisuals cfg e pathNodes).1.
Proof. unfold updateFloorLayout. by destruct (layoutVisuals cfg e pathNodes). Qed.

Lemma updateFloorLayout_nodes cfg e pathNodes :
  globalNodes (updateFloorLayout cfg e pathNodes)
    = placeNode (layoutVisuals cfg e pathNodes).1 <$> globalNodes e.
Proof. unfold updateFloorLayout. by destruct (layoutVisuals cfg e pathNodes). Qed.

Lemma placeNode_coordinates vis n v :
  vis !! n_floorId (placeNode vis n) = Some v →
  n_y (placeNode vis n) = (n_localY (placeNode vis n) * fv_scale v + fv_y v)%Q ∧
  n_x (placeNode vis n) = (n_baseX (placeNode vis n) * fv_scale v)%Q.
Proof.
  unfold placeNode. destruct (vis !! n_floorId n) as [v'|] eqn:E; simpl.
  - rewrite E. by intros [= ->].
  - by rewrite E.
Qed.

Lemma default_visuals_lookup (l : list FloorConf) f :
  f ∈ l →
  foldl (λ (m : gmap Z FloorVisual) f, <[fc_id f := defaultVisual]> m) ∅ l !! fc_id f
    = Some defaultVisual.
Proof.
  induction l as [|d l IH] using rev_ind; [by intros []%elem_of_nil |].
  rewrite foldl_app. simpl. intros Hin.
  destruct (decide (fc_id d = fc_id f)) as [-> | Hne].
  - by rewrite lookup_insert_eq.
  - rewrite lookup_insert_ne by done.
    apply elem_of_app in Hin as [Hin | ->%list_elem_of_singleton]; [by apply IH | done].
Qed.

(** C8, as the code has it.  After [updateFloorLayout] has run for a
    path: a stacked floor of [AppConfig.FLOORS] that lies strictly
    between the floors of the first and the last node of the path
    (when both resolve, on floors that differ) has scale 0.6 and
    opacity 0.3 and is followed by a gap of 0.1 times the default gap;
    every other floor has scale 1, opacity 1 and the default gap, and
    no floor is in between when the path is empty; every node keeps its
    place in the list, its id, its floor, its localY and its baseX, and
    is moved to y = localY * scale + yOffset and x = baseX * scale for
    the visual of its floor. *)
Theorem updateFloorLayout_styles_gaps_coordinates cfg e pathNodes :
  (∀ c, c ∈ floorsConfig e →
     ∃ v, floorVisuals (updateFloorLayout cfg e pathNodes) !! fc_id c = Some v ∧
          (isIntermediateFloor cfg e pathNodes (fc_id c) →
             fv_scale v = 0.6%Q ∧ fv_opacity v = 0.3%Q) ∧
          (¬ isIntermediateFloor cfg e pathNodes (fc_id c) →
             fv_scale v = 1%Q ∧ fv_opacity v = 1%Q)) ∧
  (∀ f, f ∈ FLOORS cfg → fc_id f ∉ (fc_id <$> floorsConfig e) →
     floorVisuals (updateFloorLayout cfg e pathNodes) !! fc_id f = Some defaultVisual) ∧
  (∀ pre c1 c2 post,
     NoDup (fc_id <$> floorsConfig e) →
     sortFloors (floorsConfig e) = pre ++ c1 :: c2 :: post →
     ∃ v1 v2,
       floorVisuals (updateFloorLayout cfg e pathNodes) !! fc_id c1 = Some v1 ∧
       floorVisuals (updateFloorLayout cfg e pathNodes) !! fc_id c2 = Some v2 ∧
       (isIntermediateFloor cfg e pathNodes (fc_id c1) →
          fv_y v2 = (fv_y v1 + (baseHeightOf (images e) (fc_id c1) * fv_scale v1
                                + defaultGapOf cfg * 0.1))%Q) ∧
       (¬ isIntermediateFloor cfg e pathNodes (fc_id c1) →
          fv_y v2 = (fv_y v1 + (baseHeightOf (images e) (fc_id c1) * fv_scale v1
                                + defaultGapOf cfg))%Q)) ∧
  (∀ i, ¬ isIntermediateFloor cfg e [] i) ∧
  length (globalNodes (updateFloorLayout cfg e pathNodes)) = length (globalNodes e) ∧
  (∀ k n, globalNodes e !! k = Some n →
     ∃ n', globalNodes (updateFloorLayout cfg e pathNodes) !! k = Some n' ∧
           n_id n' = n_id n ∧ n_floorId n' = n_floorId n ∧
           n_localY n' = n_localY n ∧ n_baseX n' = n_baseX n ∧
           match floorVisuals (updateFloorLayout cfg e pathNodes) !! n_floorId n with
           | Some v => n_y n' = (n_localY n * fv_scale v + fv_y v)%Q ∧
                       n_x n' = (n_baseX n * fv_scale v)%Q
           | None => n_y n' = n_y n ∧ n_x n' = n_x n
           end).
Proof.
  rewrite updateFloorLayout_visuals, updateFloorLayout_nodes.
  unfold layoutVisuals. split_and!.
  - intros c Hc.
    destruct (stack_styles (defaultGapOf cfg) (images e)
                (intermediateFloors cfg e pathNodes) (sortFloors (floorsConfig e))
                (foldl (λ m f, <[fc_id f := defaultVisual]> m) ∅ (FLOORS cfg), 0%Q) c)
      as (v & Hv & Hs & Ho).
    { by rewrite sortFloors_perm. }
    exists v. split; [done |].
    rewrite Hs, Ho, floorStyle_scale, floorStyle_opacity.
    split; intros Hi; [rewrite bool_decide_eq_true_2 | rewrite bool_decide_eq_false_2];
      try done; by rewrite intermediateFloors_spec.
  - intros f Hf Hnot. rewrite stack_untouched.
    + simpl. by apply default_visuals_lookup.
    + by rewrite sortFloors_perm.
  - intros pre c1 c2 post Hnd Hsort. rewrite Hsort.
    destruct (stack_offsets (defaultGapOf cfg) (images e)
                (intermediateFloors cfg e pathNodes) pre c1 c2 post
                (foldl (λ m f, <[fc_id f := defaultVisual]> m) ∅ (FLOORS cfg), 0%Q))
      as (v1 & v2 & Hv1 & Hv2 & Hs & Hy).
    { by rewrite <- Hsort, sortFloors_perm. }
    exists v1, v2. split_and!; [done | done | |]; intros Hi; rewrite Hy, floorStyle_gap.
    + rewrite bool_decide_eq_true_2; [done |]. by rewrite intermediateFloors_spec.
    + rewrite bool_decide_eq_false_2; [done |]. by rewrite intermediateFloors_spec.
  - intros i (_ & lo & hi & (s & t & ? & ? & Hhd & _) & _). done.
  - by rewrite length_fmap.
  - intros k n Hk. rewrite list_lookup_fmap, Hk. eexists. split; [done |].
    unfold placeNode. by destruct (_ !! n_floorId n).
Qed.

Lemma updateFloorLayout_styles_gaps_coordinates_witness :
  ∃ v, floorVisuals (updateFloorLayout scenarioA_config threeFloors ["1_s"; "3_s"]) !! 2%Z
         = Some v ∧
       fv_scale v = 0.6%Q ∧ fv_opacity v = 0.3%Q.
Proof.
  destruct (proj1 (updateFloorLayout_styles_gaps_coordinates
                     scenarioA_config threeFloors ["1_s"; "3_s"]) (floorConf 2))
    as (v & Hv & Hi & _).
  - right. left.
  - exists v. split; [exact Hv |]. apply Hi. split.
    + right. left.
    + destruct (getNode threeFloors "1_s") as [n1|] eqn:E1; [| by vm_compute in E1].
      destruct (getNode threeFloors "3_s") as [n3|] eqn:E3; [| by vm_compute in E3].
      assert (n_floorId n1 = 1%Z) as F1 by (vm_compute in E1; by injection E1 as <-).
      assert (n_floorId n3 = 3%Z) as F3 by (vm_compute in E3; by injection E3 as <-).
      exists 1%Z, 3%Z. split; [| simpl; lia].
      exists "1_s", "3_s", n1, n3. rewrite F1, F3. split_and!; done.
Defined.

(** C8, as the specification words it, fails on a path that passes a
    floor beyond its last one.  In [threeFloors] the path 1_s, 3_s, 2_s
    visits the floors 1, 3 and 2: floor 2 lies strictly between the
    path's minimum and maximum floor, yet it keeps scale 1 and opacity
    1, since the layout reads the floors of the first and of the last
    node only (1 and 2, with no floor in between). *)
Lemma updateFloorLayout_reads_first_and_last_floor_only :
  pathFloors threeFloors ["1_s"; "3_s"; "2_s"] = [1; 3; 2]%Z ∧
  betweenPathFloors threeFloors ["1_s"; "3_s"; "2_s"] 2 ∧
  ¬ isIntermediateFloor scenarioA_config threeFloors ["1_s"; "3_s"; "2_s"] 2 ∧
  ∃ v, floorVisuals (updateFloorLayout scenarioA_config threeFloors ["1_s"; "3_s"; "2_s"])
         !! 2%Z = Some v ∧
       fv_scale v = 1%Q ∧ fv_opacity v = 1%Q ∧
       fv_scale v ≠ 0.6%Q ∧ fv_opacity v ≠ 0.3%Q.
Proof.
  assert (Hfloors : pathFloors threeFloors ["1_s"; "3_s"; "2_s"] = [1; 3; 2]%Z)
    by (by vm_compute).
  split_and!.
  - exact Hfloors.
  - exists 1%Z, 3%Z. rewrite Hfloors. split_and!; [left | right; left | | lia | lia].
    intros f Hf. repeat (apply elem_of_cons in Hf as [-> | Hf]; [lia |]).
    by apply elem_of_nil in Hf.
  - rewrite <- intermediateFloors_spec.
    assert (intermediateFloors scenarioA_config threeFloors ["1_s"; "3_s"; "2_s"] = [])
      as -> by (by vm_compute).
    apply not_elem_of_nil.
  - eexists. split; [by vm_compute |]. by split_and!.
Qed.

(** ** Weights and blocked edges *)

(** C3.  The weight the search gives to an adjacency entry [{to, dist,
    type}]: in accessibility mode dist * 0.1 for an elevator entry and
    dist + 50000 for a stairs entry (dist for the others); otherwise
    dist + 2000 for an elevator entry and dist for every other type.  In
    Scenario B the search reaches the target over the elevator edge: the
    distance it records is 100 * 0.1, below the 50 + 50000 of the stairs
    edge, whichever of the two entries comes first. *)
Theorem effectiveWeight_by_mode_and_type to dist type :
  let edge := {| a_to := to; a_dist := dist; a_type := type;
                 a_barrierFreeBlocked := None |} in
  effectiveWeight true edge
    = Some (if str_is type "elevator" then (dist * 0.1)%Q
            else if str_is type "stairs" then (dist + 50000)%Q else dist) ∧
  effectiveWeight false edge
    = Some (if str_is type "elevator" then (dist + 2000)%Q else dist) ∧
  (snd <$> calculatePath oneFloor_config scenarioB "s" "t" = Some ["s"; "t"] ∧
   (λ st, (finalDestId st, dists st !! "t", prev st !! "t"))
     <$> search (adjOf scenarioB) true {[ "t" ]} "s"
     = Some (Some "t", Some (100 * 0.1)%Q, Some "s") ∧
   (λ st, (finalDestId st, dists st !! "t", prev st !! "t"))
     <$> search {[ "s" := [entry "t" 50 "stairs"; entry "t" 100 "elevator"] ]}
           true {[ "t" ]} "s"
     = Some (Some "t", Some (100 * 0.1)%Q, Some "s") ∧
   (100 * 0.1 < 50 + 50000)%Q).
Proof.
  split_and!.
  - unfold effectiveWeight. simpl. by repeat case_match.
  - unfold effectiveWeight. simpl. by repeat case_match.
  - by vm_compute.
  - by vm_compute.
  - by vm_compute.
  - by vm_compute.
Qed.

Lemma adj_push_unflagged k a m :
  a_barrierFreeBlocked a = None → unflagged m → unflagged (adj_push k a m).
Proof.
  intros Ha Hm k' l' a'. unfold adj_push. rewrite lookup_insert. case_decide.
  - intros [= <-]. intros [Hin | ->%list_elem_of_singleton]%elem_of_app; [| done].
    destruct (m !! k) as [l0|] eqn:E; simpl in Hin.
    + by eapply Hm.
    + by apply elem_of_nil in Hin.
  - apply Hm.
Qed.

Lemma buildAdj_never_flags nodes edges : unflagged (buildAdj nodes edges).
Proof.
  unfold buildAdj.
  assert (H0 : unflagged
    (foldl (λ (m : gmap string (list AdjEntry)) n, <[n_id n := []]> m) ∅ nodes)).
  { induction nodes as [|n nodes IH] using rev_ind; intros k' l' a'.
    - simpl. by rewrite lookup_empty.
    - rewrite foldl_app. simpl. rewrite lookup_insert. case_decide.
      + intros [= <-]. by intros []%elem_of_nil.
      + apply IH. }
  revert H0.
  generalize (foldl (λ (m : gmap string (list AdjEntry)) n, <[n_id n := []]> m) ∅ nodes).
  intros m0 H0.
  induction edges as [|e edges IH] using rev_ind; [done |].
  rewrite foldl_app. cbn [foldl]. unfold addAdj at 1.
  by do 2 (apply adj_push_unflagged; [done |]).
Qed.

(** C2 (the code departs from it).  With accessibility mode on, the
    planner walks the one edge of [blockedVenue], though the edge record
    it was loaded from is flagged [barrierFreeBlocked].  The search does
    skip an adjacency entry that carries the flag, but no adjacency
    entry of a built graph carries it, so the guard never fires. *)
Theorem blocked_edge_is_traversed :
  accessibilityMode blockedVenue = true ∧
  re_barrierFreeBlocked
    <$> (fetchJson blocked_world (floorConf 1) ≫= λ d, fj_edges d !! 0%nat)
    = Some (Some true) ∧
  snd <$> calculatePath oneFloor_config blockedVenue "1_a" "1_b" = Some ["1_a"; "1_b"] ∧
  (∀ a, a_barrierFreeBlocked a = Some true → effectiveWeight true a = None) ∧
  (∀ nodes edges k l a,
     buildAdj nodes edges !! k = Some l → a ∈ l →
     a_barrierFreeBlocked a = None ∧ effectiveWeight true a ≠ None).
Proof.
  split_and!.
  - reflexivity.
  - reflexivity.
  - by vm_compute.
  - intros a Ha. unfold effectiveWeight. by rewrite Ha.
  - intros nodes edges k l a Hl Hin.
    split; [by apply (buildAdj_never_flags nodes edges k l a) |].
    unfold effectiveWeight.
    rewrite (buildAdj_never_flags nodes edges k l a Hl Hin). simpl.
    by repeat case_match.
Qed.

Lemma built_graph_edges_resolve_and_adjacency_symmetric_witness :
  is_Some (getNode loadedVenue "1_a") ∧ is_Some (getNode loadedVenue "1_b").
Proof.
  refine (proj1 (proj1 (built_graph_edges_resolve_and_adjacency_symmetric
            oneFloor_config blocked_world loadStart (FLOORS oneFloor_config))
            {| e_from := "1_a"; e_to := "1_b"; e_dist := 5;
               e_type := None; e_floorId := Some 1%Z |} _)).
  vm_compute. left.
Defined.

(** ** Panning and rotation *)

Section CameraFacts.
Import Camera.
Local Open Scope R_scope.

Lemma Rtrunc_nonneg x : 0 <= x → x - 1 < IZR (Rtrunc x) <= x.
Proof.
  intros Hx. unfold Rtrunc. destruct (Rle_dec 0 x); [| done].
  destruct (base_Int_part x). lra.
Qed.

Lemma Rtrunc_neg x : x < 0 → x <= IZR (Rtrunc x) < x + 1.
Proof.
  intros Hx. unfold Rtrunc. destruct (Rle_dec 0 x); [lra |].
  rewrite opp_IZR. destruct (base_Int_part (- x)). lra.
Qed.

(** The remainder is the dividend less a whole number of turns, is less
    than a turn in size and has the sign of the dividend. *)
Lemma jsRem_360 x :
  jsRem x 360 = x - 360 * IZR (Rtrunc (x / 360)) ∧
  (0 <= x → 0 <= jsRem x 360 < 360) ∧
  (x < 0 → -360 < jsRem x 360 <= 0).
Proof.
  unfold jsRem. split; [done |]. split; intros Hx.
  - destruct (Rtrunc_nonneg (x / 360)) as [H1 H2]; lra.
  - destruct (Rtrunc_neg (x / 360)) as [H1 H2]; lra.
Qed.

Lemma shortestDelta_spec target current :
  (∃ k : Z, shortestDelta target current = target - current + 360 * IZR k) ∧
  -180 <= shortestDelta target current <= 180.
Proof.
  unfold shortestDelta.
  destruct (jsRem_360 (target - current)) as (Heq & Hpos & Hneg).
  set (k := Rtrunc ((target - current) / 360)) in *.
  destruct (Rlt_dec 180 (jsRem (target - current) 360)) as [Hbig | Hbig].
  - destruct (Rle_or_lt 0 (target - current)) as [Hx | Hx]; [| lra].
    specialize (Hpos Hx).
    destruct (Rlt_dec (jsRem (target - current) 360 - 360) (-180)); [lra |].
    split; [| lra]. exists (- k - 1)%Z. rewrite minus_IZR, opp_IZR. lra.
  - destruct (Rlt_dec (jsRem (target - current) 360) (-180)) as [Hsmall | Hsmall].
    + destruct (Rle_or_lt 0 (target - current)) as [Hx | Hx]; [lra |].
      specialize (Hneg Hx). split; [| lra].
      exists (- k + 1)%Z. rewrite plus_IZR, opp_IZR. lra.
    + split; [| lra]. exists (- k)%Z. rewrite opp_IZR. lra.
Qed.

Lemma jsRem_minus340 : jsRem (-170 - 170) 360 = -340.
Proof.
  unfold jsRem, Rtrunc. destruct (Rle_dec 0 ((-170 - 170) / 360)); [lra |].
  assert (Int_part (- ((-170 - 170) / 360)) = 0%Z) as ->.
  { symmetry. apply Int_part_spec. lra. }
  rewrite opp_IZR. lra.
Qed.

Lemma worldDelta_quarter_turn : worldDelta 90 10 0 = (0, -10).
Proof.
  unfold worldDelta. replace (90 * PI / 180) with (PI / 2) by lra.
  rewrite cos_PI2, sin_PI2. f_equal; lra.
Qed.

End CameraFacts.

(** C6.  A pan adds to the translation the drag turned back by the
    rotation, dtx = dx cos θ + dy sin θ and dty = -dx sin θ + dy cos θ,
    and keeps the scale; a drag of (10, 0) at 90 degrees shifts the
    world by (0, -10). *)
Theorem applyRotatedPan_inverse_rotation (rotation : R) (transform : Transform R) (dx dy : R) :
  let rad := (rotation * PI / 180)%R in
  t_x (Camera.applyRotatedPan rotation transform dx dy)
    = (t_x transform + (dx * cos rad + dy * sin rad))%R ∧
  t_y (Camera.applyRotatedPan rotation transform dx dy)
    = (t_y transform + (- dx * sin rad + dy * cos rad))%R ∧
  t_k (Camera.applyRotatedPan rotation transform dx dy) = t_k transform ∧
  Camera.worldDelta 90 10 0 = (0%R, (-10)%R).
Proof.
  unfold Camera.applyRotatedPan, Camera.worldDelta. simpl.
  split_and!; try lra. apply worldDelta_quarter_turn.
Qed.

(** C7.  [setRotation] and the heading of [fitToPath] both end on
    current + delta, where delta is (target - current) mod 360, less 360
    when above 180 and plus 360 when below -180.  The end is the target
    up to whole turns and at most 180 degrees away from the current
    rotation; from 170 to -170 the turn is +20, ending on 190. *)
Theorem rotation_takes_shortest_turn (rotation angle : R) (e : MapEngine)
    (enableAutoRotation : bool) (pathNodes : list string) :
  Camera.setRotation rotation angle = (rotation + shortestDelta angle rotation)%R ∧
  (∃ k : Z, Camera.setRotation rotation angle = (angle + 360 * IZR k)%R) ∧
  (Rabs (Camera.setRotation rotation angle - rotation) <= 180)%R ∧
  match Camera.fitToPath e enableAutoRotation rotation pathNodes with
  | Some final =>
      let target := Camera.targetRotationOf e enableAutoRotation rotation pathNodes in
      final = (rotation + shortestDelta target rotation)%R ∧
      (∃ k : Z, final = (target + 360 * IZR k)%R) ∧
      (Rabs (final - rotation) <= 180)%R
  | None => pathNodes = []
  end ∧
  shortestDelta (-170) 170 = 20%R ∧
  Camera.setRotation 170 (-170) = 190%R.
Proof.
  assert (Hgen : ∀ target current : R,
    (∃ k : Z, (current + shortestDelta target current = target + 360 * IZR k)%R) ∧
    (Rabs (current + shortestDelta target current - current) <= 180)%R).
  { intros target current.
    destruct (shortestDelta_spec target current) as [[k Hk] Hb]. split.
    - exists k. lra.
    - apply Rabs_le. lra. }
  assert (H20 : shortestDelta (-170) 170 = 20%R).
  { unfold shortestDelta. rewrite jsRem_minus340.
    destruct (Rlt_dec 180 (-340)); [lra |].
    destruct (Rlt_dec (-340) (-180)); lra. }
  split_and!.
  - reflexivity.
  - apply (Hgen angle rotation).
  - apply (Hgen angle rotation).
  - destruct pathNodes as [|p ps]; [done |]. simpl. split_and!.
    + reflexivity.
    + apply (Hgen _ rotation).
    + apply (Hgen _ rotation).
  - exact H20.
  - change (Camera.setRotation 170 (-170)) with (170 + shortestDelta (-170) 170)%R.
    rewrite H20. lra.
Qed.

(** ** Fits *)

Section FitFacts.
Import JsNum.






End FitFacts.

(** ** The binary heap *)

Lemma Qltb_true a b : Qltb a b = true ↔ (a < b)%Q.
Proof.
  unfold Qltb. rewrite negb_true_iff. split.
  - intros H. apply Qnot_le_lt. intros Hle. apply Qle_bool_iff in Hle. congruence.
  - intros H. destruct (Qle_bool b a) eqn:E; [| done].
    apply Qle_bool_iff in E. exfalso. qlra.
Qed.

Lemma Qltb_false a b : Qltb a b = false ↔ (b <= a)%Q.
Proof.
  unfold Qltb. rewrite negb_false_iff. apply Qle_bool_iff.
Qed.

Lemma Qle_bool_false a b : Qle_bool a b = false ↔ (b < a)%Q.
Proof.
  split.
  - intros H. apply Qnot_le_lt. intros Hle. apply Qle_bool_iff in Hle. congruence.
  - intros H. destruct (Qle_bool a b) eqn:E; [| done].
    apply Qle_bool_iff in E. exfalso. qlra.
Qed.

Lemma parent_cases i :
  0 < i → i = 2 * ((i - 1) / 2) + 1 ∨ i = 2 * ((i - 1) / 2) + 2.
Proof.
  intros. pose proof (Nat.div_mod_eq (i - 1) 2).
  pose proof (Nat.mod_upper_bound (i - 1) 2). lia.
Qed.

Lemma parent_left n : (2 * n + 1 - 1) / 2 = n.
Proof.
  pose proof (Nat.div_mod_eq (2 * n + 1 - 1) 2).
  pose proof (Nat.mod_upper_bound (2 * n + 1 - 1) 2). lia.
Qed.

Lemma parent_right n : (2 * n + 2 - 1) / 2 = n.
Proof.
  pose proof (Nat.div_mod_eq (2 * n + 2 - 1) 2).
  pose proof (Nat.mod_upper_bound (2 * n + 2 - 1) 2). lia.
Qed.

Lemma swap_lookup (heap : list HeapItem) i j a b k :
  heap !! i = Some a → heap !! j = Some b → i ≠ j →
  <[j := a]> (<[i := b]> heap) !! k =
    if decide (k = j) then Some a else if decide (k = i) then Some b else heap !! k.
Proof.
  intros Hi Hj Hne.
  apply lookup_lt_Some in Hi as Hli. apply lookup_lt_Some in Hj as Hlj.
  rewrite !list_lookup_insert, length_insert.
  repeat case_decide; try done; lia.
Qed.

Lemma root_minimal heap m :
  heapOrdered heap → heap !! 0 = Some m →
  ∀ i x, heap !! i = Some x → (h_dist m <= h_dist x)%Q.
Proof.
  intros Hord Hm i. induction i as [i IH] using lt_wf_ind. intros x Hx.
  destruct (decide (i = 0)) as [-> | Hi].
  - rewrite Hm in Hx. injection Hx as <-. qlra.
  - assert (0 < i) as Hpos by lia.
    destruct (parent_cases i Hpos) as [Hc | Hc].
    + destruct (heap !! ((i - 1) / 2)) as [p|] eqn:Hp.
      * pose proof (IH ((i - 1) / 2) ltac:(lia) p Hp).
        pose proof (Hord i x p Hpos Hx Hp). qlra.
      * apply lookup_ge_None in Hp. apply lookup_lt_Some in Hx. lia.
    + destruct (heap !! ((i - 1) / 2)) as [p|] eqn:Hp.
      * pose proof (IH ((i - 1) / 2) ltac:(lia) p Hp).
        pose proof (Hord i x p Hpos Hx Hp). qlra.
      * apply lookup_ge_None in Hp. apply lookup_lt_Some in Hx. lia.
Qed.

(** *** _bubbleUp *)

Lemma bubbleUp_loop_spec fuel : ∀ heap n,
  n < fuel → n < length heap →
  heapOrderedBut (λ i, i = n) heap → grandOrdered n heap →
  ∃ heap', MinHeap.bubbleUp_loop fuel heap n = Some heap' ∧
           heap' ≡ₚ heap ∧ heapOrdered heap'.
Proof.
  induction fuel as [|fuel IH]; intros heap n Hfuel Hlen Hbut Hgrand; [lia |].
  cbn [MinHeap.bubbleUp_loop]. destruct (0 <? n) eqn:Hn.
  - apply Nat.ltb_lt in Hn.
    destruct (lookup_lt_is_Some_2 heap n Hlen) as [a Ha].
    pose proof (parent_cases n Hn) as Hpc.
    set (p := (n - 1) / 2) in *.
    assert (p < n) as Hpn by lia.
    destruct (lookup_lt_is_Some_2 heap p ltac:(lia)) as [b Hb].
    fold p. rewrite Ha. cbn [mbind option_bind]. rewrite Hb. cbn [mbind option_bind].
    destruct (Qle_bool (h_dist b) (h_dist a)) eqn:Hcmp.
    + apply Qle_bool_iff in Hcmp. exists heap. split_and!; [done | done |].
      intros i x y Hi Hx Hy. destruct (decide (i = n)) as [-> | Hne].
      * fold p in Hy. rewrite Ha in Hx. rewrite Hb in Hy. by simplify_eq.
      * by eapply Hbut.
    + apply Qle_bool_false in Hcmp.
      assert (Hlk : ∀ k, <[p := a]> (<[n := b]> heap) !! k =
                if decide (k = p) then Some a
                else if decide (k = n) then Some b else heap !! k).
      { intros k. apply swap_lookup; [done | done | lia]. }
      destruct (IH (<[p := a]> (<[n := b]> heap)) p) as (heap' & Hrun & Hperm & Hord).
      * lia.
      * rewrite !length_insert. lia.
      * intros i x y Hi Hip. rewrite !Hlk.
        destruct (decide (i = p)) as [-> | _]; [done |].
        destruct (decide (i = n)) as [-> | Hin].
        -- fold p. rewrite decide_True by done. intros [= <-] [= <-]. qlra.
        -- intros Hx. destruct (decide ((i - 1) / 2 = p)) as [Hpp | Hpp].
           ++ intros [= <-]. pose proof (Hbut i x b Hi Hin Hx). rewrite Hpp in H.
              specialize (H Hb). qlra.
           ++ destruct (decide ((i - 1) / 2 = n)) as [Hpn' | Hpn'].
              ** intros [= <-]. by apply (Hgrand i x b Hn Hi Hpn' Hx).
              ** intros Hy. by eapply Hbut.
      * intros c x y Hp0 Hc Hcp. rewrite !Hlk.
        assert ((p - 1) / 2 < p) by (pose proof (parent_cases p Hp0); lia).
        rewrite (decide_False (P := (p - 1) / 2 = p)) by lia.
        rewrite (decide_False (P := (p - 1) / 2 = n)) by lia.
        rewrite (decide_False (P := c = p)) by (pose proof (parent_cases c Hc); lia).
        intros Hx Hy.
        assert (p ≠ n) as Hpn2 by lia.
        pose proof (Hbut p b y Hp0 Hpn2 Hb Hy) as Hyb.
        destruct (decide (c = n)) as [-> | Hcn].
        -- injection Hx as <-. done.
        -- pose proof (Hbut c x b Hc Hcn Hx) as Hbx. rewrite Hcp in Hbx.
           specialize (Hbx Hb). qlra.
      * exists heap'. split_and!; [done | | done].
        rewrite Hperm. by apply Permutation_insert_swap.
  - exists heap. split_and!; [done | done |].
    apply Nat.ltb_ge in Hn. assert (n = 0) as -> by lia.
    intros i x y Hi. apply Hbut; [done | lia].
Qed.

(** *** _sinkDown *)

Lemma sinkChoice_spec heap n c :
  heap !! n = Some c →
  ∃ sw, MinHeap.sinkChoice heap n = Some sw ∧
    match sw with
    | None =>
        (∀ x, heap !! (2 * n + 1) = Some x → (h_dist c <= h_dist x)%Q) ∧
        (∀ x, heap !! (2 * n + 2) = Some x → (h_dist c <= h_dist x)%Q)
    | Some s =>
        (s = 2 * n + 1 ∨ s = 2 * n + 2) ∧
        ∃ b, heap !! s = Some b ∧ (h_dist b < h_dist c)%Q ∧
             (∀ x, heap !! (2 * n + 1) = Some x → (h_dist b <= h_dist x)%Q) ∧
             (∀ x, heap !! (2 * n + 2) = Some x → (h_dist b <= h_dist x)%Q)
    end.
Proof.
  intros Hc. unfold MinHeap.sinkChoice.
  destruct (2 * n + 1 <? length heap) eqn:HL.
  - apply Nat.ltb_lt in HL.
    destruct (lookup_lt_is_Some_2 heap (2 * n + 1) HL) as [l Hl].
    rewrite Hl, Hc. cbn [mbind option_bind].
    destruct (2 * n + 2 <? length heap) eqn:HR.
    + apply Nat.ltb_lt in HR.
      destruct (lookup_lt_is_Some_2 heap (2 * n + 2) HR) as [r Hr].
      rewrite Hr. cbn [mbind option_bind].
      destruct (Qltb (h_dist l) (h_dist c)) eqn:Hlc;
        cbn [from_option]; unfold Datatypes.id; rewrite ?Hl, ?Hc; cbn [mbind option_bind].
      * apply Qltb_true in Hlc.
        destruct (Qltb (h_dist r) (h_dist l)) eqn:Hrl.
        -- apply Qltb_true in Hrl. eexists. split; [done |]. split; [by right |].
           exists r. split_and!; [done | qlra | |]; intros x [= <-]; qlra.
        -- apply Qltb_false in Hrl. eexists. split; [done |]. split; [by left |].
           exists l. split_and!; [done | qlra | |]; intros x [= <-]; qlra.
      * apply Qltb_false in Hlc.
        destruct (Qltb (h_dist r) (h_dist c)) eqn:Hrc.
        -- apply Qltb_true in Hrc. eexists. split; [done |]. split; [by right |].
           exists r. split_and!; [done | qlra | |]; intros x [= <-]; qlra.
        -- apply Qltb_false in Hrc. eexists. split; [done |].
           split; intros x [= <-]; qlra.
    + apply Nat.ltb_ge in HR.
      assert (heap !! (2 * n + 2) = None) as Hr by (apply lookup_ge_None; lia).
      rewrite Hr.
      destruct (Qltb (h_dist l) (h_dist c)) eqn:Hlc.
      * apply Qltb_true in Hlc. eexists. split; [done |]. split; [by left |].
        exists l. split_and!; [done | qlra | | done]. intros x [= <-]; qlra.
      * apply Qltb_false in Hlc. eexists. split; [done |].
        split; [| done]. intros x [= <-]; qlra.
  - apply Nat.ltb_ge in HL. cbn [mbind option_bind].
    assert ((2 * n + 2 <? length heap) = false) as -> by (apply Nat.ltb_ge; lia).
    eexists. split; [done |]. split; intros x Hx; apply lookup_lt_Some in Hx; lia.
Qed.

Lemma sinkDown_loop_spec fuel : ∀ heap n,
  length heap - n < fuel → n < length heap →
  heapOrderedBut (λ i, (i - 1) / 2 = n) heap → grandOrdered n heap →
  ∃ heap', MinHeap.sinkDown_loop fuel heap n = Some heap' ∧
           heap' ≡ₚ heap ∧ heapOrdered heap'.
Proof.
  induction fuel as [|fuel IH]; intros heap n Hfuel Hlen Hbut Hgrand; [lia |].
  cbn [MinHeap.sinkDown_loop].
  destruct (lookup_lt_is_Some_2 heap n Hlen) as [c Hc].
  destruct (sinkChoice_spec heap n c Hc) as (sw & -> & Hsw).
  cbn [mbind option_bind]. destruct sw as [s|].
  - destruct Hsw as (Hs & b & Hb & Hbc & Hbl & Hbr).
    rewrite Hc. cbn [mbind option_bind]. rewrite Hb. cbn [mbind option_bind].
    assert (n < s) as Hns by lia.
    assert ((s - 1) / 2 = n) as Hps
      by (destruct Hs as [-> | ->]; [apply parent_left | apply parent_right]).
    assert (Hlk : ∀ k, <[s := c]> (<[n := b]> heap) !! k =
              if decide (k = s) then Some c
              else if decide (k = n) then Some b else heap !! k).
    { intros k. apply swap_lookup; [done | done | lia]. }
    apply lookup_lt_Some in Hb as Hsl.
    destruct (IH (<[s := c]> (<[n := b]> heap)) s) as (heap' & Hrun & Hperm & Hord).
    + rewrite !length_insert. lia.
    + rewrite !length_insert. lia.
    + intros i x y Hi Hip. rewrite !Hlk.
      destruct (decide (i = s)) as [-> | His].
      * rewrite Hps. rewrite (decide_False (P := n = s)) by lia.
        rewrite decide_True by done. intros [= <-] [= <-]. qlra.
      * destruct (decide (i = n)) as [-> | Hin].
        -- intros [= <-].
           assert ((n - 1) / 2 < n) by (pose proof (parent_cases n Hi); lia).
           rewrite (decide_False (P := (n - 1) / 2 = s)) by lia.
           rewrite (decide_False (P := (n - 1) / 2 = n)) by lia.
           intros Hy. apply (Hgrand s b y Hi ltac:(lia) Hps Hb Hy).
        -- intros Hx. rewrite (decide_False (P := (i - 1) / 2 = s)) by done.
           destruct (decide ((i - 1) / 2 = n)) as [Hpin | Hpin].
           ++ intros [= <-]. destruct (parent_cases i Hi) as [Hi' | Hi'].
              ** apply Hbl. rewrite <- Hpin, <- Hi'. done.
              ** apply Hbr. rewrite <- Hpin, <- Hi'. done.
           ++ intros Hy. by apply (Hbut i x y Hi Hpin Hx Hy).
    + intros k x y Hs0 Hk Hkp. rewrite !Hlk.
      assert (s < k) by (pose proof (parent_cases k Hk); lia).
      rewrite (decide_False (P := k = s)) by lia.
      rewrite (decide_False (P := k = n)) by lia.
      rewrite Hps. rewrite (decide_False (P := n = s)) by lia.
      rewrite decide_True by done. intros Hx [= <-].
      assert ((k - 1) / 2 ≠ n) as Hkn by lia.
      pose proof (Hbut k x b Hk Hkn Hx) as H'. rewrite Hkp in H'. by apply H'.
    + exists heap'. split_and!; [done | | done].
      rewrite Hperm. by apply Permutation_insert_swap.
  - destruct Hsw as [Hl Hr]. exists heap. split_and!; [done | done |].
    intros i x y Hi Hx Hy.
    destruct (decide ((i - 1) / 2 = n)) as [Hpin | Hpin].
    + rewrite Hpin, Hc in Hy. injection Hy as <-.
      destruct (parent_cases i Hi) as [Hi' | Hi'].
      * apply Hl. rewrite <- Hpin, <- Hi'. done.
      * apply Hr. rewrite <- Hpin, <- Hi'. done.
    + by apply (Hbut i x y Hi Hpin Hx Hy).
Qed.

(** *** push and pop *)

Lemma push_spec heap val :
  heapOrdered heap →
  ∃ heap', MinHeap.push heap val = Some heap' ∧
           heap' ≡ₚ val :: heap ∧ heapOrdered heap'.
Proof.
  intros Hord. unfold MinHeap.push, MinHeap._bubbleUp.
  rewrite length_app. cbn [length].
  replace (length heap + 1 - 1) with (length heap) by lia.
  destruct (bubbleUp_loop_spec (S (length heap)) (heap ++ [val]) (length heap))
    as (heap' & Hrun & Hperm & Hord').
  - lia.
  - rewrite length_app. simpl. lia.
  - intros i a b Hi Hin Ha Hb.
    apply lookup_lt_Some in Ha as Hlt. rewrite length_app in Hlt. simpl in Hlt.
    assert (i < length heap) as Hil by lia.
    assert ((i - 1) / 2 < length heap) by (pose proof (parent_cases i Hi); lia).
    rewrite lookup_app_l in Ha, Hb by lia. by apply (Hord i a b).
  - intros c a b Hn Hc Hcp Ha. apply lookup_lt_Some in Ha.
    rewrite length_app in Ha. simpl in Ha. pose proof (parent_cases c Hc). lia.
  - exists heap'. split_and!; [done | | done].
    rewrite Hperm. by rewrite Permutation_app_comm.
Qed.

Lemma pop_spec heap :
  heapOrdered heap → heap ≠ [] →
  ∃ min heap', MinHeap.pop heap = Some (Some min, heap') ∧
               min :: heap' ≡ₚ heap ∧ heapOrdered heap' ∧
               ∀ x, x ∈ heap → (h_dist min <= h_dist x)%Q.
Proof.
  intros Hord Hne. unfold MinHeap.pop.
  destruct (heap !! 0) as [m|] eqn:Hm; [| by destruct heap].
  destruct (last heap) as [end_|] eqn:Hlast; [| by apply last_None in Hlast].
  apply last_Some in Hlast as [rest Hrest].
  assert (removelast heap = rest) as -> by (rewrite Hrest; apply removelast_last).
  assert (Hmin : ∀ x, x ∈ heap → (h_dist m <= h_dist x)%Q).
  { intros x [i Hi]%list_elem_of_lookup. by eapply (root_minimal heap m). }
  destruct (0 <? length rest) eqn:Hlen.
  - apply Nat.ltb_lt in Hlen.
    destruct rest as [|m' rest']; [simpl in Hlen; lia |].
    assert (m' = m) as -> by (rewrite Hrest in Hm; by injection Hm).
    unfold MinHeap._sinkDown.
    destruct (sinkDown_loop_spec (S (length (<[0 := end_]> (m :: rest'))))
                (<[0 := end_]> (m :: rest')) 0) as (heap' & Hrun & Hperm & Hord').
    + lia.
    + rewrite length_insert. simpl. lia.
    + intros i a b Hi Hip Ha Hb.
      assert (0 < (i - 1) / 2) as Hp by lia.
      assert (i ≠ 0) by lia.
      rewrite list_lookup_insert_ne in Ha, Hb by lia.
      apply lookup_lt_Some in Ha as Hlt.
      assert ((i - 1) / 2 < i) by (pose proof (parent_cases i Hi); lia).
      apply (Hord i a b Hi); rewrite Hrest; by apply lookup_app_l_Some.
    + intros c a b Hn. lia.
    + rewrite Hrun. cbn [mbind option_bind]. exists m, heap'.
      split_and!; [done | | done | done].
      rewrite Hperm, Hrest. simpl. f_equiv. apply Permutation_cons_append.
  - apply Nat.ltb_ge in Hlen. destruct rest; [| simpl in Hlen; lia].
    exists m, []. split_and!; [done | | | done].
    + rewrite Hrest in Hm. simpl in Hm. injection Hm as ->. by rewrite Hrest.
    + intros i a b _ Ha. by rewrite lookup_nil in Ha.
Qed.

(** ** The search *)

Section Walks.
Context (g : gmap string (list AdjEntry)) (accessibility : bool).

Lemma walkWeight_cons a es :
  walkWeight accessibility (a :: es)
    = (default 0 (effectiveWeight accessibility a) + walkWeight accessibility es)%Q.
Proof. reflexivity. Qed.

Lemma walkWeight_snoc es a :
  (walkWeight accessibility (es ++ [a])
     == walkWeight accessibility es + default 0 (effectiveWeight accessibility a))%Q.
Proof.
  induction es as [|b es IH].
  - rewrite app_nil_l, !walkWeight_cons. unfold walkWeight. simpl. qlra.
  - rewrite <- app_comm_cons, !walkWeight_cons, IH. qlra.
Qed.

Lemma walkWeight_nonneg u es v :
  nonNegative g accessibility → walk g accessibility u es v →
  (0 <= walkWeight accessibility es)%Q.
Proof.
  intros Hnn. induction 1 as [|u a w es v Hu _ IH].
  - unfold walkWeight. simpl. qlra.
  - rewrite walkWeight_cons. destruct Hu as (l & Hl & Hin & Hw) eqn:E.
    rewrite Hw. simpl. pose proof (Hnn u a w Hu). qlra.
Qed.

Lemma walk_snoc u es v a w :
  walk g accessibility u es v → usable g accessibility v a w →
  walk g accessibility u (es ++ [a]) (a_to a).
Proof.
  induction 1 as [|u b w' es v Hu _ IH]; intros Ha.
  - eapply walk_cons; [done | constructor].
  - rewrite <- app_comm_cons. eapply walk_cons; [done | by apply IH].
Qed.

Lemma walkNodes_snoc u es a :
  walkNodes u (es ++ [a]) = walkNodes u es ++ [a_to a].
Proof. unfold walkNodes. by rewrite fmap_app, app_comm_cons. Qed.

Lemma walk_last u es v : walk g accessibility u es v → last (walkNodes u es) = Some v.
Proof.
  induction 1 as [|u a w es v _ _ IH]; [done |].
  unfold walkNodes in *. rewrite fmap_cons. by rewrite last_cons, IH.
Qed.

End Walks.

(** *** The fuel of the search loop *)

Lemma pending_insert g V k l :
  g !! k = None →
  pending (<[k := l]> g) V = (if decide (k ∈ V) then 0 else length l) + pending g V.
Proof.
  intros Hk. unfold pending. rewrite map_fold_insert_L; [| | done].
  - by case_decide.
  - intros. repeat case_decide; lia.
Qed.

Lemma pending_visit g V x :
  x ∉ V → pending g (V ∪ {[x]}) + length (default [] (g !! x)) ≤ pending g V.
Proof.
  intros Hx. induction g as [|k l g Hk _ IH] using map_first_key_ind.
  - unfold pending. rewrite !map_fold_empty. rewrite lookup_empty. simpl. lia.
  - rewrite !pending_insert by done. rewrite lookup_insert.
    destruct (decide (k = x)) as [-> | Hkx].
    + rewrite Hk in IH. simpl in *.
      rewrite decide_True by (apply elem_of_union; right; by apply elem_of_singleton).
      rewrite decide_False by done. lia.
    + destruct (decide (k ∈ V)) as [HV | HV].
      * rewrite decide_True by (apply elem_of_union; by left). lia.
      * rewrite decide_False; [lia |].
        by intros [? | ?%elem_of_singleton]%elem_of_union.
Qed.

Lemma pending_empty g : searchFuel g = 2 + pending g ∅.
Proof. reflexivity. Qed.

Section Dijkstra.
Context (g : gmap string (list AdjEntry)) (accessibility : bool).
Context (targetIds : gset string) (s : string).
Context (Hnn : nonNegative g accessibility).

Abbreviation Inv := (SearchInv g accessibility targetIds s).
Abbreviation Walk := (walk g accessibility).
Abbreviation weight := (walkWeight accessibility).

Lemma SearchInv_weaken (fin fin' : string → AdjEntry → Prop) st :
  (∀ u a w, u ∈ visited st → u ∉ targetIds → usable g accessibility u a w →
            fin' u a → fin u a) →
  Inv fin st → Inv fin' st.
Proof.
  intros Hw [H1 H2 H3 H4 H5 H6 H7 H8 H9 H10 H11 H12 H13 H14 H15].
  split; try done.
  intros u a w du Hu HT Hus Hf. by apply (H9 u a w du Hu HT Hus), (Hw u a w).
Qed.

Lemma usable_weight u a w w' :
  usable g accessibility u a w → usable g accessibility u a w' → w = w'.
Proof. intros (? & _ & _ & H1) (? & _ & _ & H2). congruence. Qed.

(** A walk that leaves the visited nodes costs at least as much as the
    cheapest queue entry. *)
Lemma walk_lower st m u es v du :
  Inv everything st → finalDestId st = None →
  (∀ item, item ∈ pq st → (m <= h_dist item)%Q) →
  Walk u es v → u ∈ visited st → v ∉ visited st → dists st !! u = Some du →
  (m <= du + weight es)%Q.
Proof.
  intros HI Hfd Hm Hwalk. revert du.
  induction Hwalk as [u | u a w es v Hu Hwalk IH]; intros du Huv Hvv Hdu; [done |].
  assert (u ∉ targetIds) as HuT.
  { intros HT. pose proof (si_target _ _ _ _ _ _ HI u Huv HT). congruence. }
  destruct (si_closed _ _ _ _ _ _ HI u a w du Huv HuT Hu I Hdu) as (dv & Hdv & Hle).
  rewrite walkWeight_cons. destruct Hu as (l & Hl & Hin & Hw) eqn:E.
  rewrite Hw. simpl.
  destruct (decide (a_to a ∈ visited st)) as [Hav | Hav].
  - pose proof (IH dv Hav Hvv Hdv). qlra.
  - pose proof (si_frontier _ _ _ _ _ _ HI _ _ Hdv Hav) as Hitem.
    apply Hm in Hitem. simpl in Hitem.
    pose proof (walkWeight_nonneg g accessibility _ _ _ Hnn Hwalk). qlra.
Qed.

Lemma start_lower st m es v :
  Inv everything st → finalDestId st = None →
  (∀ item, item ∈ pq st → (m <= h_dist item)%Q) →
  Walk s es v → v ∉ visited st → (m <= weight es)%Q.
Proof.
  intros HI Hfd Hm Hwalk Hv.
  pose proof (si_start _ _ _ _ _ _ HI) as Hs.
  destruct (decide (s ∈ visited st)) as [Hsv | Hsv].
  - pose proof (walk_lower st m s es v 0%Q HI Hfd Hm Hwalk Hsv Hv Hs). qlra.
  - pose proof (si_frontier _ _ _ _ _ _ HI _ _ Hs Hsv) as Hitem.
    apply Hm in Hitem. simpl in Hitem.
    pose proof (walkWeight_nonneg g accessibility _ _ _ Hnn Hwalk). qlra.
Qed.

Lemma SearchInv_refine (fin fin' : string → AdjEntry → Prop) st :
  Inv fin st →
  (∀ u a w du, u ∈ visited st → u ∉ targetIds → usable g accessibility u a w →
     fin' u a → dists st !! u = Some du →
     fin u a ∨ ∃ dv, dists st !! a_to a = Some dv ∧ (dv <= du + w)%Q) →
  Inv fin' st.
Proof.
  intros [H1 H2 H3 H4 H5 H6 H7 H8 H9 H10 H11 H12 H13 H14 H15] Hr.
  split; try done.
  intros u a w du Hu HT Hus Hf Hdu.
  destruct (Hr u a w du Hu HT Hus Hf Hdu) as [Hfin | Hdone]; [| done].
  by apply (H9 u a w du).
Qed.

Lemma relaxEdge_inv (fin : string → AdjEntry → Prop) x minDist st a l :
  Inv fin st → Relaxing targetIds x minDist st →
  g !! x = Some l → a ∈ l →
  ∃ st', relaxEdge accessibility x minDist st a = Some st' ∧
         Inv (λ u b, fin u b ∨ (u = x ∧ b = a)) st' ∧
         Relaxing targetIds x minDist st' ∧
         visited st' = visited st ∧
         length (pq st') ≤ S (length (pq st)).
Proof.
  intros HI HR Hl Hin.
  pose proof HR as (Hxv & HxT & Hfd & (dx & Hdx & Hdxm) & Hbound).
  unfold relaxEdge.
  destruct (effectiveWeight accessibility a) as [w|] eqn:Hw.
  2:{ exists st. split; [done |]. split; [| split; [done | split; [done | lia]]].
      apply (SearchInv_refine fin); [done |].
      intros u b w' du _ _ Hus [Hf | [-> ->]] _; [by left |].
      destruct Hus as (? & _ & _ & ?). congruence. }
  assert (usable g accessibility x a w) as Hus by (by exists l).
  pose proof (Hnn x a w Hus) as Hw0.
  pose proof (si_nonneg _ _ _ _ _ _ HI x dx Hdx) as Hdx0.
  set (to := a_to a). set (newDist := (minDist + w)%Q).
  assert (Hkeep : (∃ d, dists st !! to = Some d ∧ (d <= newDist)%Q) →
    ∃ st', Some st = Some st' ∧
           Inv (λ u b, fin u b ∨ (u = x ∧ b = a)) st' ∧
           Relaxing targetIds x minDist st' ∧
           visited st' = visited st ∧ length (pq st') ≤ S (length (pq st))).
  { intros (d & Hd & Hle). exists st.
    split; [done |]. split; [| split; [done | split; [done | lia]]].
    apply (SearchInv_refine fin); [done |].
    intros u b w' du _ _ Hus' [Hf | [-> ->]] Hdu; [by left |]. right.
    rewrite (usable_weight _ _ _ _ Hus' Hus).
    rewrite Hdx in Hdu. injection Hdu as <-.
    exists d. split; [done |]. subst newDist. qlra. }
  assert (Himprove : (∀ d, dists st !! to = Some d → (newDist < d)%Q) →
    ∃ st', (MinHeap.push (pq st) {| h_id := to; h_dist := newDist |}
            ≫= λ pq', Some {| dists := <[to := newDist]> (dists st);
                              prev := <[to := x]> (prev st);
                              pq := pq';
                              visited := visited st;
                              finalDestId := finalDestId st |}) = Some st' ∧
           Inv (λ u b, fin u b ∨ (u = x ∧ b = a)) st' ∧
           Relaxing targetIds x minDist st' ∧
           visited st' = visited st ∧ length (pq st') ≤ S (length (pq st))).
  { intros Hlt.
    destruct (push_spec (pq st) {| h_id := to; h_dist := newDist |}
                (si_heap _ _ _ _ _ _ HI)) as (pq' & -> & Hperm & Hord').
    cbn [mbind option_bind]. eexists. split; [done |].
    assert (to ∉ visited st) as Htov.
    { intros Htv. destruct (si_visited _ _ _ _ _ _ HI to Htv) as [d Hd].
      pose proof (Hbound to d Htv Hd). pose proof (Hlt d Hd).
      subst newDist. qlra. }
    assert (to ≠ s) as Htos.
    { intros Heq. pose proof (Hlt 0%Q) as H0. rewrite Heq in H0.
      specialize (H0 (si_start _ _ _ _ _ _ HI)). subst newDist. qlra. }
    assert (to ≠ x) as Htox by (by intros ->).
    assert (Hvis_ne : ∀ v, v ∈ visited st → to ≠ v) by (by intros v Hv ->).
    assert (Hin' : ∀ item, item ∈ pq' ↔
              item = {| h_id := to; h_dist := newDist |} ∨ item ∈ pq st).
    { intros item. by rewrite Hperm, elem_of_cons. }
    destruct HI as [H1 H2 H3 H4 H5 H6 H7 H8 H9 H10 H11 H12 H13 H14 H15].
    split; [| split; [| split; [done |]]]; cbn [dists prev pq visited finalDestId].
    - split; cbn [dists prev pq visited finalDestId].
      + by rewrite lookup_insert_ne.
      + by rewrite lookup_insert_ne.
      + intros v d. rewrite lookup_insert. case_decide; [| by apply H3].
        intros [= <-]. subst newDist. qlra.
      + done.
      + intros item [-> | Hitem]%Hin'; cbn [h_id h_dist].
        * exists newDist. rewrite lookup_insert_eq. split; [done | qlra].
        * destruct (H5 item Hitem) as (d & Hd & Hle).
          rewrite lookup_insert. case_decide as Hto; [| by exists d].
          exists newDist. split; [done |]. rewrite <- Hto in Hd.
          pose proof (Hlt d Hd). qlra.
      + intros v d. rewrite lookup_insert. case_decide as Hto.
        * intros [= <-] _. subst v. apply Hin'. by left.
        * intros Hd Hv. apply Hin'. right. by apply H6.
      + intros v Hv. rewrite lookup_insert_ne by by apply Hvis_ne. by apply H7.
      + intros v d item Hv. rewrite lookup_insert_ne by by apply Hvis_ne.
        intros Hd [-> | Hitem]%Hin'; [| by eapply H8].
        cbn [h_dist]. pose proof (Hbound v d Hv Hd). subst newDist. qlra.
      + intros u b w' du Hu HT Hus' Hf.
        rewrite lookup_insert_ne by by apply Hvis_ne. intros Hdu.
        destruct Hf as [Hf | [-> ->]].
        * destruct (H9 u b w' du Hu HT Hus' Hf Hdu) as (dv & Hdv & Hle).
          rewrite lookup_insert. case_decide as Hto; [| by exists dv].
          exists newDist. split; [done |]. rewrite <- Hto in Hdv.
          pose proof (Hlt dv Hdv). qlra.
        * rewrite Hdx in Hdu. injection Hdu as <-. fold to.
          rewrite lookup_insert_eq. exists newDist. split; [done |].
          rewrite (usable_weight _ _ _ _ Hus' Hus). subst newDist. qlra.
      + intros v d es Hv. rewrite lookup_insert_ne by by apply Hvis_ne.
        by apply H10.
      + intros v u. rewrite lookup_insert. case_decide as Hto.
        * intros [= <-]. subst v. split; [done |].
          exists a, w, dx, newDist.
          rewrite lookup_insert_ne by done. rewrite lookup_insert_eq.
          split_and!; [done | done | done | done | subst newDist; qlra].
        * intros Hp.
          destruct (H11 v u Hp) as (Huv & b & w' & du & dv & Hus' & Hb & Hdu & Hdv & Heq).
          split; [done |]. exists b, w', du, dv.
          rewrite !lookup_insert_ne by (done || by apply Hvis_ne). done.
      + intros v Hvs. rewrite !lookup_insert.
        destruct (decide (to = v)); [by eexists | by apply H12].
      + destruct H13 as (rk & Hr1 & Hr2 & Hr3). exists rk. split_and!; [| done | done].
        intros v u. rewrite lookup_insert. case_decide as Hto; [| by apply Hr1].
        intros [= <-]. subst v. rewrite (Hr3 to Htov). by apply Hr2.
      + done.
      + intros t Ht. congruence.
    - split_and!; [done | done | done | | ]; cbn [dists visited].
      + exists dx. by rewrite lookup_insert_ne.
      + intros v d Hv. rewrite lookup_insert_ne by by apply Hvis_ne. by apply Hbound.
    - rewrite Hperm. simpl. lia. }
  fold to. fold newDist. destruct (dists st !! to) as [d|] eqn:Hd.
  - destruct (Qltb newDist d) eqn:Hcmp.
    + apply Qltb_true in Hcmp. apply Himprove. by intros d' [= <-].
    + apply Qltb_false in Hcmp. apply Hkeep. by exists d.
  - apply Himprove. by intros d' [=].
Qed.

Lemma relaxEdges_inv x minDist l : ∀ l' (fin : string → AdjEntry → Prop) st,
  g !! x = Some l → (∀ a, a ∈ l' → a ∈ l) →
  Inv fin st → Relaxing targetIds x minDist st →
  ∃ st', relaxEdges accessibility x minDist st l' = Some st' ∧
         Inv (λ u b, fin u b ∨ (u = x ∧ b ∈ l')) st' ∧
         Relaxing targetIds x minDist st' ∧
         visited st' = visited st ∧
         length (pq st') ≤ length (pq st) + length l'.
Proof.
  induction l' as [|a l' IH]; intros fin st Hl Hsub HI HR.
  - exists st. split; [done |]. split; [| split; [done | split; [done | simpl; lia]]].
    apply (SearchInv_refine fin); [done |].
    intros u b w du _ _ _ [Hf | [_ []%elem_of_nil]] _. by left.
  - cbn [relaxEdges].
    destruct (relaxEdge_inv fin x minDist st a l HI HR Hl)
      as (st1 & -> & HI1 & HR1 & Hv1 & Hlen1); [apply Hsub; left |].
    cbn [mbind option_bind].
    destruct (IH (λ u b, fin u b ∨ (u = x ∧ b = a)) st1 Hl)
      as (st2 & Hrun & HI2 & HR2 & Hv2 & Hlen2); [| done | done |].
    { intros b Hb. apply Hsub. by right. }
    exists st2. split; [done |]. split; [| split; [done | split]].
    + apply (SearchInv_refine _ _ _ HI2).
      intros u b w du _ _ _ [Hf | [-> [-> | Hb]%elem_of_cons]] _; left; tauto.
    + congruence.
    + simpl. lia.
Qed.

(** The state when [x], popped at [minDist], has just been marked
    visited. *)
Lemma visit_inv st x dx minDist fd (q : list HeapItem) :
  Inv everything st → finalDestId st = None →
  {| h_id := x; h_dist := minDist |} :: q ≡ₚ pq st → heapOrdered q →
  (∀ item, item ∈ pq st → (minDist <= h_dist item)%Q) →
  x ∉ visited st → dists st !! x = Some dx → (dx == minDist)%Q →
  fd = (if decide (x ∈ targetIds) then Some x else None) →
  Inv (λ u _, u ≠ x)
      {| dists := dists st; prev := prev st; pq := q;
         visited := visited st ∪ {[ x ]}; finalDestId := fd |}.
Proof.
  intros HI Hfd Hperm Hq Hmin Hxv Hdx Hdxm ->.
  assert (Hsub : ∀ item, item ∈ q → item ∈ pq st).
  { intros item Hitem. rewrite <- Hperm. by right. }
  assert (Hlow : ∀ es v, Walk s es v → v ∉ visited st → (dx <= weight es)%Q).
  { intros es v Hwalk Hv.
    pose proof (start_lower st minDist es v HI Hfd Hmin Hwalk Hv). qlra. }
  assert (Hnot : ∀ v, v ∈ visited st → v ∉ targetIds).
  { intros v Hv HT. pose proof (si_target _ _ _ _ _ _ HI v Hv HT). congruence. }
  destruct HI as [H1 H2 H3 H4 H5 H6 H7 H8 H9 H10 H11 H12 H13 H14 H15].
  split; cbn [dists prev pq visited finalDestId]; try done.
  - intros item Hitem. by apply H5, Hsub.
  - intros v d Hd Hv. apply not_elem_of_union in Hv as [Hv Hvx].
    pose proof (H6 v d Hd Hv) as Hitem. rewrite <- Hperm in Hitem.
    apply elem_of_cons in Hitem as [[= -> _] | Hitem]; [| done].
    exfalso. apply Hvx. by apply elem_of_singleton.
  - intros v [Hv | ->%elem_of_singleton]%elem_of_union; [by apply H7 | by eexists].
  - intros v d item [Hv | ->%elem_of_singleton]%elem_of_union Hd Hitem.
    + apply (H8 v d item Hv Hd). by apply Hsub.
    + rewrite Hdx in Hd. injection Hd as <-.
      pose proof (Hmin item (Hsub item Hitem)). qlra.
  - intros u a w du [Hu | ->%elem_of_singleton]%elem_of_union HT Hus Hne Hdu; [| done].
    by apply (H9 u a w du Hu HT Hus I Hdu).
  - intros v d es [Hv | ->%elem_of_singleton]%elem_of_union Hd Hwalk.
    + by apply (H10 v d es).
    + rewrite Hdx in Hd. injection Hd as <-. by apply (Hlow es x).
  - intros v u Hp. destruct (H11 v u Hp) as [Hu Hrest]. split; [| done].
    apply elem_of_union. by left.
  - destruct H13 as (rk & Hr1 & Hr2 & Hr3).
    assert (size (visited st ∪ {[x]}) = S (size (visited st))) as Hsize.
    { rewrite size_union by (by apply disjoint_singleton_r).
      rewrite size_singleton. lia. }
    exists (λ v, if decide (v ∈ visited st ∪ {[x]}) then rk v else S (size (visited st))).
    rewrite Hsize. split_and!.
    + intros v u Hp. destruct (H11 v u Hp) as [Hu _].
      rewrite (decide_True (P := u ∈ visited st ∪ {[x]}))
        by (apply elem_of_union; by left).
      pose proof (Hr1 v u Hp). pose proof (Hr2 u Hu).
      case_decide; lia.
    + intros v Hv. rewrite decide_True by done.
      apply elem_of_union in Hv as [Hv | ->%elem_of_singleton].
      * pose proof (Hr2 v Hv). lia.
      * rewrite (Hr3 x Hxv). lia.
    + intros v Hv. by rewrite decide_False.
  - intros v [Hv | ->%elem_of_singleton]%elem_of_union HT.
    + by apply Hnot in Hv.
    + by rewrite decide_True.
  - intros t. case_decide as HT; [| done]. intros [= <-].
    split_and!; [done | apply elem_of_union; right; by apply elem_of_singleton |].
    intros d t' es Hd Ht' Hwalk. rewrite Hdx in Hd. injection Hd as <-.
    apply (Hlow es t' Hwalk). intros Hv. by apply Hnot in Hv.
Qed.

Lemma withQueue_inv st (q : list HeapItem) item :
  Inv everything st → item :: q ≡ₚ pq st → heapOrdered q →
  (∀ d, dists st !! h_id item = Some d → h_id item ∉ visited st →
        h_dist item ≠ d) →
  Inv everything (withQueue st q).
Proof.
  intros HI Hperm Hq Hitem.
  assert (Hsub : ∀ i, i ∈ q → i ∈ pq st).
  { intros i Hi. rewrite <- Hperm. by right. }
  destruct HI as [H1 H2 H3 H4 H5 H6 H7 H8 H9 H10 H11 H12 H13 H14 H15].
  split; cbn [withQueue dists prev pq visited finalDestId]; try done.
  - intros i Hi. by apply H5, Hsub.
  - intros v d Hd Hv. pose proof (H6 v d Hd Hv) as Hin. rewrite <- Hperm in Hin.
    apply elem_of_cons in Hin as [Heq | Hin]; [| done].
    exfalso. subst item. by apply (Hitem d).
  - intros v d i Hv Hd Hi. apply (H8 v d i Hv Hd). by apply Hsub.
Qed.

(** The search loop ends within its fuel, on a state that has found a
    target or has emptied the queue. *)
Lemma searchLoop_inv fuel : ∀ st,
  Inv everything st → finalDestId st = None →
  length (pq st) + pending g (visited st) < fuel →
  ∃ st', searchLoop fuel g accessibility targetIds st = Some st' ∧
         Inv everything st' ∧
         (finalDestId st' = None → pq st' = []).
Proof.
  induction fuel as [|fuel IH]; intros st HI Hfd Hfuel; [lia |].
  cbn [searchLoop]. unfold MinHeap.size.
  destruct (0 <? length (pq st)) eqn:Hsize.
  2:{ apply Nat.ltb_ge in Hsize. exists st. split_and!; [done | done |].
      intros _. destruct (pq st); [done | simpl in Hsize; lia]. }
  apply Nat.ltb_lt in Hsize.
  destruct (pop_spec (pq st) (si_heap _ _ _ _ _ _ HI)) as (min & q & -> & Hperm & Hq & Hmin).
  { intros Hnil. rewrite Hnil in Hsize. simpl in Hsize. lia. }
  cbn [mbind option_bind].
  assert (min ∈ pq st) as Hminin by (rewrite <- Hperm; left).
  destruct (si_queue _ _ _ _ _ _ HI min Hminin) as (dx & Hdx & Hdxle).
  assert (length (pq st) = S (length q)) as Hlen by (by rewrite <- Hperm).
  rewrite Hdx. destruct (Qltb dx (h_dist min)) eqn:Hstale.
  { apply Qltb_true in Hstale.
    destruct (IH (withQueue st q)) as (st' & Hrun & HI' & Hend); [| done | | by exists st'].
    - apply (withQueue_inv st q min HI Hperm Hq).
      intros d Hd _ Heq. rewrite Hdx in Hd. injection Hd as <-.
      rewrite Heq in Hstale. qlra.
    - cbn [withQueue pq visited]. lia. }
  apply Qltb_false in Hstale.
  destruct (bool_decide (h_id min ∈ visited st)) eqn:Hvis.
  { apply bool_decide_eq_true in Hvis.
    destruct (IH (withQueue st q)) as (st' & Hrun & HI' & Hend); [| done | | by exists st'].
    - apply (withQueue_inv st q min HI Hperm Hq). by intros d _ Hnv.
    - cbn [withQueue pq visited]. lia. }
  apply bool_decide_eq_false in Hvis.
  assert (dx == h_dist min)%Q as Hdxm by qlra.
  assert (Hperm' : {| h_id := h_id min; h_dist := h_dist min |} :: q ≡ₚ pq st)
    by (by destruct min).
  pose proof (visit_inv st (h_id min) dx (h_dist min) _ q HI Hfd Hperm' Hq
                (λ item Hitem, Hmin item Hitem) Hvis Hdx Hdxm eq_refl) as HI1.
  cbn [dists prev pq visited finalDestId].
  destruct (bool_decide (h_id min ∈ targetIds)) eqn:Htarget.
  { apply bool_decide_eq_true in Htarget. rewrite decide_True in HI1 by done.
    eexists. split; [done |]. split; [| done].
    apply (SearchInv_refine _ _ _ HI1).
    intros u a w du _ HT _ _ _. left. by intros ->. }
  apply bool_decide_eq_false in Htarget. rewrite decide_False in HI1 by done.
  set (st1 := {| dists := dists st; prev := prev st; pq := q;
                 visited := visited st ∪ {[h_id min]}; finalDestId := finalDestId st |}).
  rewrite <- Hfd in HI1. fold st1 in HI1.
  assert (HR1 : Relaxing targetIds (h_id min) (h_dist min) st1).
  { split_and!; cbn [st1 dists visited finalDestId];
      [apply elem_of_union; right; by apply elem_of_singleton
      | done | done | by exists dx |].
    intros v d [Hv | ->%elem_of_singleton]%elem_of_union Hd.
    - pose proof (si_mono _ _ _ _ _ _ HI v d min Hv Hd Hminin). done.
    - rewrite Hdx in Hd. injection Hd as <-. qlra. }
  pose proof (pending_visit g (visited st) (h_id min) Hvis) as Hpend.
  destruct (g !! h_id min) as [l|] eqn:Hl; cbn [default from_option] in *;
    unfold Datatypes.id in *.
  - destruct (relaxEdges_inv (h_id min) (h_dist min) l l _ st1 Hl (λ a H, H) HI1 HR1)
      as (st2 & -> & HI2 & HR2 & Hv2 & Hlen2).
    cbn [mbind option_bind].
    destruct (IH st2) as (st' & Hrun & HI' & Hend); [| | | by exists st'].
    + apply (SearchInv_refine _ _ _ HI2).
      intros u a w du _ _ Hus _ _. left. destruct (decide (u = h_id min)) as [-> | Hne].
      * right. split; [done |]. destruct Hus as (l' & Hl' & Hin & _). congruence.
      * by left.
    + by destruct HR2 as (_ & _ & ? & _).
    + rewrite Hv2. cbn [st1 pq visited] in *. lia.
  - cbn [relaxEdges mbind option_bind].
    destruct (IH st1) as (st' & Hrun & HI' & Hend); [| done | | by exists st'].
    + apply (SearchInv_refine _ _ _ HI1).
      intros u a w du _ _ Hus _ _. left. intros ->.
      destruct Hus as (l' & Hl' & _). congruence.
    + cbn [st1 pq visited]. simpl in Hpend. lia.
Qed.

Lemma unwind_spec st (rk : string → nat) :
  Inv everything st →
  (∀ v u, prev st !! v = Some u → rk u < rk v) →
  ∀ fuel v d acc, rk v < fuel → dists st !! v = Some d →
  ∃ es, Walk s es v ∧ (weight es == d)%Q ∧
        unwind fuel (prev st) (Some v) acc = Some (walkNodes s es ++ acc).
Proof.
  intros HI Hrk. induction fuel as [|fuel IH]; intros v d acc Hfuel Hd; [lia |].
  cbn [unwind]. destruct (decide (v = s)) as [-> | Hvs].
  - rewrite (si_nostart _ _ _ _ _ _ HI). exists []. split; [constructor |].
    rewrite (si_start _ _ _ _ _ _ HI) in Hd. injection Hd as <-.
    split; [done |]. by destruct fuel.
  - destruct (si_prev_dom _ _ _ _ _ _ HI v Hvs) as [u Hu]; [by eexists |].
    rewrite Hu.
    destruct (si_prev _ _ _ _ _ _ HI v u Hu)
      as (_ & a & w & du & dv & Hus & Hto & Hdu & Hdv & Heq).
    rewrite Hd in Hdv. injection Hdv as <-.
    pose proof (Hrk v u Hu) as Hlt.
    destruct (IH u du (v :: acc)) as (es & Hwalk & Hw & Hrun); [lia | done |].
    exists (es ++ [a]). split_and!.
    + rewrite <- Hto. by eapply walk_snoc.
    + rewrite walkWeight_snoc. destruct Hus as (? & _ & _ & ->). simpl. qlra.
    + rewrite Hrun, walkNodes_snoc, Hto. by rewrite <- app_assoc.
Qed.

Lemma search_runs :
  ∃ st, search g accessibility targetIds s = Some st ∧
        Inv everything st ∧ (finalDestId st = None → pq st = []).
Proof.
  unfold search.
  destruct (push_spec [] {| h_id := s; h_dist := 0 |})
    as (pq0 & -> & Hperm & Hord); [by intros i a b _ Ha; rewrite lookup_nil in Ha |].
  cbn [mbind option_bind].
  assert (Hin : ∀ item, item ∈ pq0 ↔ item = {| h_id := s; h_dist := 0 |}).
  { intros item. by rewrite Hperm, list_elem_of_singleton. }
  apply searchLoop_inv; [| done |].
  - split; cbn [dists prev pq visited finalDestId].
    + by rewrite lookup_singleton_eq.
    + done.
    + intros v d [-> <-]%lookup_singleton_Some. qlra.
    + done.
    + intros item ->%Hin. exists 0%Q. simpl. rewrite lookup_singleton_eq.
      split; [done | qlra].
    + intros v d [-> <-]%lookup_singleton_Some _. by apply Hin.
    + intros v Hv. by apply not_elem_of_empty in Hv.
    + intros v d item Hv. by apply not_elem_of_empty in Hv.
    + intros u a w du Hu. by apply not_elem_of_empty in Hu.
    + intros v d es Hv. by apply not_elem_of_empty in Hv.
    + intros v u Hp. by rewrite lookup_empty in Hp.
    + intros v Hvs [d [? ?]%lookup_singleton_Some]. congruence.
    + exists (λ _, 0). split_and!; [| | done].
      * intros v u Hp. by rewrite lookup_empty in Hp.
      * intros v Hv. by apply not_elem_of_empty in Hv.
    + intros v Hv. by apply not_elem_of_empty in Hv.
    + done.
  - cbn [pq visited]. rewrite pending_empty, Hperm. simpl. lia.
Qed.

(** When a target was found, the unwound path is a cheapest walk to a
    target. *)
Lemma found_path st t :
  Inv everything st → finalDestId st = Some t →
  t ∈ targetIds ∧
  ∃ es, Walk s es t ∧
        unwind (S (size (visited st))) (prev st) (Some t) [] = Some (walkNodes s es) ∧
        ∀ t' es', t' ∈ targetIds → Walk s es' t' → (weight es <= weight es')%Q.
Proof.
  intros HI Hfd.
  destruct (si_found _ _ _ _ _ _ HI t Hfd) as (HT & Hv & Hbest). split; [done |].
  destruct (si_visited _ _ _ _ _ _ HI t Hv) as [d Hd].
  destruct (si_rank _ _ _ _ _ _ HI) as (rk & Hr1 & Hr2 & _).
  destruct (unwind_spec st rk HI Hr1 (S (size (visited st))) t d [])
    as (es & Hwalk & Hw & Hrun); [pose proof (Hr2 t Hv); lia | done |].
  exists es. rewrite app_nil_r in Hrun. split_and!; [done | done |].
  intros t' es' Ht' Hwalk'. pose proof (Hbest d t' es' Hd Ht' Hwalk'). qlra.
Qed.

(** When the queue ran empty, no target can be reached. *)
Lemma unreachable st t es :
  Inv everything st → finalDestId st = None → pq st = [] →
  t ∈ targetIds → ¬ Walk s es t.
Proof.
  intros HI Hfd Hpq HT Hwalk.
  assert (Hall : ∀ v d, dists st !! v = Some d → v ∈ visited st).
  { intros v d Hd. destruct (decide (v ∈ visited st)) as [|Hv]; [done |].
    pose proof (si_frontier _ _ _ _ _ _ HI v d Hd Hv) as Hin.
    rewrite Hpq in Hin. by apply elem_of_nil in Hin. }
  assert (Hclosed : ∀ u es v, Walk u es v → u ∈ visited st → v ∈ visited st).
  { clear Hwalk. intros u es' v Hw. induction Hw as [|u a w es' v Hus _ IH]; [done |].
    intros Hu. apply IH.
    assert (u ∉ targetIds) as HuT.
    { intros HuT. pose proof (si_target _ _ _ _ _ _ HI u Hu HuT). congruence. }
    destruct (si_visited _ _ _ _ _ _ HI u Hu) as [du Hdu].
    destruct (si_closed _ _ _ _ _ _ HI u a w du Hu HuT Hus I Hdu) as (dv & Hdv & _).
    by eapply Hall. }
  pose proof (Hclosed s es t Hwalk (Hall s _ (si_start _ _ _ _ _ _ HI))) as Ht.
  pose proof (si_target _ _ _ _ _ _ HI t Ht HT). congruence.
Qed.

End Dijkstra.

Lemma nonNegativeb_sound g accessibility :
  nonNegativeb g accessibility = true → nonNegative g accessibility.
Proof.
  unfold nonNegativeb. rewrite forallb_forall. intros Hall u a w (l & Hl & Hin & Hw).
  apply elem_of_map_to_list, list_elem_of_In in Hl.
  specialize (Hall _ Hl). simpl in Hall. rewrite forallb_forall in Hall.
  apply list_elem_of_In in Hin. specialize (Hall _ Hin). rewrite Hw in Hall.
  by apply Qle_bool_iff.
Qed.

(** Base weights that are not negative give weights that are not. *)
Lemma effectiveWeight_nonneg accessibility a w :
  (0 <= a_dist a)%Q → effectiveWeight accessibility a = Some w → (0 <= w)%Q.
Proof.
  unfold effectiveWeight. intros Hd Hw.
  repeat case_match; simplify_eq; qlra.
Qed.

Lemma walk_adjacent g accessibility u es v :
  walk g accessibility u es v →
  ∀ i x y, walkNodes u es !! i = Some x → walkNodes u es !! S i = Some y →
  ∃ l a, g !! x = Some l ∧ a ∈ l ∧ a_to a = y.
Proof.
  induction 1 as [|u a w es v Hus Hwalk IH]; intros i x y Hx Hy.
  - by destruct i.
  - destruct i as [|i].
    + simpl in Hx, Hy. injection Hx as <-. injection Hy as <-.
      destruct Hus as (l & Hl & Hin & _). by exists l, a.
    + apply (IH i x y); done.
Qed.

Lemma ensureGraph_withPath cfg e p :
  adjOf (ensureGraph cfg (withPath e p)) = adjOf (ensureGraph cfg e) ∧
  accessibilityMode (ensureGraph cfg (withPath e p)) = accessibilityMode e.
Proof.
  unfold ensureGraph. cbn [withPath adj].
  destruct (adj e) as [g|]; [case_bool_decide |]; done.
Qed.

(** C1.  On a graph whose weighed entries are not negative,
    [calculatePath] returns.  The path is empty exactly when the start
    does not resolve, the target set is empty or no target can be
    reached.  Otherwise it is the node sequence of a walk in the
    adjacency cache from the start node to a target: it begins with the
    start node, ends with a target, every two neighbours in it are
    joined by an adjacency entry, and no walk from the start to any
    target weighs less. *)
Theorem calculatePath_returns_a_cheapest_path cfg e startId endId :
  nonNegative (adjOf (ensureGraph cfg e)) (accessibilityMode e) →
  ∃ e' p,
    calculatePath cfg e startId endId = Some (e', p) ∧
    (p = [] ↔
       getNode e startId = None ∨ targetIdsOf e endId = ∅ ∨
       ∃ sNode, getNode e startId = Some sNode ∧
         ∀ t es, t ∈ targetIdsOf e endId →
           ¬ walk (adjOf (ensureGraph cfg e)) (accessibilityMode e) (n_id sNode) es t) ∧
    (p ≠ [] →
       ∃ sNode t es,
         getNode e startId = Some sNode ∧ t ∈ targetIdsOf e endId ∧
         walk (adjOf (ensureGraph cfg e)) (accessibilityMode e) (n_id sNode) es t ∧
         p = walkNodes (n_id sNode) es ∧
         head p = Some (n_id sNode) ∧ last p = Some t ∧
         (∀ i x y, p !! i = Some x → p !! S i = Some y →
            ∃ l a, adjOf (ensureGraph cfg e) !! x = Some l ∧ a ∈ l ∧ a_to a = y) ∧
         (∀ t' es', t' ∈ targetIdsOf e endId →
            walk (adjOf (ensureGraph cfg e)) (accessibilityMode e) (n_id sNode) es' t' →
            (walkWeight (accessibilityMode e) es
               <= walkWeight (accessibilityMode e) es')%Q)).
Proof.
  intros Hnn. unfold calculatePath.
  change (getNode (withPath e []) startId) with (getNode e startId).
  change (targetIdsOf (withPath e []) endId) with (targetIdsOf e endId).
  destruct (ensureGraph_withPath cfg e []) as [-> ->].
  destruct (getNode e startId) as [sNode|] eqn:Hs.
  2:{ eexists _, _. split; [done |]. split; [| done]. split; [by left | done]. }
  case_bool_decide as HT.
  { eexists _, _. split; [done |]. split; [| done]. split; [by right; left | done]. }
  destruct (search_runs (adjOf (ensureGraph cfg e)) (accessibilityMode e)
              (targetIdsOf e endId) (n_id sNode) Hnn) as (st & -> & HI & Hend).
  cbn [mbind option_bind].
  destruct (finalDestId st) as [t|] eqn:Hfd.
  - destruct (found_path _ _ _ _ st t HI Hfd) as (Ht & es & Hwalk & -> & Hbest).
    cbn [mbind option_bind]. eexists _, _. split; [done |]. split.
    + split; [done |]. intros [? | [? | (sNode' & [= <-] & Hno)]]; [done | done |].
      by destruct (Hno t es Ht).
    + intros _. exists sNode, t, es. split_and!; try done.
      * by eapply walk_last.
      * by eapply walk_adjacent.
  - cbn [mbind option_bind]. eexists _, _. split; [done |]. split; [| done].
    split; [| done]. intros _. right. right. exists sNode. split; [done |].
    intros t es Ht. eapply unreachable; [exact HI | done | by apply Hend | done].
Qed.

Lemma calculatePath_returns_a_cheapest_path_witness :
  ∃ e' p, calculatePath oneFloor_config scenarioB "s" "t" = Some (e', p) ∧ p ≠ [].
Proof.
  destruct (calculatePath_returns_a_cheapest_path oneFloor_config scenarioB "s" "t")
    as (e' & p & Hrun & _ & _).
  - apply nonNegativeb_sound. by vm_compute.
  - exists e', p. split; [exact Hrun |].
    intros ->. by vm_compute in Hrun.
Defined.

(** ** The stored route *)

(** C10.  [calculatePath] starts by emptying the stored path and by
    clearing the start marker.  Whatever was stored before, a call that
    returns leaves the returned path as the stored path and no start
    marker; and a plan that fails returns and stores the empty path:
    when the start does not resolve, when the target set is empty, and,
    on a graph whose weighed entries are not negative, when no target
    can be reached from the start. *)
Theorem calculatePath_resets_stored_route cfg e startId endId :
  (∀ e' p, calculatePath cfg e startId endId = Some (e', p) →
     path e' = p ∧ startNode e' = None) ∧
  (getNode e startId = None ∨ targetIdsOf e endId = ∅ →
     ∃ e', calculatePath cfg e startId endId = Some (e', []) ∧
           path e' = [] ∧ startNode e' = None) ∧
  (nonNegative (adjOf (ensureGraph cfg e)) (accessibilityMode e) →
   (∀ sNode t es, getNode e startId = Some sNode → t ∈ targetIdsOf e endId →
      ¬ walk (adjOf (ensureGraph cfg e)) (accessibilityMode e) (n_id sNode) es t) →
   ∃ e', calculatePath cfg e startId endId = Some (e', []) ∧
         path e' = [] ∧ startNode e' = None).
Proof.
  unfold calculatePath.
  change (getNode (withPath e []) startId) with (getNode e startId).
  change (targetIdsOf (withPath e []) endId) with (targetIdsOf e endId).
  destruct (ensureGraph_withPath cfg e []) as [-> ->].
  split_and!.
  - intros e' p. destruct (getNode e startId) as [sNode|]; [| by intros [= <- <-]].
    case_bool_decide; [by intros [= <- <-] |].
    intros Hc. apply bind_Some in Hc as (st & _ & Hc).
    by apply bind_Some in Hc as (p' & _ & [= <- <-]).
  - intros Hfail. destruct (getNode e startId) as [sNode|]; [| by eexists].
    destruct Hfail as [? | ->]; [done |].
    rewrite bool_decide_eq_true_2 by done. by eexists.
  - intros Hnn Hno. destruct (getNode e startId) as [sNode|]; [| by eexists].
    case_bool_decide; [by eexists |].
    destruct (search_runs (adjOf (ensureGraph cfg e)) (accessibilityMode e)
                (targetIdsOf e endId) (n_id sNode) Hnn) as (st & -> & HI & _).
    cbn [mbind option_bind].
    destruct (finalDestId st) as [t|] eqn:Hfd.
    + destruct (found_path _ _ _ _ st t HI Hfd) as (Ht & es & Hwalk & _).
      by destruct (Hno sNode t es eq_refl Ht).
    + cbn [mbind option_bind]. by eexists.
Qed.

Lemma calculatePath_resets_stored_route_witness :
  path islands = ["1_a"] ∧ startNode islands = Some 0 ∧
  ∃ e', calculatePath oneFloor_config islands "1_a" "1_b" = Some (e', []) ∧
        path e' = [] ∧ startNode e' = None.
Proof.
  split; [by vm_compute |]. split; [by vm_compute |].
  apply (proj2 (proj2 (calculatePath_resets_stored_route
                         oneFloor_config islands "1_a" "1_b"))).
  - apply nonNegativeb_sound. by vm_compute.
  - intros sNode t es Hs Ht Hwalk.
    assert (n_id sNode = "1_a") as Hid by (vm_compute in Hs; by injection Hs as <-).
    assert (adjOf (ensureGraph oneFloor_config islands) !! "1_a" = Some []) as Hadj
      by (by vm_compute).
    rewrite Hid in Hwalk. clear Hs Hid.
    inversion Hwalk as [u | u a wt es' v (l & Hl & Hin & _) _]; subst.
    + assert (targetIdsOf islands "1_b" = {[ "1_b" ]}) as HT by (by vm_compute).
      rewrite HT in Ht. apply elem_of_singleton in Ht. discriminate Ht.
    + rewrite Hadj in Hl. injection Hl as <-. clear -Hin. by apply elem_of_nil in Hin.
Defined.

(** * Lemmas and theorems, continued *)

(** ** The heap as a priority queue *)

Lemma heapOrderedb_sound heap : heapOrderedb heap = true → heapOrdered heap.
Proof.
  unfold heapOrderedb. rewrite forallb_forall. intros H i a b Hi Ha Hb.
  specialize (H i). rewrite Ha, Hb in H. apply Qle_bool_iff, H, in_seq.
  apply lookup_lt_Some in Ha. lia.
Qed.

Lemma heapOrdered_nil : heapOrdered [].
Proof. intros i a b _ Ha. done. Qed.

(** X1.  [push(val)] on an array in heap order returns, and leaves an
    array in heap order that holds the items held before and [val], and
    nothing else; its size is one more. *)
Theorem MinHeap_push_keeps_heap_order heap val :
  heapOrdered heap →
  ∃ heap', MinHeap.push heap val = Some heap' ∧
           heap' ≡ₚ val :: heap ∧ heapOrdered heap' ∧
           MinHeap.size heap' = S (MinHeap.size heap).
Proof.
  intros Hord. destruct (push_spec heap val Hord) as (heap' & Hrun & Hperm & Hord').
  exists heap'. split_and!; try done.
  unfold MinHeap.size. by rewrite Hperm.
Qed.

Lemma MinHeap_push_keeps_heap_order_witness :
  ∃ heap', MinHeap.push [ {| h_id := "a"; h_dist := 1 |}; {| h_id := "b"; h_dist := 3 |} ]
             {| h_id := "c"; h_dist := 0 |} = Some heap' ∧
           heap' ≡ₚ {| h_id := "c"; h_dist := 0 |}
                    :: [ {| h_id := "a"; h_dist := 1 |}; {| h_id := "b"; h_dist := 3 |} ] ∧
           heapOrdered heap' ∧
           MinHeap.size heap' = 3.
Proof.
  apply (MinHeap_push_keeps_heap_order
           [ {| h_id := "a"; h_dist := 1 |}; {| h_id := "b"; h_dist := 3 |} ]
           {| h_id := "c"; h_dist := 0 |}).
  apply heapOrderedb_sound. vm_compute. reflexivity.
Defined.

(** X2.  [pop()] on a non-empty array in heap order returns an item of
    least distance, and leaves an array in heap order that holds the
    other items, and nothing else; its size is one less. *)
Theorem MinHeap_pop_returns_a_least_item heap :
  heapOrdered heap → heap ≠ [] →
  ∃ min heap', MinHeap.pop heap = Some (Some min, heap') ∧
               min :: heap' ≡ₚ heap ∧ heapOrdered heap' ∧
               (∀ x, x ∈ heap → (h_dist min <= h_dist x)%Q) ∧
               S (MinHeap.size heap') = MinHeap.size heap.
Proof.
  intros Hord Hne.
  destruct (pop_spec heap Hord Hne) as (m & heap' & Hrun & Hperm & Hord' & Hmin).
  exists m, heap'. split_and!; try done.
  unfold MinHeap.size. by rewrite <- Hperm.
Qed.

Lemma MinHeap_pop_returns_a_least_item_witness :
  ∃ min heap',
    MinHeap.pop [ {| h_id := "a"; h_dist := 1 |}; {| h_id := "b"; h_dist := 3 |};
                  {| h_id := "c"; h_dist := 2 |} ] = Some (Some min, heap') ∧
    min :: heap' ≡ₚ [ {| h_id := "a"; h_dist := 1 |}; {| h_id := "b"; h_dist := 3 |};
                      {| h_id := "c"; h_dist := 2 |} ] ∧
    heapOrdered heap' ∧
    (∀ x, x ∈ [ {| h_id := "a"; h_dist := 1 |}; {| h_id := "b"; h_dist := 3 |};
                {| h_id := "c"; h_dist := 2 |} ] → (h_dist min <= h_dist x)%Q) ∧
    S (MinHeap.size heap') = 3.
Proof.
  apply (MinHeap_pop_returns_a_least_item
           [ {| h_id := "a"; h_dist := 1 |}; {| h_id := "b"; h_dist := 3 |};
             {| h_id := "c"; h_dist := 2 |} ]).
  - apply heapOrderedb_sound. vm_compute. reflexivity.
  - discriminate.
Defined.

Lemma pushAll_spec items : ∀ heap,
  heapOrdered heap →
  ∃ heap', pushAll heap items = Some heap' ∧
           heap' ≡ₚ items ++ heap ∧ heapOrdered heap'.
Proof.
  unfold pushAll. induction items as [|v items IH]; intros heap Hord.
  - exists heap. done.
  - cbn [foldl mbind option_bind].
    destruct (push_spec heap v Hord) as (h1 & -> & Hperm1 & Hord1).
    destruct (IH h1 Hord1) as (h2 & Hrun & Hperm2 & Hord2).
    exists h2. split_and!; [done | | done].
    rewrite Hperm2, Hperm1. cbn [app]. by rewrite Permutation_middle.
Qed.

Lemma popAll_spec fuel : ∀ heap,
  heapOrdered heap → length heap ≤ fuel →
  ∃ out, popAll fuel heap = Some out ∧ out ≡ₚ heap ∧ ascending out.
Proof.
  induction fuel as [|fuel IH]; intros heap Hord Hlen.
  - destruct heap; [| simpl in Hlen; lia]. exists []. split_and!; [done | done |].
    intros i j a b _ Ha. done.
  - destruct heap as [|x heap0] eqn:Hheap.
    { exists []. split_and!; [done | done |]. intros i j a b _ Ha. done. }
    rewrite <- Hheap in *.
    assert (heap ≠ []) as Hne by (by rewrite Hheap).
    destruct (pop_spec heap Hord Hne) as (m & heap' & Hrun & Hperm & Hord' & Hmin).
    assert (length heap = S (length heap')) as Hl by (by rewrite <- Hperm).
    destruct (IH heap' Hord' ltac:(lia)) as (out & Hout & Hperm' & Hasc).
    exists (m :: out). split_and!.
    + cbn [popAll]. unfold MinHeap.size. rewrite Hl. cbn [Nat.ltb Nat.leb].
      rewrite Hrun. cbn [mbind option_bind]. rewrite Hout. done.
    + by rewrite Hperm'.
    + intros i j a b Hij Ha Hb. destruct i as [|i].
      * injection Ha as <-. apply Hmin. rewrite <- Hperm, <- Hperm'.
        by eapply list_elem_of_lookup_2.
      * destruct j as [|j]; [lia |]. apply (Hasc i j); [lia | done | done].
Qed.

(** X3.  Items pushed one by one on an empty heap and then popped until
    the heap is empty come out in ascending order of distance, each
    item once. *)
Theorem MinHeap_pops_in_ascending_order items :
  ∃ heap out,
    pushAll [] items = Some heap ∧
    popAll (length items) heap = Some out ∧
    out ≡ₚ items ∧ ascending out.
Proof.
  destruct (pushAll_spec items [] heapOrdered_nil) as (heap & Hpush & Hperm & Hord).
  rewrite app_nil_r in Hperm.
  destruct (popAll_spec (length items) heap Hord) as (out & Hpop & Hperm' & Hasc).
  { by rewrite Hperm. }
  exists heap, out. split_and!; [done | done | | done].
  by rewrite Hperm'.
Qed.

(** *** Arrays in any order *)

Lemma bubbleUp_loop_returns fuel : ∀ heap n,
  n < fuel → n < length heap →
  ∃ heap', MinHeap.bubbleUp_loop fuel heap n = Some heap' ∧ heap' ≡ₚ heap.
Proof.
  induction fuel as [|fuel IH]; intros heap n Hfuel Hlen; [lia |].
  cbn [MinHeap.bubbleUp_loop]. destruct (0 <? n) eqn:Hn; [| by exists heap].
  apply Nat.ltb_lt in Hn.
  destruct (lookup_lt_is_Some_2 heap n Hlen) as [a Ha].
  pose proof (parent_cases n Hn) as Hpc.
  set (p := (n - 1) / 2) in *.
  assert (p < n) as Hpn by lia.
  destruct (lookup_lt_is_Some_2 heap p ltac:(lia)) as [b Hb].
  rewrite Ha. cbn [mbind option_bind]. rewrite Hb. cbn [mbind option_bind].
  destruct (Qle_bool (h_dist b) (h_dist a)); [by exists heap |].
  destruct (IH (<[p := a]> (<[n := b]> heap)) p) as (heap' & Hrun & Hperm).
  - lia.
  - rewrite !length_insert. lia.
  - exists heap'. split; [done |]. rewrite Hperm. by apply Permutation_insert_swap.
Qed.

Lemma sinkDown_loop_returns fuel : ∀ heap n,
  length heap - n < fuel → n < length heap →
  ∃ heap', MinHeap.sinkDown_loop fuel heap n = Some heap' ∧ heap' ≡ₚ heap.
Proof.
  induction fuel as [|fuel IH]; intros heap n Hfuel Hlen; [lia |].
  cbn [MinHeap.sinkDown_loop].
  destruct (lookup_lt_is_Some_2 heap n Hlen) as [c Hc].
  destruct (sinkChoice_spec heap n c Hc) as (sw & -> & Hsw).
  cbn [mbind option_bind]. destruct sw as [s|]; [| by exists heap].
  destruct Hsw as (Hs & b & Hb & _).
  rewrite Hc. cbn [mbind option_bind]. rewrite Hb. cbn [mbind option_bind].
  apply lookup_lt_Some in Hb as Hsl.
  destruct (IH (<[s := c]> (<[n := b]> heap)) s) as (heap' & Hrun & Hperm).
  - rewrite !length_insert. lia.
  - rewrite !length_insert. lia.
  - exists heap'. split; [done |]. rewrite Hperm. by apply Permutation_insert_swap.
Qed.

(** X27.  On an array in any order, [push] and [pop] return, and they
    keep the items: [push] adds the pushed item and nothing else;
    [pop] on an empty array gives [null] and leaves it empty, and on
    any other array gives the item at the front and leaves the
    others. *)
Theorem MinHeap_methods_return_on_any_array (heap : list HeapItem) (val : HeapItem) :
  (∃ heap', MinHeap.push heap val = Some heap' ∧ heap' ≡ₚ val :: heap) ∧
  MinHeap.pop [] = Some (None, []) ∧
  (∀ first, heap !! 0 = Some first →
     ∃ heap', MinHeap.pop heap = Some (Some first, heap') ∧ first :: heap' ≡ₚ heap).
Proof.
  split_and!; [| done |].
  - unfold MinHeap.push, MinHeap._bubbleUp. rewrite length_app. cbn [length].
    replace (length heap + 1 - 1) with (length heap) by lia.
    destruct (bubbleUp_loop_returns (S (length heap)) (heap ++ [val]) (length heap))
      as (heap' & Hrun & Hperm); [lia | rewrite length_app; simpl; lia |].
    exists heap'. split; [done |]. rewrite Hperm. by rewrite Permutation_app_comm.
  - intros first Hfirst. unfold MinHeap.pop. rewrite Hfirst.
    destruct (last heap) as [end_|] eqn:Hlast;
      [| apply last_None in Hlast; by subst].
    apply last_Some in Hlast as [rest ->].
    rewrite removelast_last.
    destruct (0 <? length rest) eqn:Hrest.
    + apply Nat.ltb_lt in Hrest. unfold MinHeap._sinkDown.
      destruct (sinkDown_loop_returns (S (length (<[0 := end_]> rest)))
                  (<[0 := end_]> rest) 0) as (heap' & Hrun & Hperm).
      * lia.
      * rewrite length_insert. lia.
      * rewrite Hrun. cbn [mbind option_bind]. exists heap'. split; [done |].
        rewrite Hperm. destruct rest as [|x rest']; [simpl in Hrest; lia |].
        cbn in Hfirst. injection Hfirst as ->. cbn.
        rewrite (Permutation_app_comm (first :: rest') [end_]). cbn.
        apply perm_swap.
    + apply Nat.ltb_ge in Hrest. destruct rest; [| simpl in Hrest; lia].
      cbn in Hfirst. injection Hfirst as ->. by exists [].
Qed.

Lemma MinHeap_methods_return_on_any_array_witness :
  ∃ heap',
    MinHeap.pop [ {| h_id := "a"; h_dist := 3 |}; {| h_id := "b"; h_dist := 1 |} ]
      = Some (Some {| h_id := "a"; h_dist := 3 |}, heap') ∧
    {| h_id := "a"; h_dist := 3 |} :: heap'
      ≡ₚ [ {| h_id := "a"; h_dist := 3 |}; {| h_id := "b"; h_dist := 1 |} ].
Proof.
  apply (proj2 (proj2 (MinHeap_methods_return_on_any_array
           [ {| h_id := "a"; h_dist := 3 |}; {| h_id := "b"; h_dist := 1 |} ]
           {| h_id := "c"; h_dist := 0 |}))).
  reflexivity.
Defined.

(** ** What loadAllData stores *)

Lemma addNodes_nodes floor xCrop yOffset rs : ∀ nodes ids,
  (foldl (addNode floor xCrop yOffset) (nodes, ids) rs).1
    = nodes ++ (mkNode floor xCrop yOffset <$> rs).
Proof.
  induction rs as [|r rs IH]; intros nodes ids.
  - by rewrite app_nil_r.
  - cbn [foldl addNode]. rewrite IH. cbn [fmap list_fmap]. by rewrite <- app_assoc.
Qed.

Lemma loadFloor_nodes w offs crops acc c :
  (loadFloor w offs crops acc c).1.1 = acc.1.1 ++ floorNodes w offs crops c.
Proof.
  destruct acc as [[nodes ids] edges]. unfold loadFloor, floorNodes.
  destruct (fetchJson w c) as [data|]; [| by rewrite app_nil_r].
  pose proof (addNodes_nodes (fc_id c) (default 0%Q (crops !! fc_id c))
                (default 0%Q (offs !! fc_id c)) (fj_nodes data) nodes ids) as H.
  destruct (foldl _ (nodes, ids) (fj_nodes data)) as [nodes' ids']. exact H.
Qed.

Lemma loadFloors_nodes w offs crops cs : ∀ acc,
  (foldl (loadFloor w offs crops) acc cs).1.1
    = acc.1.1 ++ (cs ≫= floorNodes w offs crops).
Proof.
  induction cs as [|c cs IH]; intros acc.
  - by rewrite app_nil_r.
  - cbn [foldl]. rewrite IH, loadFloor_nodes. cbn [mbind list_bind].
    by rewrite <- app_assoc.
Qed.

(** The node list after [loadAllData]: floor by floor in the order of
    the configuration, the nodes of each file in the order of the file,
    each one laid out. *)
Lemma loadAllData_nodes cfg w e0 floors :
  globalNodes (loadAllData cfg w e0 floors)
    = placeNode (floorVisuals (loadAllData cfg w e0 floors))
        <$> (floors ≫= floorNodes w (floorOffsets (loadAllData cfg w e0 floors))
                                    (floorCropX (loadAllData cfg w e0 floors))).
Proof.
  unfold loadAllData.
  destruct (foldl (layoutStep _ _) _ _) as [[offs crops] currentY].
  pose proof (loadFloors_nodes w offs crops floors ([], ∅, [])) as Hn.
  destruct (foldl (loadFloor w offs crops) _ floors) as [[nodes ids] edges0].
  cbn [fst app] in Hn. unfold updateFloorLayout.
  destruct (layoutVisuals _ _ _) as [vis y]. cbn. by rewrite Hn.
Qed.

Lemma placeNode_originalId vis n : n_originalId (placeNode vis n) = n_originalId n.
Proof. unfold placeNode. by destruct (vis !! n_floorId n). Qed.

Lemma placeNode_name vis n : n_name (placeNode vis n) = n_name n.
Proof. unfold placeNode. by destruct (vis !! n_floorId n). Qed.

Lemma placeNode_baseX vis n : n_baseX (placeNode vis n) = n_baseX n.
Proof. unfold placeNode. by destruct (vis !! n_floorId n). Qed.

Lemma placeNode_localY vis n : n_localY (placeNode vis n) = n_localY n.
Proof. unfold placeNode. by destruct (vis !! n_floorId n). Qed.

Lemma floorNodes_length w offs crops floors :
  length (floors ≫= floorNodes w offs crops)
    = sum_list ((λ c, match fetchJson w c with
                      | Some data => length (fj_nodes data)
                      | None => 0
                      end) <$> floors).
Proof.
  induction floors as [|c floors IH]; [done |].
  cbn [mbind list_bind]. rewrite length_app, IH. cbn. f_equal.
  unfold floorNodes. destruct (fetchJson w c); [by rewrite length_fmap | done].
Qed.

(** X4.  After [loadAllData], the node list holds one node for each node
    of each floor file that was fetched, under the id
    [`${floor}_${id}`] and with the file's type and name, and it holds
    nothing else: a floor whose fetch failed gives no node. *)
Theorem loadAllData_stores_the_fetched_nodes cfg w e0 floors :
  (∀ c data r,
     c ∈ floors → fetchJson w c = Some data → r ∈ fj_nodes data →
     ∃ n, n ∈ globalNodes (loadAllData cfg w e0 floors) ∧
          n_id n = globalId (fc_id c) (rn_id r) ∧
          n_originalId n = rn_id r ∧ n_floorId n = fc_id c ∧
          n_type n = rn_type r ∧ n_name n = rn_name r ∧
          n_localY n = rn_y r) ∧
  (∀ n, n ∈ globalNodes (loadAllData cfg w e0 floors) →
     ∃ c data r,
       c ∈ floors ∧ fetchJson w c = Some data ∧ r ∈ fj_nodes data ∧
       n_id n = globalId (fc_id c) (rn_id r) ∧ n_floorId n = fc_id c) ∧
  length (globalNodes (loadAllData cfg w e0 floors))
    = sum_list ((λ c, match fetchJson w c with
                      | Some data => length (fj_nodes data)
                      | None => 0
                      end) <$> floors).
Proof.
  rewrite loadAllData_nodes.
  set (vis := floorVisuals _). set (offs := floorOffsets _). set (crops := floorCropX _).
  split_and!.
  - intros c data r Hc Hdata Hr.
    exists (placeNode vis (mkNode (fc_id c) (default 0%Q (crops !! fc_id c))
                             (default 0%Q (offs !! fc_id c)) r)).
    split.
    + apply list_elem_of_fmap_2, list_elem_of_bind. exists c. split; [| done].
      unfold floorNodes. rewrite Hdata. by apply list_elem_of_fmap_2.
    + by rewrite placeNode_id, placeNode_originalId, placeNode_floorId,
        placeNode_type, placeNode_name, placeNode_localY.
  - intros n (n0 & -> & (c & Hn0 & Hc)%list_elem_of_bind)%list_elem_of_fmap.
    unfold floorNodes in Hn0. destruct (fetchJson w c) as [data|] eqn:Hdata.
    + apply list_elem_of_fmap in Hn0 as (r & -> & Hr).
      exists c, data, r. by rewrite placeNode_id, placeNode_floorId.
    + by apply elem_of_nil in Hn0.
  - rewrite length_fmap. apply floorNodes_length.
Qed.

Lemma loadAllData_stores_the_fetched_nodes_witness :
  ∃ n, n ∈ globalNodes loadedVenue ∧
       n_id n = "1_b" ∧ n_originalId n = KStr "b" ∧ n_floorId n = 1%Z ∧
       n_type n = Some "room" ∧ n_name n = None ∧ n_localY n = 20%Q.
Proof.
  refine (proj1 (loadAllData_stores_the_fetched_nodes
                   oneFloor_config blocked_world loadStart (FLOORS oneFloor_config))
            (floorConf 1)
            {| fj_nodes := [roomNode "a"; roomNode "b"];
               fj_edges :=
                 [ {| re_from := KStr "a"; re_to := KStr "b"; re_dist := Some 5%Q;
                      re_barrierFreeBlocked := Some true |};
                   {| re_from := KStr "a"; re_to := KStr "nowhere"; re_dist := None;
                      re_barrierFreeBlocked := None |} ] |}
            (roomNode "b") _ _ _).
  - left.
  - reflexivity.
  - right. left.
Defined.

(** X5.  After [loadAllData], [getNode] resolves the id of every listed
    node, and what it returns for an id is a listed node that has this
    id; when no two listed nodes share an id, it returns the listed
    node itself. *)
Theorem getNode_resolves_loaded_ids cfg w e0 floors :
  (∀ n, n ∈ globalNodes (loadAllData cfg w e0 floors) →
     ∃ n', getNode (loadAllData cfg w e0 floors) (n_id n) = Some n' ∧ n_id n' = n_id n) ∧
  (∀ i n, getNode (loadAllData cfg w e0 floors) i = Some n →
     n_id n = i ∧ n ∈ globalNodes (loadAllData cfg w e0 floors)) ∧
  (NoDup (n_id <$> globalNodes (loadAllData cfg w e0 floors)) →
   ∀ n, n ∈ globalNodes (loadAllData cfg w e0 floors) →
     getNode (loadAllData cfg w e0 floors) (n_id n) = Some n).
Proof.
  destruct (loadAllData_shape cfg w e0 floors)
    as (nodes & ids & edges0 & vis & Hinv & Hn & Hi & _).
  assert (Hres : ∀ n, n ∈ globalNodes (loadAllData cfg w e0 floors) →
     ∃ n', getNode (loadAllData cfg w e0 floors) (n_id n) = Some n' ∧ n_id n' = n_id n).
  { intros n Hin. rewrite Hn in Hin.
    apply list_elem_of_fmap in Hin as (n0 & -> & Hin0).
    rewrite placeNode_id.
    apply (getNode_loaded nodes ids vis); [apply Hinv | done | done |].
    by apply (li_nodes _ _ _ _ Hinv). }
  assert (Hback : ∀ i n, getNode (loadAllData cfg w e0 floors) i = Some n →
     n_id n = i ∧ n ∈ globalNodes (loadAllData cfg w e0 floors)).
  { intros i n. unfold getNode. rewrite Hi, Hn.
    destruct (ids !! i) as [k|] eqn:Hk; [| done]. cbn [mbind option_bind].
    intros Hlk. split; [| by eapply list_elem_of_lookup_2].
    destruct (li_ids _ _ _ _ Hinv i k Hk) as (n0 & Hn0 & Hid).
    rewrite list_lookup_fmap, Hn0 in Hlk. injection Hlk as <-.
    by rewrite placeNode_id. }
  split_and!; [done | done |].
  intros Hnd n Hin. destruct (Hres n Hin) as (n' & Hget & Hid).
  rewrite Hget. f_equal.
  destruct (Hback _ _ Hget) as [_ Hin'].
  apply list_elem_of_lookup in Hin as [a Ha]. apply list_elem_of_lookup in Hin' as [b Hb].
  assert (a = b) as ->; [| by simplify_eq].
  apply (NoDup_lookup _ a b (n_id n) Hnd); rewrite list_lookup_fmap.
  - by rewrite Ha.
  - rewrite Hb. simpl. by rewrite Hid.
Qed.

Lemma getNode_resolves_loaded_ids_witness :
  ∃ n', getNode loadedVenue "1_a" = Some n' ∧ n_id n' = "1_a".
Proof.
  refine (proj1 (getNode_resolves_loaded_ids
                   oneFloor_config blocked_world loadStart (FLOORS oneFloor_config))
            (placeNode (floorVisuals loadedVenue) (mkNode 1 0 0 (roomNode "a"))) _).
  vm_compute. left.
Defined.

Lemma loadAllData_frame cfg w e1 e2 floors :
  accessibilityMode e1 = accessibilityMode e2 →
  path e1 = path e2 →
  startNode e1 = startNode e2 →
  loadAllData cfg w e1 floors = loadAllData cfg w e2 floors.
Proof.
  intros Ha Hp Hs. unfold loadAllData.
  destruct (foldl (layoutStep _ _) _ _) as [[offs crops] currentY].
  destruct (foldl (loadFloor w offs crops) _ floors) as [[nodes ids] edges0].
  unfold updateFloorLayout, layoutVisuals, buildGlobalGraph.
  cbn [floorsConfig images floorOffsets floorCropX totalHeight globalNodes globalEdges
       idMap adj floorVisuals accessibilityMode path startNode intermediateFloors head].
  by rewrite Ha, Hp, Hs.
Qed.

Lemma loadAllData_keeps cfg w e floors :
  accessibilityMode (loadAllData cfg w e floors) = accessibilityMode e ∧
  path (loadAllData cfg w e floors) = path e ∧
  startNode (loadAllData cfg w e floors) = startNode e.
Proof.
  unfold loadAllData.
  destruct (foldl (layoutStep _ _) _ _) as [[offs crops] currentY].
  destruct (foldl (loadFloor w offs crops) _ floors) as [[nodes ids] edges0].
  unfold updateFloorLayout. by destruct (layoutVisuals _ _ _).
Qed.

(** X28.  [loadAllData] replaces what the engine held: the engine it
    leaves depends on the engine before it through the mode, the
    stored route and the start marker only, and these it keeps; so
    loading the same data once more changes nothing, and no node or
    edge is stored twice. *)
Theorem loadAllData_replaces_the_graph cfg w e floors :
  loadAllData cfg w (loadAllData cfg w e floors) floors = loadAllData cfg w e floors ∧
  loadAllData cfg w e floors
    = loadAllData cfg w
        {| floorsConfig := []; images := ∅; floorOffsets := ∅; floorCropX := ∅;
           totalHeight := 0; globalNodes := []; globalEdges := []; idMap := ∅;
           adj := None; floorVisuals := ∅;
           accessibilityMode := accessibilityMode e;
           path := path e; startNode := startNode e |} floors ∧
  accessibilityMode (loadAllData cfg w e floors) = accessibilityMode e ∧
  path (loadAllData cfg w e floors) = path e ∧
  startNode (loadAllData cfg w e floors) = startNode e.
Proof.
  destruct (loadAllData_keeps cfg w e floors) as (Ha & Hp & Hs).
  split_and!; [| | done | done | done].
  - by apply loadAllData_frame.
  - by apply loadAllData_frame.
Qed.

(** ** The stack of floors after loading *)

Lemma Qmult_1_r_eq (h : Q) : (h * 1)%Q = h.
Proof.
  destruct h as [n d]. unfold Qmult. cbn [Qnum Qden].
  by rewrite Z.mul_1_r, Pos.mul_1_r.
Qed.

Lemma layoutStep_eq gap imgs offs crops y c :
  layoutStep gap imgs (offs, crops, y) c =
    (<[fc_id c := y]> offs, <[fc_id c := cropOf imgs (fc_id c)]> crops,
     (y + (baseHeightOf imgs (fc_id c) + gap))%Q).
Proof. done. Qed.

Lemma layout_advance gap imgs l : ∀ offs crops y,
  (foldl (layoutStep gap imgs) (offs, crops, y) l).2 = advance gap imgs y l.
Proof.
  induction l as [|c l IH]; intros offs crops y; [done |].
  cbn [foldl]. rewrite layoutStep_eq. apply IH.
Qed.

Lemma layout_untouched gap imgs l : ∀ offs crops y i,
  i ∉ (fc_id <$> l) →
  (foldl (layoutStep gap imgs) (offs, crops, y) l).1.1 !! i = offs !! i ∧
  (foldl (layoutStep gap imgs) (offs, crops, y) l).1.2 !! i = crops !! i.
Proof.
  induction l as [|c l IH]; intros offs crops y i Hi; [done |].
  cbn [foldl]. rewrite layoutStep_eq.
  cbn [fmap list_fmap] in Hi. apply not_elem_of_cons in Hi as [Hne Hi].
  destruct (IH (<[fc_id c := y]> offs) (<[fc_id c := cropOf imgs (fc_id c)]> crops)
              (y + (baseHeightOf imgs (fc_id c) + gap))%Q i Hi) as [-> ->].
  by rewrite !lookup_insert_ne.
Qed.

Lemma layout_at gap imgs pre c post offs crops y :
  fc_id c ∉ (fc_id <$> post) →
  (foldl (layoutStep gap imgs) (offs, crops, y) (pre ++ c :: post)).1.1 !! fc_id c
    = Some (advance gap imgs y pre).
Proof.
  intros Hc. rewrite foldl_app. cbn [foldl].
  pose proof (layout_advance gap imgs pre offs crops y) as Hy.
  destruct (foldl (layoutStep gap imgs) (offs, crops, y) pre) as [[offs1 crops1] y1].
  cbn [snd] in Hy. subst y1. rewrite layoutStep_eq.
  destruct (layout_untouched gap imgs post
              (<[fc_id c := advance gap imgs y pre]> offs1)
              (<[fc_id c := cropOf imgs (fc_id c)]> crops1)
              (advance gap imgs y pre + (baseHeightOf imgs (fc_id c) + gap))%Q
              (fc_id c) Hc) as [-> _].
  by rewrite lookup_insert_eq.
Qed.

Lemma layout_crops gap imgs l : ∀ offs crops y c,
  c ∈ l →
  (foldl (layoutStep gap imgs) (offs, crops, y) l).1.2 !! fc_id c
    = Some (cropOf imgs (fc_id c)).
Proof.
  induction l as [|d l IH]; intros offs crops y c Hc; [by apply elem_of_nil in Hc |].
  cbn [foldl]. rewrite layoutStep_eq.
  destruct (decide (fc_id c ∈ (fc_id <$> l))) as [Hid | Hid].
  - apply list_elem_of_fmap in Hid as (d' & Heq & Hd'). rewrite Heq. by apply IH.
  - apply elem_of_cons in Hc as [-> | Hc].
    + destruct (layout_untouched gap imgs l (<[fc_id d := y]> offs)
                  (<[fc_id d := cropOf imgs (fc_id d)]> crops)
                  (y + (baseHeightOf imgs (fc_id d) + gap))%Q (fc_id d) Hid) as [_ ->].
      by rewrite lookup_insert_eq.
    + exfalso. apply Hid. by apply list_elem_of_fmap_2.
Qed.

(** The layout of an empty path repeats the offsets of loading. *)
Lemma stack_repeats_layout gap imgs l : ∀ offs crops vis y,
  (∀ i yi, offs !! i = Some yi →
     vis !! i = Some {| fv_scale := 1; fv_opacity := 1; fv_y := yi |}) →
  (∀ i yi, (foldl (layoutStep gap imgs) (offs, crops, y) l).1.1 !! i = Some yi →
     (foldl (stackStep gap imgs []) (vis, y) l).1 !! i
       = Some {| fv_scale := 1; fv_opacity := 1; fv_y := yi |}) ∧
  (foldl (stackStep gap imgs []) (vis, y) l).2
    = (foldl (layoutStep gap imgs) (offs, crops, y) l).2.
Proof.
  induction l as [|c l IH]; intros offs crops vis y Hrel; [done |].
  cbn [foldl]. rewrite layoutStep_eq, stackStep_eq.
  assert (floorStyle gap [] (fc_id c) = (1, 1, gap)%Q) as ->.
  { unfold floorStyle. rewrite bool_decide_eq_false_2; [done |]. apply not_elem_of_nil. }
  cbn [fst snd]. rewrite Qmult_1_r_eq.
  apply IH. intros i yi. rewrite !lookup_insert. case_decide; [| by apply Hrel].
  by intros [= <-].
Qed.

Lemma advance_app gap imgs y l1 l2 :
  advance gap imgs y (l1 ++ l2) = advance gap imgs (advance gap imgs y l1) l2.
Proof. apply foldl_app. Qed.

Lemma advance_grows gap imgs l : ∀ y,
  (∀ c, c ∈ l → 0 <= baseHeightOf imgs (fc_id c) + gap)%Q →
  (y <= advance gap imgs y l)%Q.
Proof.
  induction l as [|c l IH]; intros y Hpos; [cbn; qlra |].
  cbn [advance foldl]. fold (advance gap imgs (y + (baseHeightOf imgs (fc_id c) + gap))%Q l).
  pose proof (IH (y + (baseHeightOf imgs (fc_id c) + gap))%Q
                (λ d Hd, Hpos d (list_elem_of_further _ _ _ Hd))).
  pose proof (Hpos c (list_elem_of_here _ _)). qlra.
Qed.

(** *** The order of the stack *)

Lemma insertFloor_sorted c l :
  StronglySorted (λ a b, (fc_id b <= fc_id a)%Z) l →
  StronglySorted (λ a b, (fc_id b <= fc_id a)%Z) (insertFloor c l).
Proof.
  induction 1 as [|d l Hs IH Hd]; cbn [insertFloor].
  - by repeat constructor.
  - destruct (fc_id c <? fc_id d)%Z eqn:Hcmp.
    + apply Z.ltb_lt in Hcmp. constructor; [done |].
      rewrite insertFloor_perm. constructor; [lia | done].
    + apply Z.ltb_ge in Hcmp. constructor; [by constructor |].
      constructor; [done |]. eapply Forall_impl; [exact Hd |]. simpl. intros; lia.
Qed.

Lemma sortFloors_sorted l :
  StronglySorted (λ a b, (fc_id b <= fc_id a)%Z) (sortFloors l).
Proof.
  unfold sortFloors. induction l as [|c l IH]; [constructor |].
  cbn [foldr]. by apply insertFloor_sorted.
Qed.

Lemma images_loaded (w : World) (floors : list FloorConf) i img :
  foldl (λ (m : gmap Z Image) c, <[fc_id c := loadImage w c]> m) ∅ floors !! i = Some img →
  ∃ c, c ∈ floors ∧ img = loadImage w c.
Proof.
  assert (H : ∀ m : gmap Z Image,
    (∀ img, m !! i = Some img → ∃ c, c ∈ floors ∧ img = loadImage w c) →
    ∀ l, l ⊆ floors →
    ∀ img, foldl (λ (m : gmap Z Image) c, <[fc_id c := loadImage w c]> m) m l !! i = Some img →
    ∃ c, c ∈ floors ∧ img = loadImage w c).
  { intros m Hm l. revert m Hm. induction l as [|c l IH]; intros m Hm Hsub img'; [apply Hm |].
    cbn [foldl]. apply IH.
    - intros img''. rewrite lookup_insert. case_decide; [| apply Hm].
      intros [= <-]. exists c. split; [| done]. apply Hsub. left.
    - intros x Hx. apply Hsub. by right. }
  apply (H ∅); [by intros ? ?%lookup_empty_Some | done].
Qed.

Lemma baseHeightOf_pos imgs i :
  (∀ img, imgs !! i = Some img → 0 <= img_height img)%Q →
  (0 < baseHeightOf imgs i)%Q.
Proof.
  intros H. unfold baseHeightOf. destruct (imgs !! i) as [img|]; [| done].
  specialize (H img eq_refl).
  destruct (Qeq_bool (img_height img) 0) eqn:E; [done |].
  apply Qeq_bool_neq in E. qlra.
Qed.

Lemma defaultGapOf_pos cfg : (0 <= FLOOR_GAP cfg)%Q → (0 < defaultGapOf cfg)%Q.
Proof.
  intros H. unfold defaultGapOf.
  destruct (Qeq_bool (FLOOR_GAP cfg) 0) eqn:E; [done |].
  apply Qeq_bool_neq in E. qlra.
Qed.

Lemma last_with_id (l : list FloorConf) i :
  i ∈ (fc_id <$> l) →
  ∃ pre d post, l = pre ++ d :: post ∧ fc_id d = i ∧ i ∉ (fc_id <$> post).
Proof.
  induction l as [|x l IH]; intros Hi; [by apply elem_of_nil in Hi |].
  destruct (decide (i ∈ (fc_id <$> l))) as [Hin | Hnin].
  - destruct (IH Hin) as (pre & d & post & -> & ? & ?).
    exists (x :: pre), d, post. done.
  - cbn in Hi. apply elem_of_cons in Hi as [-> | ?]; [| done].
    exists [], x, l. done.
Qed.

(** The engine fields that step 2 of [loadAllData] fills. *)
Lemma loadAllData_layout cfg w e0 floors :
  let imgs := foldl (λ (m : gmap Z Image) c, <[fc_id c := loadImage w c]> m) ∅ floors in
  let r := foldl (layoutStep (defaultGapOf cfg) imgs) (∅, ∅, 0%Q) (sortFloors floors) in
  images (loadAllData cfg w e0 floors) = imgs ∧
  floorOffsets (loadAllData cfg w e0 floors) = r.1.1 ∧
  floorCropX (loadAllData cfg w e0 floors) = r.1.2 ∧
  floorVisuals (loadAllData cfg w e0 floors)
    = (foldl (stackStep (defaultGapOf cfg) imgs [])
         (foldl (λ (m : gmap Z FloorVisual) f, <[fc_id f := defaultVisual]> m) ∅ (FLOORS cfg),
          0%Q) (sortFloors floors)).1 ∧
  totalHeight (loadAllData cfg w e0 floors)
    = (foldl (stackStep (defaultGapOf cfg) imgs [])
         (foldl (λ (m : gmap Z FloorVisual) f, <[fc_id f := defaultVisual]> m) ∅ (FLOORS cfg),
          0%Q) (sortFloors floors)).2.
Proof.
  intros imgs r. unfold loadAllData. fold imgs. fold r.
  destruct r as [[offs crops] currentY].
  destruct (foldl (loadFloor w offs crops) _ floors) as [[nodes ids] edges0].
  unfold updateFloorLayout, layoutVisuals. cbn [images floorsConfig buildGlobalGraph].
  cbn [intermediateFloors head].
  destruct (foldl (stackStep _ _ _) _ _) as [vis y]. done.
Qed.

(** X6.  After [loadAllData], each configured floor is drawn at full
    scale and opacity at its stacking offset, the total height is the
    height of the stack, and each node of a fetched file sits at the
    file's coordinates, shifted left by the crop of its floor and down
    by the offset of its floor. *)
Theorem loadAllData_places_nodes_at_the_offsets cfg w e0 floors :
  (∀ c, c ∈ floors →
     ∃ y, floorOffsets (loadAllData cfg w e0 floors) !! fc_id c = Some y ∧
          floorCropX (loadAllData cfg w e0 floors) !! fc_id c
            = Some (cropOf (images (loadAllData cfg w e0 floors)) (fc_id c)) ∧
          floorVisuals (loadAllData cfg w e0 floors) !! fc_id c
            = Some {| fv_scale := 1; fv_opacity := 1; fv_y := y |}) ∧
  totalHeight (loadAllData cfg w e0 floors)
    = advance (defaultGapOf cfg) (images (loadAllData cfg w e0 floors)) 0
        (sortFloors floors) ∧
  (∀ c data r,
     c ∈ floors → fetchJson w c = Some data → r ∈ fj_nodes data →
     ∃ n y, n ∈ globalNodes (loadAllData cfg w e0 floors) ∧
            n_id n = globalId (fc_id c) (rn_id r) ∧
            floorOffsets (loadAllData cfg w e0 floors) !! fc_id c = Some y ∧
            (n_x n == rn_x r - cropOf (images (loadAllData cfg w e0 floors)) (fc_id c))%Q ∧
            (n_y n == rn_y r + y)%Q).
Proof.
  pose proof (loadAllData_layout cfg w e0 floors) as Hlay. cbv zeta in Hlay.
  destruct Hlay as (Himg & Hoffs & Hcrops & Hvis & Htot).
  set (imgs := images (loadAllData cfg w e0 floors)) in *.
  rewrite <- Himg in *.
  pose proof (stack_repeats_layout (defaultGapOf cfg) imgs (sortFloors floors) ∅ ∅
                (foldl (λ (m : gmap Z FloorVisual) f, <[fc_id f := defaultVisual]> m)
                       ∅ (FLOORS cfg)) 0%Q) as [Hrel Hy].
  { by intros i yi ?%lookup_empty_Some. }
  rewrite <- Hvis, <- Hoffs in Hrel. rewrite <- Htot in Hy.
  assert (Hfl : ∀ c, c ∈ floors →
     ∃ y, floorOffsets (loadAllData cfg w e0 floors) !! fc_id c = Some y ∧
          floorCropX (loadAllData cfg w e0 floors) !! fc_id c = Some (cropOf imgs (fc_id c)) ∧
          floorVisuals (loadAllData cfg w e0 floors) !! fc_id c
            = Some {| fv_scale := 1; fv_opacity := 1; fv_y := y |}).
  { intros c Hc.
    assert (c ∈ sortFloors floors) as Hcs by (by rewrite sortFloors_perm).
    assert (∃ y, floorOffsets (loadAllData cfg w e0 floors) !! fc_id c = Some y) as [y Hyc].
    { rewrite Hoffs.
      destruct (last_with_id (sortFloors floors) (fc_id c))
        as (pre & d & post & Heq & Hid & Hlast); [by apply list_elem_of_fmap_2 |].
      rewrite <- Hid in Hlast.
      rewrite Heq, <- Hid. eexists. by apply layout_at. }
    exists y. split_and!; [done | | by apply Hrel].
    rewrite Hcrops. by apply layout_crops. }
  split_and!; [done | |].
  - rewrite Hy. apply layout_advance.
  - intros c data r Hc Hdata Hr.
    destruct (Hfl c Hc) as (y & Hyc & Hcrop & Hv).
    exists (placeNode (floorVisuals (loadAllData cfg w e0 floors))
              (mkNode (fc_id c) (cropOf imgs (fc_id c)) y r)), y.
    split_and!.
    + rewrite loadAllData_nodes. apply list_elem_of_fmap_2, list_elem_of_bind.
      exists c. split; [| done]. unfold floorNodes. rewrite Hdata, Hcrop, Hyc.
      by apply list_elem_of_fmap_2.
    + by rewrite placeNode_id.
    + done.
    + unfold placeNode. cbn [n_floorId mkNode]. rewrite Hv. cbn. qlra.
    + unfold placeNode. cbn [n_floorId mkNode]. rewrite Hv. cbn. qlra.
Qed.

Lemma loadAllData_places_nodes_at_the_offsets_witness :
  ∃ y, floorOffsets scenarioA !! 2%Z = Some y ∧
       floorCropX scenarioA !! 2%Z = Some (cropOf (images scenarioA) 2) ∧
       floorVisuals scenarioA !! 2%Z
         = Some {| fv_scale := 1; fv_opacity := 1; fv_y := y |}.
Proof.
  refine (proj1 (loadAllData_places_nodes_at_the_offsets
                   scenarioA_config scenarioA_world loadStart (FLOORS scenarioA_config))
            (floorConf 2) _).
  right. left.
Defined.

(** X7.  With floor ids that differ, image heights that are not negative
    and a gap that is not negative, [loadAllData] stacks a floor of a
    higher id above every floor of a lower id: the lower floor starts
    at least the height of the higher floor and the gap below the start
    of the higher floor. *)
Theorem loadAllData_stacks_higher_floors_above cfg w e0 floors c1 c2 :
  NoDup (fc_id <$> floors) →
  (∀ c, 0 <= img_height (loadImage w c))%Q →
  (0 <= FLOOR_GAP cfg)%Q →
  c1 ∈ floors → c2 ∈ floors → (fc_id c2 < fc_id c1)%Z →
  ∃ y1 y2,
    floorOffsets (loadAllData cfg w e0 floors) !! fc_id c1 = Some y1 ∧
    floorOffsets (loadAllData cfg w e0 floors) !! fc_id c2 = Some y2 ∧
    (0 <= y1)%Q ∧
    (y1 + baseHeightOf (images (loadAllData cfg w e0 floors)) (fc_id c1)
        + defaultGapOf cfg <= y2)%Q ∧
    (y1 < y2)%Q.
Proof.
  intros Hnd Himg Hgap Hc1 Hc2 Hlt.
  pose proof (loadAllData_layout cfg w e0 floors) as Hlay. cbv zeta in Hlay.
  destruct Hlay as (Himgs & Hoffs & _).
  set (imgs := images (loadAllData cfg w e0 floors)) in *.
  rewrite <- Himgs in Hoffs. set (gap := defaultGapOf cfg) in *.
  assert (Hh : ∀ i, (0 < baseHeightOf imgs i)%Q).
  { intros i. apply baseHeightOf_pos. intros img. rewrite Himgs.
    intros (c & _ & ->)%images_loaded. apply Himg. }
  assert (0 < gap)%Q as Hg by (by apply defaultGapOf_pos).
  assert (Hstep : ∀ (l : list FloorConf) c,
            c ∈ l → (0 <= baseHeightOf imgs (fc_id c) + gap)%Q).
  { intros l c _. pose proof (Hh (fc_id c)). qlra. }
  pose proof (sortFloors_sorted floors) as Hsorted.
  assert (NoDup (fc_id <$> sortFloors floors)) as Hnd' by (by rewrite sortFloors_perm).
  assert (c1 ∈ sortFloors floors) as Hs1 by (by rewrite sortFloors_perm).
  assert (c2 ∈ sortFloors floors) as Hs2 by (by rewrite sortFloors_perm).
  apply list_elem_of_split in Hs1 as (pre & rest & Heq).
  rewrite Heq in Hs2, Hsorted, Hnd'.
  assert (c2 ∈ rest) as Hrest.
  { apply elem_of_app in Hs2 as [Hpre | Hcons].
    - pose proof (StronglySorted_app_1_elem_of _ _ _ _ _ Hsorted Hpre
                    (list_elem_of_here _ _)) as Hle. simpl in Hle. lia.
    - apply elem_of_cons in Hcons as [-> | ?]; [lia | done]. }
  apply list_elem_of_split in Hrest as (mid & post & ->).
  rewrite fmap_app, fmap_cons, fmap_app, fmap_cons in Hnd'.
  apply NoDup_app in Hnd' as (_ & _ & Hnd').
  apply NoDup_cons in Hnd' as [Hn1 Hnd'].
  apply NoDup_app in Hnd' as (_ & _ & Hnd').
  apply NoDup_cons in Hnd' as [Hn2 _].
  exists (advance gap imgs 0 pre), (advance gap imgs 0 (pre ++ c1 :: mid)).
  assert (advance gap imgs 0 pre + baseHeightOf imgs (fc_id c1) + gap
            <= advance gap imgs 0 (pre ++ c1 :: mid))%Q as Hsep.
  { rewrite advance_app. cbn [advance foldl].
    fold (advance gap imgs (advance gap imgs 0 pre + (baseHeightOf imgs (fc_id c1) + gap))%Q mid).
    pose proof (advance_grows gap imgs mid
                  (advance gap imgs 0 pre + (baseHeightOf imgs (fc_id c1) + gap))%Q
                  (Hstep mid)). qlra. }
  pose proof (advance_grows gap imgs pre 0%Q (Hstep pre)) as H0.
  pose proof (Hh (fc_id c1)).
  split_and!.
  - rewrite Hoffs, Heq. apply layout_at.
    by rewrite fmap_app, fmap_cons.
  - rewrite Hoffs, Heq.
    replace (pre ++ c1 :: mid ++ c2 :: post) with ((pre ++ c1 :: mid) ++ c2 :: post)
      by (by rewrite <- app_assoc).
    by apply layout_at.
  - done.
  - done.
  - qlra.
Qed.

Lemma loadAllData_stacks_higher_floors_above_witness :
  ∃ y1 y2,
    floorOffsets scenarioA !! 3%Z = Some y1 ∧
    floorOffsets scenarioA !! 1%Z = Some y2 ∧
    (0 <= y1)%Q ∧
    (y1 + baseHeightOf (images scenarioA) 3 + defaultGapOf scenarioA_config <= y2)%Q ∧
    (y1 < y2)%Q.
Proof.
  apply (loadAllData_stacks_higher_floors_above
           scenarioA_config scenarioA_world loadStart (FLOORS scenarioA_config)
           (floorConf 3) (floorConf 1)).
  - apply (bool_decide_unpack _). vm_compute. exact I.
  - intros c. vm_compute. discriminate.
  - vm_compute. discriminate.
  - right. right. left.
  - left.
  - reflexivity.
Defined.

(** ** The edges and the adjacency cache after loading *)

Lemma loadAllData_store cfg w e0 floors :
  let e := loadAllData cfg w e0 floors in
  let st := loaded w e floors in
  globalNodes e = placeNode (floorVisuals e) <$> st.1.1 ∧
  idMap e = st.1.2 ∧
  globalEdges e = st.2 ++ transferEdges cfg st.1.1 ∧
  adj e = Some (buildAdj st.1.1 (st.2 ++ transferEdges cfg st.1.1)) ∧
  LoadInv floors st.1.1 st.1.2 st.2.
Proof.
  cbv zeta. unfold loaded.
  destruct (loadAllData_layout cfg w e0 floors) as (_ & -> & -> & _).
  unfold loadAllData.
  destruct (foldl (layoutStep _ _) _ _) as [[offs crops] currentY]. cbn [fst snd].
  pose proof (loadFloors_inv floors w offs crops floors ([], ∅, [])
                (λ x H, H) (LoadInv_empty floors)) as Hinv.
  destruct (foldl (loadFloor w offs crops) _ floors) as [[nodes ids] edges0].
  unfold updateFloorLayout.
  destruct (layoutVisuals _ _ _) as [vis y]. cbn. done.
Qed.

(** *** Edges of the floor files *)

Lemma addEdge_eq floor ids edges r :
  addEdge floor ids edges r =
    if bool_decide (is_Some (ids !! globalId floor (re_from r)))
       && bool_decide (is_Some (ids !! globalId floor (re_to r)))
    then edges ++ [floorEdge floor r] else edges.
Proof. done. Qed.

Lemma addEdges_elem floor ids rs : ∀ edges edge,
  edge ∈ foldl (addEdge floor ids) edges rs ↔
    edge ∈ edges ∨
    ∃ r, r ∈ rs ∧ edge = floorEdge floor r ∧
         is_Some (ids !! globalId floor (re_from r)) ∧
         is_Some (ids !! globalId floor (re_to r)).
Proof.
  induction rs as [|r rs IH]; intros edges edge.
  - cbn [foldl]. split; [by left |]. intros [? | (r & []%elem_of_nil & _)]. done.
  - cbn [foldl]. rewrite IH, addEdge_eq. split.
    + intros [Hin | (r' & Hr' & ? & ? & ?)].
      * destruct (bool_decide (is_Some (ids !! globalId floor (re_from r)))) eqn:E1;
          [| by left].
        destruct (bool_decide (is_Some (ids !! globalId floor (re_to r)))) eqn:E2;
          [| by left].
        cbn [andb] in Hin. apply elem_of_app in Hin as [? | ->%list_elem_of_singleton].
        -- by left.
        -- apply bool_decide_eq_true in E1, E2. right. exists r.
           split_and!; [left | done | done | done].
      * right. exists r'. split_and!; [by right | done | done | done].
    + intros [Hin | (r' & Hr' & -> & H1 & H2)].
      * left. destruct (_ && _); [| done]. apply elem_of_app. by left.
      * apply elem_of_cons in Hr' as [-> | Hr'].
        -- left. rewrite !bool_decide_eq_true_2 by done. cbn [andb].
           apply elem_of_app. right. by apply list_elem_of_singleton.
        -- right. exists r'. done.
Qed.

Lemma addNodes_ids floor xCrop yOffset rs : ∀ nodes ids i,
  is_Some ((foldl (addNode floor xCrop yOffset) (nodes, ids) rs).2 !! i) ↔
    is_Some (ids !! i) ∨ ∃ a, a ∈ rs ∧ i = globalId floor (rn_id a).
Proof.
  induction rs as [|r rs IH]; intros nodes ids i.
  - cbn [foldl snd]. split; [by left |]. intros [? | (a & []%elem_of_nil & _)]. done.
  - cbn [foldl addNode]. rewrite IH. cbn [mkNode n_id].
    rewrite lookup_insert. split.
    + intros [Hin | (a & Ha & ->)].
      * case_decide as Hi; [| by left]. right. exists r. split; [left | done].
      * right. exists a. split; [by right | done].
    + intros [Hin | (a & Ha & ->)].
      * left. by case_decide.
      * apply elem_of_cons in Ha as [-> | Ha].
        -- left. by rewrite decide_True.
        -- right. by exists a.
Qed.

(** The edges one floor file contributes. *)
Lemma loadFloor_edges w offs crops nodes ids edges c edge :
  edge ∈ (loadFloor w offs crops (nodes, ids, edges) c).2 ↔
    edge ∈ edges ∨
    ∃ data r, fetchJson w c = Some data ∧ r ∈ fj_edges data ∧
              edge = floorEdge (fc_id c) r ∧
              (is_Some (ids !! e_from edge) ∨
               ∃ a, a ∈ fj_nodes data ∧ e_from edge = globalId (fc_id c) (rn_id a)) ∧
              (is_Some (ids !! e_to edge) ∨
               ∃ b, b ∈ fj_nodes data ∧ e_to edge = globalId (fc_id c) (rn_id b)).
Proof.
  unfold loadFloor. destruct (fetchJson w c) as [data|].
  - pose proof (addNodes_ids (fc_id c) (default 0%Q (crops !! fc_id c))
                  (default 0%Q (offs !! fc_id c)) (fj_nodes data) nodes ids) as Hids.
    destruct (foldl _ (nodes, ids) (fj_nodes data)) as [nodes' ids']. cbn [snd] in *.
    rewrite addEdges_elem. split.
    + intros [? | (r & Hr & -> & H1 & H2)]; [by left |].
      right. exists data, r. rewrite <- !Hids. done.
    + intros [? | (data' & r & [= <-] & Hr & -> & H1 & H2)]; [by left |].
      right. exists r. rewrite !Hids. done.
  - cbn [snd]. split; [by left |]. by intros [? | (? & ? & ? & _)].
Qed.

Lemma loadFloors_edges_grow w offs crops cs : ∀ acc edge,
  edge ∈ acc.2 → edge ∈ (foldl (loadFloor w offs crops) acc cs).2.
Proof.
  induction cs as [|c cs IH]; intros acc edge Hin; [done |].
  cbn [foldl]. apply IH. destruct acc as [[nodes ids] edges].
  apply loadFloor_edges. by left.
Qed.

(** Where the stored edges of the floor files come from. *)
Lemma loadFloors_edges_from w offs crops cs : ∀ acc edge,
  edge ∈ (foldl (loadFloor w offs crops) acc cs).2 →
  edge ∈ acc.2 ∨
  ∃ c data r, c ∈ cs ∧ fetchJson w c = Some data ∧ r ∈ fj_edges data ∧
              edge = floorEdge (fc_id c) r.
Proof.
  induction cs as [|c cs IH]; intros acc edge Hin; [by left |].
  cbn [foldl] in Hin. apply IH in Hin as [Hin | (c' & data & r & ? & ? & ? & ?)].
  - destruct acc as [[nodes ids] edges].
    apply loadFloor_edges in Hin as [? | (data & r & ? & ? & ? & _)]; [by left |].
    right. exists c, data, r. split_and!; [left | done | done | done].
  - right. exists c', data, r. split_and!; [by right | done | done | done].
Qed.

(** An edge of a file whose two ends are nodes of the file is stored. *)
Lemma loadFloors_edges_has w offs crops cs : ∀ acc c data r a b,
  c ∈ cs → fetchJson w c = Some data → r ∈ fj_edges data →
  a ∈ fj_nodes data → globalId (fc_id c) (re_from r) = globalId (fc_id c) (rn_id a) →
  b ∈ fj_nodes data → globalId (fc_id c) (re_to r) = globalId (fc_id c) (rn_id b) →
  floorEdge (fc_id c) r ∈ (foldl (loadFloor w offs crops) acc cs).2.
Proof.
  induction cs as [|d cs IH]; intros acc c data r a b Hc Hdata Hr Ha Hfrom Hb Hto;
    [by apply elem_of_nil in Hc |].
  cbn [foldl]. apply elem_of_cons in Hc as [-> | Hc].
  - apply loadFloors_edges_grow. destruct acc as [[nodes ids] edges].
    apply loadFloor_edges. right. exists data, r. split_and!; [done | done | done | |].
    + right. by exists a.
    + right. by exists b.
  - by apply (IH _ c data r a b).
Qed.

(** *** Transfer edges *)

Lemma filter_positions {A} (P : A → Prop) `{∀ x, Decision (P x)} (l : list A) :
  ∀ l1 a l2 b l3,
  filter P l = l1 ++ a :: l2 ++ b :: l3 →
  ∃ i j, i < j ∧ l !! i = Some a ∧ l !! j = Some b ∧ P a ∧ P b.
Proof.
  induction l as [|x l IH]; intros l1 a l2 b l3 Heq.
  - by destruct l1.
  - rewrite filter_cons in Heq. destruct (decide (P x)) as [Hx | Hx].
    + destruct l1 as [|y l1].
      * cbn [app] in Heq. injection Heq as -> Heq.
        assert (b ∈ filter P l) as Hb.
        { rewrite Heq. apply elem_of_app. right. left. }
        apply list_elem_of_filter in Hb as [Pb Hb].
        apply list_elem_of_lookup in Hb as [j Hj].
        exists 0, (S j). split_and!; [lia | done | done | done | done].
      * cbn [app] in Heq. injection Heq as -> Heq.
        destruct (IH _ _ _ _ _ Heq) as (i & j & ? & ? & ? & ? & ?).
        exists (S i), (S j). split_and!; [lia | done | done | done | done].
    + destruct (IH _ _ _ _ _ Heq) as (i & j & ? & ? & ? & ? & ?).
      exists (S i), (S j). split_and!; [lia | done | done | done | done].
Qed.

Lemma transferEdge_placed cfg vis n1 n2 :
  transferEdge cfg (placeNode vis n1) (placeNode vis n2) = transferEdge cfg n1 n2.
Proof.
  unfold transferEdge, floorDistOf, transferTypeOf.
  by rewrite !placeNode_id, !placeNode_floorId, !placeNode_type.
Qed.

Lemma transferEdge_expected cfg n1 n2 :
  transferEdge cfg n1 n2 = expectedTransferEdge (transferFloorDistance cfg n1 n2) n1 n2.
Proof. unfold transferEdge. by rewrite floorDistOf_spec. Qed.

(** Every stored edge is an edge of a fetched file or a transfer edge. *)
Lemma loaded_edge_cases cfg w e0 floors edge :
  edge ∈ globalEdges (loadAllData cfg w e0 floors) →
  (∃ c data r,
     c ∈ floors ∧ fetchJson w c = Some data ∧ r ∈ fj_edges data ∧
     edge = floorEdge (fc_id c) r) ∨
  (∃ key i j n1 n2,
     i < j ∧
     globalNodes (loadAllData cfg w e0 floors) !! i = Some n1 ∧
     globalNodes (loadAllData cfg w e0 floors) !! j = Some n2 ∧
     connectionKey n1 = Some key ∧ connectionKey n2 = Some key ∧
     edge = expectedTransferEdge (transferFloorDistance cfg n1 n2) n1 n2).
Proof.
  pose proof (loadAllData_store cfg w e0 floors) as Hst. cbv zeta in Hst.
  destruct Hst as (Hn & Hi & He & Ha & Hinv). rewrite He.
  intros [Hin | Hin]%elem_of_app.
  - left. apply loadFloors_edges_from in Hin as [[]%elem_of_nil | H]. exact H.
  - right. apply transferEdges_elem in Hin as (key & l1 & n1 & l2 & n2 & l3 & Hg & ->).
    apply filter_positions in Hg as (i & j & Hij & Hi1 & Hj2 & Hk1 & Hk2).
    exists key, i, j, (placeNode (floorVisuals (loadAllData cfg w e0 floors)) n1),
      (placeNode (floorVisuals (loadAllData cfg w e0 floors)) n2).
    rewrite Hn, !list_lookup_fmap, Hi1, Hj2, !placeNode_connectionKey.
    split_and!; [done | done | done | done | done |].
    by rewrite <- transferEdge_expected, transferEdge_placed.
Qed.

(** X8.  After [loadAllData], an edge of a floor file whose two ends are
    nodes of that file is stored under the prefixed ids, with the
    file's weight or 1 when the file gives none; and every stored edge
    is either such an edge of a fetched file, or a transfer edge that
    joins two listed nodes of one connection key, the first listed
    before the second. *)
Theorem loadAllData_stores_floor_and_transfer_edges cfg w e0 floors :
  (∀ c data r a b,
     c ∈ floors → fetchJson w c = Some data → r ∈ fj_edges data →
     a ∈ fj_nodes data → globalId (fc_id c) (re_from r) = globalId (fc_id c) (rn_id a) →
     b ∈ fj_nodes data → globalId (fc_id c) (re_to r) = globalId (fc_id c) (rn_id b) →
     {| e_from := globalId (fc_id c) (re_from r);
        e_to := globalId (fc_id c) (re_to r);
        e_dist := default 1%Q (re_dist r);
        e_type := None;
        e_floorId := Some (fc_id c) |} ∈ globalEdges (loadAllData cfg w e0 floors)) ∧
  (∀ edge, edge ∈ globalEdges (loadAllData cfg w e0 floors) →
     (∃ c data r,
        c ∈ floors ∧ fetchJson w c = Some data ∧ r ∈ fj_edges data ∧
        edge = {| e_from := globalId (fc_id c) (re_from r);
                  e_to := globalId (fc_id c) (re_to r);
                  e_dist := default 1%Q (re_dist r);
                  e_type := None;
                  e_floorId := Some (fc_id c) |}) ∨
     (∃ key i j n1 n2,
        i < j ∧
        globalNodes (loadAllData cfg w e0 floors) !! i = Some n1 ∧
        globalNodes (loadAllData cfg w e0 floors) !! j = Some n2 ∧
        connectionKey n1 = Some key ∧ connectionKey n2 = Some key ∧
        edge = expectedTransferEdge (transferFloorDistance cfg n1 n2) n1 n2)).
Proof.
  split.
  - pose proof (loadAllData_store cfg w e0 floors) as Hst. cbv zeta in Hst.
    destruct Hst as (Hn & Hi & He & Ha & Hinv). rewrite He.
    intros c data r a b Hc Hdata Hr Hain Hfrom Hbin Hto.
    apply elem_of_app. left.
    apply (loadFloors_edges_has _ _ _ _ _ c data r a b); done.
  - apply loaded_edge_cases.
Qed.

Lemma loadAllData_stores_floor_and_transfer_edges_witness :
  {| e_from := "1_a"; e_to := "1_b"; e_dist := 5;
     e_type := None; e_floorId := Some 1%Z |} ∈ globalEdges loadedVenue.
Proof.
  refine (proj1 (loadAllData_stores_floor_and_transfer_edges
                   oneFloor_config blocked_world loadStart (FLOORS oneFloor_config))
            (floorConf 1)
            {| fj_nodes := [roomNode "a"; roomNode "b"];
               fj_edges :=
                 [ {| re_from := KStr "a"; re_to := KStr "b"; re_dist := Some 5%Q;
                      re_barrierFreeBlocked := Some true |};
                   {| re_from := KStr "a"; re_to := KStr "nowhere"; re_dist := None;
                      re_barrierFreeBlocked := None |} ] |}
            {| re_from := KStr "a"; re_to := KStr "b"; re_dist := Some 5%Q;
               re_barrierFreeBlocked := Some true |}
            (roomNode "a") (roomNode "b") _ _ _ _ _ _ _).
  - left.
  - reflexivity.
  - left.
  - left.
  - reflexivity.
  - right. left.
  - reflexivity.
Defined.

(** *** The adjacency cache *)

Lemma adj_push_has_inv k a m k' a' :
  adjHas (adj_push k a m) k' a' → (k' = k ∧ a' = a) ∨ adjHas m k' a'.
Proof.
  unfold adjHas, adj_push. intros (l & Hl & Hin). revert Hl.
  rewrite lookup_insert. case_decide as Hk.
  - intros [= <-]. apply elem_of_app in Hin as [Hin | ->%list_elem_of_singleton].
    + right. subst k'. destruct (m !! k) as [l|] eqn:E; [| by apply elem_of_nil in Hin].
      by exists l.
    + by left.
  - intros Hl. right. by exists l.
Qed.

Lemma adj_push_keys k a m k' :
  is_Some (adj_push k a m !! k') ↔ k' = k ∨ is_Some (m !! k').
Proof.
  unfold adj_push. rewrite lookup_insert. case_decide as Hk.
  - subst. split; [by left | done].
  - split; [by right | by intros [? | ?]].
Qed.

Lemma addAdjs_has_inv edges : ∀ m k a,
  adjHas (foldl addAdj m edges) k a →
  adjHas m k a ∨
  ∃ edge, edge ∈ edges ∧
    ((k = e_from edge ∧ a = adjEntry (e_to edge) edge) ∨
     (k = e_to edge ∧ a = adjEntry (e_from edge) edge)).
Proof.
  induction edges as [|e edges IH]; intros m k a Hin; [by left |].
  cbn [foldl] in Hin. apply IH in Hin as [Hin | (edge & ? & ?)].
  - unfold addAdj in Hin.
    apply adj_push_has_inv in Hin as [[-> ->] | Hin].
    { right. exists e. split; [left | by right]. }
    apply adj_push_has_inv in Hin as [[-> ->] | Hin].
    { right. exists e. split; [left | by left]. }
    by left.
  - right. exists edge. split; [by right | done].
Qed.

Lemma addAdjs_keys edges : ∀ m k,
  is_Some (foldl addAdj m edges !! k) ↔
    is_Some (m !! k) ∨ ∃ edge, edge ∈ edges ∧ (k = e_from edge ∨ k = e_to edge).
Proof.
  induction edges as [|e edges IH]; intros m k.
  - cbn [foldl]. split; [by left |]. intros [? | (? & []%elem_of_nil & _)]. done.
  - cbn [foldl]. rewrite IH. unfold addAdj. rewrite !adj_push_keys. split.
    + intros [[-> | [-> | ?]] | (edge & ? & ?)].
      * right. exists e. split; [left | by right].
      * right. exists e. split; [left | by left].
      * by left.
      * right. exists edge. split; [by right | done].
    + intros [? | (edge & [-> | ?]%elem_of_cons & Hk)].
      * left. right. by right.
      * left. destruct Hk as [-> | ->]; [right; by left | by left].
      * right. by exists edge.
Qed.

Lemma nodeKeys_keys (nodes : list Node) : ∀ (m : gmap string (list AdjEntry)) k,
  is_Some (foldl (λ m n, <[n_id n := []]> m) m nodes !! k) ↔
    is_Some (m !! k) ∨ ∃ n, n ∈ nodes ∧ k = n_id n.
Proof.
  induction nodes as [|n nodes IH]; intros m k.
  - cbn [foldl]. split; [by left |]. intros [? | (? & []%elem_of_nil & _)]. done.
  - cbn [foldl]. rewrite IH, lookup_insert. split.
    + intros [H | (n' & ? & ?)].
      * case_decide; [| by left]. right. exists n. split; [left | done].
      * right. exists n'. split; [by right | done].
    + intros [? | (n' & [-> | ?]%elem_of_cons & ->)].
      * left. by case_decide.
      * left. by rewrite decide_True.
      * right. by exists n'.
Qed.

Lemma nodeKeys_empty (nodes : list Node) : ∀ (m : gmap string (list AdjEntry)) k a,
  adjHas (foldl (λ m n, <[n_id n := []]> m) m nodes) k a → adjHas m k a.
Proof.
  induction nodes as [|n nodes IH]; intros m k a Hin; [done |].
  cbn [foldl] in Hin. apply IH in Hin as (l & Hl & Hin).
  rewrite lookup_insert in Hl. case_decide.
  - injection Hl as <-. by apply elem_of_nil in Hin.
  - by exists l.
Qed.

(** The keys and the entries of a built adjacency cache. *)
Lemma buildAdj_keys nodes edges k :
  is_Some (buildAdj nodes edges !! k) ↔
    (∃ n, n ∈ nodes ∧ k = n_id n) ∨
    ∃ edge, edge ∈ edges ∧ (k = e_from edge ∨ k = e_to edge).
Proof.
  unfold buildAdj. rewrite addAdjs_keys, nodeKeys_keys, lookup_empty.
  split; [intros [[[]%is_Some_None | ?] | ?] | intros [? | ?]]; auto.
Qed.

Lemma buildAdj_has_inv nodes edges k a :
  adjHas (buildAdj nodes edges) k a →
  ∃ edge, edge ∈ edges ∧
    ((k = e_from edge ∧ a = adjEntry (e_to edge) edge) ∨
     (k = e_to edge ∧ a = adjEntry (e_from edge) edge)).
Proof.
  unfold buildAdj. intros [Hin | H]%addAdjs_has_inv; [| done].
  apply nodeKeys_empty in Hin as (l & Hl & _). by rewrite lookup_empty in Hl.
Qed.

(** The adjacency cache of a loaded engine. *)
Lemma loaded_adjacency cfg w e0 floors :
  ∃ g, adj (loadAllData cfg w e0 floors) = Some g ∧
    (∀ n, n ∈ globalNodes (loadAllData cfg w e0 floors) → is_Some (g !! n_id n)) ∧
    (∀ k, is_Some (g !! k) → is_Some (getNode (loadAllData cfg w e0 floors) k)) ∧
    (∀ k a, adjHas g k a →
       is_Some (getNode (loadAllData cfg w e0 floors) (a_to a)) ∧
       ∃ edge, edge ∈ globalEdges (loadAllData cfg w e0 floors) ∧
               a_dist a = e_dist edge ∧ a_type a = e_type edge ∧
               ((k = e_from edge ∧ a_to a = e_to edge) ∨
                (k = e_to edge ∧ a_to a = e_from edge))).
Proof.
  pose proof (loadAllData_store cfg w e0 floors) as Hst. cbv zeta in Hst.
  destruct Hst as (Hn & Hi & He & Ha & Hinv).
  set (st := loaded w (loadAllData cfg w e0 floors) floors) in *.
  assert (Hres : ∀ i, is_Some (st.1.2 !! i) →
                      is_Some (getNode (loadAllData cfg w e0 floors) i)).
  { intros i Hsome.
    destruct (getNode_loaded st.1.1 st.1.2 (floorVisuals (loadAllData cfg w e0 floors))
                (loadAllData cfg w e0 floors) i) as (n & -> & _); try done.
    apply Hinv. }
  assert (Hends : ∀ edge, edge ∈ st.2 ++ transferEdges cfg st.1.1 →
            is_Some (st.1.2 !! e_from edge) ∧ is_Some (st.1.2 !! e_to edge)).
  { intros edge [Hin | Hin]%elem_of_app; [by apply (li_edges _ _ _ _ Hinv) |].
    apply transferEdge_endpoints in Hin as (n1 & n2 & H1 & H2 & ->).
    split; by apply (li_nodes _ _ _ _ Hinv). }
  eexists. split; [exact Ha |]. split_and!.
  - intros n Hin. rewrite Hn in Hin. apply list_elem_of_fmap in Hin as (n0 & -> & Hin).
    rewrite placeNode_id. apply buildAdj_keys. left. by exists n0.
  - intros k [(n & Hin & ->) | (edge & Hin & Hk)]%buildAdj_keys.
    + apply Hres. by apply (li_nodes _ _ _ _ Hinv).
    + apply Hres. destruct (Hends edge Hin). by destruct Hk as [-> | ->].
  - intros k a (edge & Hin & Hk)%buildAdj_has_inv.
    destruct (Hends edge Hin) as [H1 H2]. split.
    + apply Hres. by destruct Hk as [[_ ->] | [_ ->]].
    + exists edge. rewrite He. split; [done |].
      destruct Hk as [[-> ->] | [-> ->]]; split_and!; auto.
Qed.

(** X9.  After [loadAllData], the adjacency cache has a key for every
    listed node and no key that [getNode] does not resolve; each of its
    entries is one direction of a stored edge, with the weight and the
    type of that edge, and leads to an id that [getNode] resolves. *)
Theorem adjacency_cache_holds_the_edges_only cfg w e0 floors :
  ∃ g, adj (loadAllData cfg w e0 floors) = Some g ∧
    (∀ n, n ∈ globalNodes (loadAllData cfg w e0 floors) → is_Some (g !! n_id n)) ∧
    (∀ k, is_Some (g !! k) → is_Some (getNode (loadAllData cfg w e0 floors) k)) ∧
    (∀ k a, adjHas g k a →
       is_Some (getNode (loadAllData cfg w e0 floors) (a_to a)) ∧
       ∃ edge, edge ∈ globalEdges (loadAllData cfg w e0 floors) ∧
               a_dist a = e_dist edge ∧ a_type a = e_type edge ∧
               ((k = e_from edge ∧ a_to a = e_to edge) ∨
                (k = e_to edge ∧ a_to a = e_from edge))).
Proof. apply loaded_adjacency. Qed.

Lemma adjacency_cache_holds_the_edges_only_witness :
  ∃ g, adj loadedVenue = Some g ∧ is_Some (g !! "1_a").
Proof.
  destruct (adjacency_cache_holds_the_edges_only
              oneFloor_config blocked_world loadStart (FLOORS oneFloor_config))
    as (g & Hg & Hkeys & _).
  exists g. split; [exact Hg |].
  apply (Hkeys (placeNode (floorVisuals loadedVenue) (mkNode 1 0 0 (roomNode "a")))).
  vm_compute. left.
Defined.

(** ** Laying out again *)

Lemma getNode_placed cfg e p i :
  getNode (updateFloorLayout cfg e p) i
    = placeNode (layoutVisuals cfg e p).1 <$> getNode e i.
Proof.
  unfold getNode, updateFloorLayout. destruct (layoutVisuals cfg e p) as [vis y].
  cbn [idMap globalNodes fst]. destruct (idMap e !! i) as [k|]; [| done].
  cbn [mbind option_bind]. by rewrite list_lookup_fmap.
Qed.

Lemma intermediateFloors_placed cfg e p q :
  intermediateFloors cfg (updateFloorLayout cfg e p) q = intermediateFloors cfg e q.
Proof.
  unfold intermediateFloors. destruct (head q) as [s|]; [| done].
  destruct (last q) as [t|]; [| done]. rewrite !getNode_placed.
  destruct (getNode e s) as [n1|]; [| done].
  destruct (getNode e t) as [n2|]; [| done].
  cbn [fmap option_fmap option_map]. by rewrite !placeNode_floorId.
Qed.

Lemma layoutVisuals_placed cfg e p q :
  layoutVisuals cfg (updateFloorLayout cfg e p) q = layoutVisuals cfg e q.
Proof.
  unfold layoutVisuals. rewrite intermediateFloors_placed.
  unfold updateFloorLayout. by destruct (layoutVisuals cfg e p).
Qed.

(** The floors that have a visual do not depend on the path. *)
Lemma layoutVisuals_domain cfg e p i :
  (layoutVisuals cfg e p).1 !! i = None ↔
    (i ∉ (fc_id <$> FLOORS cfg)) ∧ (i ∉ (fc_id <$> floorsConfig e)).
Proof.
  unfold layoutVisuals.
  set (acc := (foldl (λ (m : gmap Z FloorVisual) f, <[fc_id f := defaultVisual]> m)
                     ∅ (FLOORS cfg), 0%Q)).
  assert (Hdef : acc.1 !! i = None ↔ i ∉ (fc_id <$> FLOORS cfg)).
  { unfold acc. cbn [fst]. split.
    - intros Hnone (f & -> & Hf)%list_elem_of_fmap.
      by rewrite default_visuals_lookup in Hnone.
    - intros Hnot.
      assert (H : ∀ (l : list FloorConf) (m : gmap Z FloorVisual),
                i ∉ (fc_id <$> l) → m !! i = None →
                foldl (λ (m : gmap Z FloorVisual) f, <[fc_id f := defaultVisual]> m) m l !! i
                  = None).
      { induction l as [|f l IH]; intros m Hl Hm; [done |].
        cbn [foldl]. cbn [fmap list_fmap] in Hl. apply not_elem_of_cons in Hl as [? ?].
        apply IH; [done |]. by rewrite lookup_insert_ne. }
      by apply H. }
  destruct (decide (i ∈ (fc_id <$> sortFloors (floorsConfig e)))) as [Hin | Hnin].
  - apply list_elem_of_fmap in Hin as (c & -> & Hc).
    destruct (stack_styles (defaultGapOf cfg) (images e) (intermediateFloors cfg e p)
                (sortFloors (floorsConfig e)) acc c Hc) as (v & -> & _).
    split; [done |]. intros [_ Hno]. exfalso. apply Hno.
    apply list_elem_of_fmap_2. by rewrite <- sortFloors_perm.
  - rewrite stack_untouched by done. rewrite Hdef. split.
    + intros ?. split; [done |]. by rewrite <- sortFloors_perm.
    + by intros [? _].
Qed.

Lemma placeNode_placed vis1 vis2 n :
  (vis2 !! n_floorId n = None → vis1 !! n_floorId n = None) →
  placeNode vis2 (placeNode vis1 n) = placeNode vis2 n.
Proof.
  intros Hdom. unfold placeNode at 1 3. rewrite placeNode_floorId.
  destruct (vis2 !! n_floorId n) as [v2|].
  - unfold placeNode. by destruct (vis1 !! n_floorId n).
  - unfold placeNode. by rewrite Hdom.
Qed.

(** X10.  The layout depends on the path of the last call only: laying
    out for a path after any earlier layout gives the engine that
    laying out for this path at once gives. *)
Theorem updateFloorLayout_forgets_earlier_layouts cfg e p q :
  updateFloorLayout cfg (updateFloorLayout cfg e p) q = updateFloorLayout cfg e q.
Proof.
  pose proof (layoutVisuals_placed cfg e p q) as Hlv.
  pose proof (λ i, layoutVisuals_domain cfg e p i) as Hd1.
  pose proof (λ i, layoutVisuals_domain cfg e q i) as Hd2.
  remember (updateFloorLayout cfg e p) as e1 eqn:He1.
  unfold updateFloorLayout. rewrite Hlv.
  destruct (layoutVisuals cfg e q) as [vis2 y2].
  subst e1. unfold updateFloorLayout.
  destruct (layoutVisuals cfg e p) as [vis1 y1]. cbn in *.
  f_equal. rewrite <- list_fmap_compose. apply list_fmap_ext.
  intros _ n _. cbn. apply placeNode_placed.
  intros Hnone. apply Hd1. by apply Hd2.
Qed.

(** *** Routes and the layout *)

Lemma filter_placed_ids (P : Node → Prop) `{∀ n, Decision (P n)} vis (nodes : list Node) :
  (∀ n, P (placeNode vis n) ↔ P n) →
  n_id <$> filter P (placeNode vis <$> nodes) = n_id <$> filter P nodes.
Proof.
  intros HP. induction nodes as [|n nodes IH]; [done |].
  cbn [fmap list_fmap]. rewrite !filter_cons.
  destruct (decide (P (placeNode vis n))) as [H1 | H1];
    destruct (decide (P n)) as [H2 | H2].
  - cbn [fmap list_fmap]. rewrite placeNode_id. f_equal. apply IH.
  - exfalso. by apply H2, HP.
  - exfalso. by apply H1, HP.
  - apply IH.
Qed.

Lemma targetIdsOf_placed cfg e p endId :
  targetIdsOf (updateFloorLayout cfg e p) endId = targetIdsOf e endId.
Proof.
  unfold targetIdsOf. rewrite getNode_placed.
  assert (globalNodes (updateFloorLayout cfg e p)
            = placeNode (layoutVisuals cfg e p).1 <$> globalNodes e) as ->
    by apply updateFloorLayout_nodes.
  destruct (_ || _).
  - destruct (String.eqb endId "NEAREST_VENDING").
    + f_equal. apply filter_placed_ids. intros n. by rewrite placeNode_type.
    + f_equal. apply filter_placed_ids. intros n.
      by rewrite placeNode_type, placeNode_name.
  - destruct (getNode e endId) as [n|]; [| done].
    cbn [fmap option_fmap option_map]. by rewrite placeNode_id.
Qed.

Lemma cm_push_placed vis key n (m : list (string * list Node)) :
  cm_push key (placeNode vis n) (placeGroup vis <$> m)
    = placeGroup vis <$> cm_push key n m.
Proof.
  induction m as [|[k ns] m IH]; [done |].
  cbn [fmap list_fmap cm_push placeGroup mapValue fst snd].
  destruct (String.eqb k key).
  - cbn [fmap list_fmap]. f_equal. unfold placeGroup, mapValue. cbn [fst snd].
    by rewrite fmap_app.
  - cbn [fmap list_fmap]. f_equal. apply IH.
Qed.

Lemma connectionMap_placed vis nodes : ∀ m : list (string * list Node),
  foldl cm_add (placeGroup vis <$> m) (placeNode vis <$> nodes)
    = placeGroup vis <$> foldl cm_add m nodes.
Proof.
  induction nodes as [|n nodes IH]; intros m; [done |].
  cbn [fmap list_fmap foldl]. rewrite <- IH. f_equal.
  unfold cm_add. rewrite placeNode_connectionKey.
  destruct (connectionKey n); [apply cm_push_placed | done].
Qed.

Lemma insertIndexed_fmap {A B} (f : A → B) k v (l : list (N * A)) :
  insertIndexed k (f v) (mapValue f <$> l) = mapValue f <$> insertIndexed k v l.
Proof.
  induction l as [|[k' v'] l IH]; [done |].
  cbn [fmap list_fmap insertIndexed mapValue fst snd].
  destruct (k <? k')%N; [done |].
  cbn [fmap list_fmap mapValue fst snd]. f_equal. apply IH.
Qed.

Lemma Object_values_fmap {A B} (f : A → B) (m : list (string * A)) :
  Object_values (mapValue f <$> m) = f <$> Object_values m.
Proof.
  unfold Object_values. rewrite fmap_app. f_equal.
  - assert (H : ∀ (acc : list (N * A)),
      foldl (λ acc (kv : string * B), match arrayIndexOf kv.1 with
                       | Some i => insertIndexed i kv.2 acc
                       | None => acc
                       end) (mapValue f <$> acc) (mapValue f <$> m)
      = mapValue f <$>
          foldl (λ acc (kv : string * A), match arrayIndexOf kv.1 with
                           | Some i => insertIndexed i kv.2 acc
                           | None => acc
                           end) acc m).
    { induction m as [|[k v] m IH]; intros acc; [done |].
      cbn [fmap list_fmap foldl mapValue fst snd].
      destruct (arrayIndexOf k).
      - rewrite insertIndexed_fmap. apply IH.
      - apply IH. }
    specialize (H []). cbn [fmap list_fmap] in H. rewrite H.
    rewrite <- !list_fmap_compose. by apply list_fmap_ext.
  - induction m as [|[k v] m IH]; [done |].
    cbn [fmap list_fmap].
    rewrite !filter_cons. unfold mapValue at 1 2. cbn [fst snd].
    destruct (decide (arrayIndexOf k = None)).
    + cbn [fmap list_fmap snd]. f_equal. apply IH.
    + apply IH.
Qed.

Lemma cliquePairs_fmap {A B} (f : A → B) (l : list A) :
  cliquePairs (f <$> l) = prod_map f f <$> cliquePairs l.
Proof.
  induction l as [|a l IH]; [done |].
  cbn [fmap list_fmap cliquePairs]. rewrite fmap_app, IH. f_equal.
  rewrite <- !list_fmap_compose. by apply list_fmap_ext.
Qed.

Lemma groupEdges_placed cfg vis ns :
  groupEdges cfg (placeNode vis <$> ns) = groupEdges cfg ns.
Proof.
  unfold groupEdges. rewrite length_fmap. destruct (1 <? length ns); [| done].
  rewrite cliquePairs_fmap, <- list_fmap_compose. apply list_fmap_ext.
  intros _ [a b] _. cbn. apply transferEdge_placed.
Qed.

(** The transfer edges do not depend on the layout. *)
Lemma transferEdges_placed cfg vis nodes :
  transferEdges cfg (placeNode vis <$> nodes) = transferEdges cfg nodes.
Proof.
  unfold transferEdges.
  pose proof (connectionMap_placed vis nodes []) as H. cbn [fmap list_fmap] in H.
  rewrite H. unfold placeGroup. rewrite Object_values_fmap.
  induction (Object_values (foldl cm_add [] nodes)) as [|ns l IH]; [done |].
  cbn [fmap list_fmap mbind list_bind]. by rewrite groupEdges_placed, IH.
Qed.

Lemma buildAdj_placed vis nodes edges :
  buildAdj (placeNode vis <$> nodes) edges = buildAdj nodes edges.
Proof.
  unfold buildAdj. f_equal.
  generalize (∅ : gmap string (list AdjEntry)).
  induction nodes as [|n nodes IH]; intros m; [done |].
  cbn [fmap list_fmap foldl]. by rewrite placeNode_id, IH.
Qed.

Lemma updateFloorLayout_keeps cfg e p :
  globalEdges (updateFloorLayout cfg e p) = globalEdges e ∧
  adj (updateFloorLayout cfg e p) = adj e ∧
  idMap (updateFloorLayout cfg e p) = idMap e ∧
  accessibilityMode (updateFloorLayout cfg e p) = accessibilityMode e.
Proof. unfold updateFloorLayout. by destruct (layoutVisuals cfg e p). Qed.

Lemma ensureGraph_placed cfg e p :
  adjOf (ensureGraph cfg (withPath (updateFloorLayout cfg e p) []))
    = adjOf (ensureGraph cfg (withPath e [])) ∧
  accessibilityMode (ensureGraph cfg (withPath (updateFloorLayout cfg e p) []))
    = accessibilityMode (ensureGraph cfg (withPath e [])).
Proof.
  destruct (updateFloorLayout_keeps cfg e p) as (He & Ha & _ & Hm).
  assert (Hb : adjOf (buildGlobalGraph cfg (withPath (updateFloorLayout cfg e p) []))
                 = adjOf (buildGlobalGraph cfg (withPath e []))).
  { unfold adjOf, buildGlobalGraph. cbn [adj withPath globalNodes globalEdges].
    rewrite He, updateFloorLayout_nodes.
    by rewrite transferEdges_placed, buildAdj_placed. }
  assert (Hacc : ∀ e', accessibilityMode (ensureGraph cfg e') = accessibilityMode e').
  { intros e'. unfold ensureGraph. destruct (adj e') as [g|]; [case_bool_decide |]; done. }
  split.
  - unfold ensureGraph. cbn [adj withPath]. rewrite Ha.
    destruct (adj e) as [g|] eqn:Hadj; [| done].
    case_bool_decide; [done |]. unfold adjOf. cbn [adj withPath]. by rewrite Ha, Hadj.
  - rewrite !Hacc. cbn [accessibilityMode withPath]. done.
Qed.

(** X11.  Routes do not depend on the layout: after any layout,
    [calculatePath] returns the path it returns before it. *)
Theorem calculatePath_ignores_the_layout cfg e p startId endId :
  snd <$> calculatePath cfg (updateFloorLayout cfg e p) startId endId
    = snd <$> calculatePath cfg e startId endId.
Proof.
  unfold calculatePath.
  change (getNode (withPath ?x []) startId) with (getNode x startId).
  change (targetIdsOf (withPath ?x []) endId) with (targetIdsOf x endId).
  rewrite getNode_placed, targetIdsOf_placed.
  destruct (ensureGraph_placed cfg e p) as [-> ->].
  destruct (getNode e startId) as [sNode|]; [| done].
  cbn [fmap option_fmap option_map]. rewrite placeNode_id.
  case_bool_decide; [done |].
  destruct (search _ _ _ _) as [st|]; [| done].
  cbn [mbind option_bind].
  by destruct (match finalDestId st with Some _ => _ | None => _ end).
Qed.

(** ** More on calculatePath *)

Lemma push_first item : MinHeap.push [] item = Some [item].
Proof. done. Qed.

Lemma pop_last item : MinHeap.pop [item] = Some (Some item, []).
Proof. done. Qed.

Lemma unwind_done fuel prv acc : unwind fuel prv None acc = Some acc.
Proof. by destruct fuel. Qed.

(** X12.  When the start resolves to a node that is itself a target,
    [calculatePath] returns the path of that one node, whatever the
    graph and the mode. *)
Theorem calculatePath_from_a_target_stays_there cfg e startId endId sNode :
  getNode e startId = Some sNode →
  n_id sNode ∈ targetIdsOf e endId →
  ∃ e', calculatePath cfg e startId endId = Some (e', [n_id sNode]) ∧
        path e' = [n_id sNode].
Proof.
  intros Hs Ht. unfold calculatePath.
  change (getNode (withPath e []) startId) with (getNode e startId).
  change (targetIdsOf (withPath e []) endId) with (targetIdsOf e endId).
  rewrite Hs. rewrite bool_decide_eq_false_2.
  2:{ intros Hempty. rewrite Hempty in Ht. by apply not_elem_of_empty in Ht. }
  unfold search. rewrite push_first. cbn [mbind option_bind].
  unfold searchFuel. cbn [Nat.add searchLoop pq MinHeap.size length Nat.ltb Nat.leb].
  rewrite pop_last. cbn [mbind option_bind h_id h_dist dists visited].
  rewrite lookup_singleton_eq.
  assert (Qltb 0 0 = false) as -> by done.
  rewrite bool_decide_eq_false_2 by apply not_elem_of_empty.
  rewrite bool_decide_eq_true_2 by done.
  cbn [mbind option_bind finalDestId unwind prev]. rewrite lookup_empty, unwind_done.
  eexists. split; done.
Qed.

Lemma calculatePath_from_a_target_stays_there_witness :
  ∃ e', calculatePath oneFloor_config scenarioB "s" "s" = Some (e', ["s"]) ∧
        path e' = ["s"].
Proof.
  apply (calculatePath_from_a_target_stays_there oneFloor_config scenarioB "s" "s"
           (plainNode "s")).
  - reflexivity.
  - vm_compute. reflexivity.
Defined.

(** The chain that [unwind] prepends climbs in any rank that the
    predecessor map descends in. *)
Lemma unwind_climbs (prv : gmap string string) (rk : string → nat) :
  (∀ v u, prv !! v = Some u → rk u < rk v) →
  ∀ fuel c acc p, unwind fuel prv c acc = Some p →
  ∃ chain, p = chain ++ acc ∧
    (∀ i j x y, i < j → chain !! i = Some x → chain !! j = Some y → rk x < rk y) ∧
    (∀ c0 x, c = Some c0 → x ∈ chain → rk x ≤ rk c0).
Proof.
  intros Hrk. induction fuel as [|fuel IH]; intros c acc p Hrun.
  - destruct c as [c|]; [done |]. injection Hrun as <-. exists [].
    split_and!; [done | by intros i j x y _ ? | by intros c0 x ? ?%elem_of_nil].
  - destruct c as [c|].
    + cbn [unwind] in Hrun. destruct (prv !! c) as [u|] eqn:Hu.
      * apply IH in Hrun as (chain & -> & Hinc & Hle).
        exists (chain ++ [c]). split_and!.
        -- by rewrite <- app_assoc.
        -- intros i j x y Hij Hx Hy.
           destruct (decide (j < length chain)) as [Hj | Hj].
           ++ rewrite lookup_app_l in Hx, Hy by lia. by apply (Hinc i j).
           ++ rewrite lookup_app_r in Hy by lia.
              destruct (j - length chain) as [|k] eqn:Hk; [| by destruct k].
              injection Hy as <-. assert (i < length chain) as Hi by lia.
              rewrite lookup_app_l in Hx by lia.
              pose proof (Hle u x eq_refl (list_elem_of_lookup_2 _ _ _ Hx)).
              pose proof (Hrk c u Hu). lia.
        -- intros c0 x [= <-] [Hx | ->%list_elem_of_singleton]%elem_of_app; [| lia].
           pose proof (Hle u x eq_refl Hx). pose proof (Hrk c u Hu). lia.
      * rewrite unwind_done in Hrun. injection Hrun as <-. exists [c].
        split_and!; [done | |].
        -- intros i j x y Hij Hx Hy. apply lookup_lt_Some in Hy. simpl in Hy. lia.
        -- by intros c0 x [= <-] ->%list_elem_of_singleton.
    + injection Hrun as <-. exists [].
      split_and!; [done | by intros i j x y _ ? | by intros c0 x ? ?%elem_of_nil].
Qed.

(** X13.  On a graph whose weighed entries are not negative, the path
    [calculatePath] returns visits no node twice. *)
Theorem calculatePath_visits_no_node_twice cfg e startId endId e' p :
  nonNegative (adjOf (ensureGraph cfg e)) (accessibilityMode e) →
  calculatePath cfg e startId endId = Some (e', p) →
  NoDup p.
Proof.
  intros Hnn. unfold calculatePath.
  change (getNode (withPath e []) startId) with (getNode e startId).
  change (targetIdsOf (withPath e []) endId) with (targetIdsOf e endId).
  destruct (ensureGraph_withPath cfg e []) as [-> ->].
  destruct (getNode e startId) as [sNode|]; [| intros [= _ <-]; constructor].
  case_bool_decide; [intros [= _ <-]; constructor |].
  destruct (search_runs (adjOf (ensureGraph cfg e)) (accessibilityMode e)
              (targetIdsOf e endId) (n_id sNode) Hnn) as (st & -> & HI & _).
  cbn [mbind option_bind].
  destruct (finalDestId st) as [t|]; [| intros [= _ <-]; constructor].
  destruct (unwind _ _ _ _) as [p'|] eqn:Hrun; [| done].
  cbn [mbind option_bind]. intros [= _ <-].
  destruct (si_rank _ _ _ _ _ _ HI) as (rk & Hrk & _).
  destruct (unwind_climbs (prev st) rk Hrk _ _ _ _ Hrun) as (chain & -> & Hinc & _).
  rewrite app_nil_r. apply NoDup_alt. intros i j x Hi Hj.
  destruct (Nat.lt_trichotomy i j) as [Hlt | [Heq | Hgt]]; [| done |].
  - pose proof (Hinc i j x x Hlt Hi Hj). lia.
  - pose proof (Hinc j i x x Hgt Hj Hi). lia.
Qed.

Lemma calculatePath_visits_no_node_twice_witness :
  NoDup ["s"; "t"].
Proof.
  apply (calculatePath_visits_no_node_twice oneFloor_config scenarioB "s" "t"
           (withPath scenarioB ["s"; "t"])).
  - apply nonNegativeb_sound. by vm_compute.
  - by vm_compute.
Defined.

(** *** The graph of a loaded engine *)

Lemma transferEdges_nil cfg : transferEdges cfg [] = [].
Proof. done. Qed.

Lemma buildAdj_empty nodes edges :
  buildAdj nodes edges = ∅ → nodes = [] ∧ edges = [].
Proof.
  intros Hempty. split.
  - destruct nodes as [|n nodes]; [done |].
    assert (is_Some (buildAdj (n :: nodes) edges !! n_id n)) as Hk.
    { apply buildAdj_keys. left. exists n. split; [left | done]. }
    rewrite Hempty, lookup_empty in Hk. by apply is_Some_None in Hk.
  - destruct edges as [|edge edges]; [done |].
    assert (is_Some (buildAdj nodes (edge :: edges) !! e_from edge)) as Hk.
    { apply buildAdj_keys. right. exists edge. split; [left | by left]. }
    rewrite Hempty, lookup_empty in Hk. by apply is_Some_None in Hk.
Qed.

(** A loaded engine needs no rebuild, and a rebuild would change
    nothing. *)
Lemma ensureGraph_loaded cfg w e0 floors b p :
  ensureGraph cfg (withPath (setAccessibilityMode b (loadAllData cfg w e0 floors)) p)
    = withPath (setAccessibilityMode b (loadAllData cfg w e0 floors)) p.
Proof.
  destruct (loadAllData_shape cfg w e0 floors)
    as (nodes & ids & edges0 & vis & _ & Hn & _ & He & Ha & _).
  unfold ensureGraph. cbn [adj withPath setAccessibilityMode]. rewrite Ha.
  case_bool_decide as Hempty; [| done].
  apply buildAdj_empty in Hempty as [-> Hedges].
  unfold buildGlobalGraph, withPath, setAccessibilityMode.
  cbn [globalNodes globalEdges floorsConfig images floorOffsets floorCropX totalHeight
    idMap adj floorVisuals accessibilityMode path startNode].
  rewrite Hn. cbn [fmap list_fmap]. rewrite transferEdges_nil, app_nil_r.
  rewrite Ha, He, Hedges. done.
Qed.

(** X14.  On an engine that [loadAllData] has filled, in either mode,
    [calculatePath] changes the stored route and the start marker and
    nothing else: nodes, edges, id map and adjacency cache stay as
    loaded, and the cache is not rebuilt. *)
Theorem calculatePath_keeps_the_loaded_graph cfg w e0 floors b startId endId e' p :
  calculatePath cfg (setAccessibilityMode b (loadAllData cfg w e0 floors)) startId endId
    = Some (e', p) →
  e' = withPath (setAccessibilityMode b (loadAllData cfg w e0 floors)) p.
Proof.
  unfold calculatePath. rewrite ensureGraph_loaded.
  destruct (getNode _ startId) as [sNode|]; [| by intros [= <- <-]].
  case_bool_decide; [by intros [= <- <-] |].
  destruct (search _ _ _ _) as [st|]; [| done]. cbn [mbind option_bind].
  destruct (match finalDestId st with Some _ => _ | None => _ end) as [p'|]; [| done].
  cbn [mbind option_bind]. by intros [= <- <-].
Qed.

Lemma calculatePath_keeps_the_loaded_graph_witness :
  withPath blockedVenue ["1_a"; "1_b"]
    = withPath (setAccessibilityMode true loadedVenue) ["1_a"; "1_b"].
Proof.
  apply (calculatePath_keeps_the_loaded_graph oneFloor_config blocked_world loadStart
           (FLOORS oneFloor_config) true "1_a" "1_b").
  by vm_compute.
Defined.

(** ** What the fits achieve *)

Section FitAchieves.
Import JsNum.
Local Open Scope Q_scope.

Ltac qltb_cases :=
  repeat match goal with
         | |- context [Qltb ?x ?y] =>
             let E := fresh "E" in
             destruct (Qltb x y) eqn:E;
             [apply Qltb_true in E | apply Qltb_false in E]
         end.

Lemma growBox_None_skip b nodes :
  foldl Fit.growBox b (finPoint <$> nodes)
    = foldl Fit.growBox b (finPoint <$> (Some <$> validPoints nodes)).
Proof.
  revert b. induction nodes as [|[p|] nodes IH]; intros b; [done | |].
  - cbn [fmap list_fmap validPoints omap list_omap foldl]. apply IH.
  - cbn [fmap list_fmap validPoints omap list_omap foldl]. apply IH.
Qed.

Lemma growBox_first (p : Q * Q) :
  Fit.growBox Fit.emptyBox (finPoint (Some p))
    = {| Fit.minX := Fin p.1; Fit.maxX := Fin p.1;
         Fit.minY := Fin p.2; Fit.maxY := Fin p.2 |}.
Proof. done. Qed.

Lemma growBox_next a b c d (p : Q * Q) :
  Fit.growBox {| Fit.minX := Fin a; Fit.maxX := Fin b;
                 Fit.minY := Fin c; Fit.maxY := Fin d |} (finPoint (Some p))
    = {| Fit.minX := Fin (if Qltb p.1 a then p.1 else a);
         Fit.maxX := Fin (if Qltb b p.1 then p.1 else b);
         Fit.minY := Fin (if Qltb p.2 c then p.2 else c);
         Fit.maxY := Fin (if Qltb d p.2 then p.2 else d) |}.
Proof.
  cbn [Fit.growBox finPoint fmap option_fmap option_map fst snd
       Fit.minX Fit.maxX Fit.minY Fit.maxY lt].
  by destruct (Qltb p.1 a), (Qltb b p.1), (Qltb p.2 c), (Qltb d p.2).
Qed.

(** The box of the loop is the bounding box of the valid nodes. *)
Lemma growBox_bounds pts :
  pts ≠ [] →
  ∃ a b c d,
    foldl Fit.growBox Fit.emptyBox (finPoint <$> (Some <$> pts))
      = {| Fit.minX := Fin a; Fit.maxX := Fin b;
           Fit.minY := Fin c; Fit.maxY := Fin d |} ∧
    boundsOf pts a b c d.
Proof.
  induction pts as [|p pts IH] using rev_ind; [done |]. intros _.
  rewrite !fmap_app, foldl_app. cbn [fmap list_fmap foldl].
  destruct pts as [|p0 pts0] eqn:Hpts.
  - cbn [fmap list_fmap foldl]. rewrite growBox_first.
    exists p.1, p.1, p.2, p.2. split; [done |]. split_and!.
    + intros q ->%list_elem_of_singleton. split; split; apply Qle_refl.
    + exists p. split; [left | done].
    + exists p. split; [left | done].
    + exists p. split; [left | done].
    + exists p. split; [left | done].
  - rewrite <- Hpts in *.
    destruct IH as (a & b & c & d & -> & Hall & (pa & Hpa & Ha) & (pb & Hpb & Hb)
                    & (pc & Hpc & Hc) & (pd & Hpd & Hd)); [by rewrite Hpts |].
    rewrite growBox_next. eexists _, _, _, _. split; [done |].
    assert (Hold : ∀ q, q ∈ pts → q ∈ pts ++ [p]) by (intros; apply elem_of_app; by left).
    assert (Hnew : p ∈ pts ++ [p]) by (apply elem_of_app; right; left).
    split_and!.
    + intros q [Hq | ->%list_elem_of_singleton]%elem_of_app.
      * destruct (Hall q Hq) as [[? ?] [? ?]]. qltb_cases; split; split; qlra.
      * destruct (Hall pa Hpa) as [[_ Hab] _]. rewrite Ha in Hab.
        destruct (Hall pc Hpc) as [_ [_ Hcd]]. rewrite Hc in Hcd.
        qltb_cases; split; split; qlra.
    + destruct (Qltb p.1 a); [by exists p | exists pa; auto].
    + destruct (Qltb b p.1); [by exists p | exists pb; auto].
    + destruct (Qltb p.2 c); [by exists p | exists pc; auto].
    + destruct (Qltb d p.2); [by exists p | exists pd; auto].
Qed.

Lemma boundsOf_ordered pts a b c d : boundsOf pts a b c d → a <= b ∧ c <= d.
Proof.
  intros (Hall & (pa & Hpa & Ha) & _). destruct (Hall pa Hpa) as [[? ?] [? ?]].
  split; qlra.
Qed.

(** *** The scale *)

(** The clamp of [fitBounds]: [Math.min(Math.max(k, lo), hi)]. *)
Lemma clamp_max_min sx sy lo hi :
  lo <= hi →
  ∃ k, min (max (min (Fin sx) (Fin sy)) (Fin lo)) (Fin hi) = Fin k ∧
       lo <= k <= hi ∧ (lo < k → k <= sx ∧ k <= sy).
Proof.
  intros Hlh. cbn [min max lt].
  destruct (Qltb sy sx) eqn:E1; [apply Qltb_true in E1 | apply Qltb_false in E1];
    cbn [max lt].
  - destruct (Qltb sy lo) eqn:E2; [apply Qltb_true in E2 | apply Qltb_false in E2];
      cbn [min lt].
    + destruct (Qltb hi lo) eqn:E3; [apply Qltb_true in E3 | apply Qltb_false in E3];
        eexists; (split; [done |]); (split; [split; qlra |]); intros; split; qlra.
    + destruct (Qltb hi sy) eqn:E3; [apply Qltb_true in E3 | apply Qltb_false in E3];
        eexists; (split; [done |]); (split; [split; qlra |]); intros; split; qlra.
  - destruct (Qltb sx lo) eqn:E2; [apply Qltb_true in E2 | apply Qltb_false in E2];
      cbn [min lt].
    + destruct (Qltb hi lo) eqn:E3; [apply Qltb_true in E3 | apply Qltb_false in E3];
        eexists; (split; [done |]); (split; [split; qlra |]); intros; split; qlra.
    + destruct (Qltb hi sx) eqn:E3; [apply Qltb_true in E3 | apply Qltb_false in E3];
        eexists; (split; [done |]); (split; [split; qlra |]); intros; split; qlra.
Qed.

(** The clamp of [fitToPath]: [Math.max(Math.min(k, hi), lo)]. *)
Lemma clamp_min_max sx sy lo hi :
  lo <= hi →
  ∃ k, max (min (min (Fin sx) (Fin sy)) (Fin hi)) (Fin lo) = Fin k ∧
       lo <= k <= hi ∧ (lo < k → k <= sx ∧ k <= sy).
Proof.
  intros Hlh. cbn [min max lt].
  destruct (Qltb sy sx) eqn:E1; [apply Qltb_true in E1 | apply Qltb_false in E1];
    cbn [min lt].
  - destruct (Qltb hi sy) eqn:E2; [apply Qltb_true in E2 | apply Qltb_false in E2];
      cbn [max lt].
    + destruct (Qltb hi lo) eqn:E3; [apply Qltb_true in E3 | apply Qltb_false in E3];
        eexists; (split; [done |]); (split; [split; qlra |]); intros; split; qlra.
    + destruct (Qltb sy lo) eqn:E3; [apply Qltb_true in E3 | apply Qltb_false in E3];
        eexists; (split; [done |]); (split; [split; qlra |]); intros; split; qlra.
  - destruct (Qltb hi sx) eqn:E2; [apply Qltb_true in E2 | apply Qltb_false in E2];
      cbn [max lt].
    + destruct (Qltb hi lo) eqn:E3; [apply Qltb_true in E3 | apply Qltb_false in E3];
        eexists; (split; [done |]); (split; [split; qlra |]); intros; split; qlra.
    + destruct (Qltb sx lo) eqn:E3; [apply Qltb_true in E3 | apply Qltb_false in E3];
        eexists; (split; [done |]); (split; [split; qlra |]); intros; split; qlra.
Qed.

(** *** The arithmetic of a fit *)

(** A scale that lets the padded box fit the canvas puts every point of
    the box on the canvas, the padding inside its edge. *)
Lemma fit_inside (cw a b x k : Q) :
  a <= x <= b → 0 <= k → k <= cw / (b + - a + 100 * 2) →
  100 * (1 * k) <= (0 + 1 * (cw / 2 + - ((a + b) / 2 * k))) + x * (1 * k)
    <= cw - 100 * (1 * k).
Proof.
  intros [Hax Hxb] Hk Hfit.
  assert (0 < b + - a + 100 * 2) as HW by qlra.
  assert (k * (b + - a + 100 * 2) <= cw) as Hkw.
  { apply (Qmult_le_compat_r _ _ (b + - a + 100 * 2)) in Hfit; [| qlra].
    assert (cw / (b + - a + 100 * 2) * (b + - a + 100 * 2) == cw) as Heq
      by (field; qlra).
    by rewrite Heq in Hfit. }
  assert (0 <= k * x - k * a) as H1.
  { assert (k * x - k * a == k * (x - a)) as -> by ring.
    apply Qmult_le_0_compat; qlra. }
  assert (0 <= k * b - k * x) as H2.
  { assert (k * b - k * x == k * (b - x)) as -> by ring.
    apply Qmult_le_0_compat; qlra. }
  assert (k * b - k * a + 200 * k <= cw) as H3.
  { assert (k * b - k * a + 200 * k == k * (b + - a + 100 * 2)) as -> by ring.
    exact Hkw. }
  assert (0 + 1 * (cw / 2 + - ((a + b) / 2 * k)) + x * (1 * k)
            == cw * (1 # 2) + k * x - (k * a + k * b) * (1 # 2)) as -> by field.
  assert (100 * (1 * k) == 100 * k) as -> by ring.
  revert H1 H2 H3. generalize (k * a), (k * b), (k * x). intros ka kb kx H1 H2 H3.
  split; qlra.
Qed.

Lemma fit_centre (cw a b k : Q) :
  (0 + 1 * (cw / 2 + - ((a + b) / 2 * k))) + (a + b) / 2 * (1 * k) == cw / 2.
Proof. field. Qed.

(** *** The two fits on a finite box *)

Lemma div_Fin x y : ¬ y == 0 → div (Fin x) (Fin y) = Fin (x / y).
Proof.
  intros Hy. cbn [div]. destruct (Qeq_bool y 0) eqn:E; [| done].
  by apply Qeq_bool_eq in E.
Qed.

Lemma le_Fin_pos W : 0 < W → le (Fin W) (Fin 0) = false.
Proof.
  intros HW. cbn [le]. destruct (Qle_bool W 0) eqn:E; [| done].
  apply Qle_bool_iff in E. exfalso. qlra.
Qed.

Lemma min_Fin_finite x y :
  (if negb (isFinite (min (Fin x) (Fin y))) || isNaN (min (Fin x) (Fin y))
   then Fin 1 else min (Fin x) (Fin y)) = min (Fin x) (Fin y).
Proof. cbn [min lt]. by destruct (Qltb _ _). Qed.

Lemma growPathBox_growBox e b i :
  Fit.growPathBox e b i
    = Fit.growBox b (finPoint ((λ n, (n_x n, n_y n)) <$> getNode e i)).
Proof.
  unfold Fit.growPathBox. destruct (getNode e i) as [n|]; [| done].
  cbn [fmap option_fmap option_map finPoint Fit.growBox fst snd].
  destruct b as [a b c d]. cbn [Fit.minX Fit.maxX Fit.minY Fit.maxY].
  f_equal.
  - by destruct a.
  - by destruct b.
  - by destruct c.
  - by destruct d.
Qed.

Lemma growPathBox_fold e pathNodes : ∀ b,
  foldl (Fit.growPathBox e) b pathNodes
    = foldl Fit.growBox b (finPoint <$> pathPoints e pathNodes).
Proof.
  induction pathNodes as [|i l IH]; intros b; [done |].
  cbn [foldl pathPoints fmap list_fmap]. rewrite growPathBox_growBox. apply IH.
Qed.

(** *** The box of [fitBounds], for coordinates of any kind *)

Lemma growBox_axes nodes : ∀ b,
  foldl Fit.growBox b nodes
    = {| Fit.minX := lowest (Fit.minX b) (passing nodes).*1;
         Fit.maxX := highest (Fit.maxX b) (passing nodes).*1;
         Fit.minY := lowest (Fit.minY b) (passing nodes).*2;
         Fit.maxY := highest (Fit.maxY b) (passing nodes).*2 |}.
Proof.
  induction nodes as [|[[x y]|] nodes IH]; intros b.
  - by destruct b.
  - cbn [foldl passing omap list_omap fmap list_fmap fst snd lowest highest].
    rewrite IH. done.
  - cbn [foldl passing omap list_omap Fit.growBox]. apply IH.
Qed.

Lemma lowest_snoc m l x :
  lowest m (l ++ [x]) = if lt x (lowest m l) then x else lowest m l.
Proof. unfold lowest. by rewrite foldl_app. Qed.

Lemma highest_snoc m l x :
  highest m (l ++ [x]) = if lt (highest m l) x then x else highest m l.
Proof. unfold highest. by rewrite foldl_app. Qed.

Lemma finiteOnes_snoc l x :
  finiteOnes (l ++ [x])
    = finiteOnes l ++ match x with Fin q => [q] | _ => [] end.
Proof. unfold finiteOnes. rewrite omap_app. by destruct x. Qed.

(** The least coordinate the loop finds, starting from [Infinity]. *)
Lemma lowest_cases l :
  (NInf ∈ l ∧ lowest PInf l = NInf) ∨
  ((NInf ∉ l) ∧ finiteOnes l = [] ∧ lowest PInf l = PInf) ∨
  ((NInf ∉ l) ∧ ∃ a, lowest PInf l = Fin a ∧ a ∈ finiteOnes l ∧
                   ∀ x, x ∈ finiteOnes l → a <= x).
Proof.
  induction l as [|x l IH] using rev_ind.
  { right. left. split_and!; [apply not_elem_of_nil | done | done]. }
  rewrite lowest_snoc, finiteOnes_snoc.
  destruct IH as [[Hin ->] | [(Hno & Hfin & ->) | (Hno & a & -> & Ha & Hleast)]].
  - left. split; [apply elem_of_app; by left |]. by destruct x.
  - destruct x as [q| | |].
    + right. right. split.
      { intros [? | ?%list_elem_of_singleton]%elem_of_app; done. }
      exists q. rewrite Hfin. split_and!; [done | by left |].
      intros x ->%list_elem_of_singleton. apply Qle_refl.
    + right. left. split_and!; [| by rewrite Hfin | done].
      intros [? | ?%list_elem_of_singleton]%elem_of_app; done.
    + left. split; [apply elem_of_app; right; left | done].
    + right. left. split_and!; [| by rewrite Hfin | done].
      intros [? | ?%list_elem_of_singleton]%elem_of_app; done.
  - destruct x as [q| | |].
    + right. right. split.
      { intros [? | ?%list_elem_of_singleton]%elem_of_app; done. }
      cbn [lt]. destruct (Qltb q a) eqn:E;
        [apply Qltb_true in E | apply Qltb_false in E].
      * exists q. split_and!; [done | apply elem_of_app; right; left |].
        intros x [Hx | ->%list_elem_of_singleton]%elem_of_app.
        -- pose proof (Hleast x Hx). qlra.
        -- apply Qle_refl.
      * exists a. split_and!; [done | apply elem_of_app; by left |].
        intros x [Hx | ->%list_elem_of_singleton]%elem_of_app; [by apply Hleast | done].
    + right. right. split.
      { intros [? | ?%list_elem_of_singleton]%elem_of_app; done. }
      exists a. rewrite app_nil_r. by split_and!.
    + left. split; [apply elem_of_app; right; left | done].
    + right. right. split.
      { intros [? | ?%list_elem_of_singleton]%elem_of_app; done. }
      exists a. rewrite app_nil_r. by split_and!.
Qed.

(** The greatest coordinate the loop finds, starting from [-Infinity]. *)
Lemma highest_cases l :
  (PInf ∈ l ∧ highest NInf l = PInf) ∨
  ((PInf ∉ l) ∧ finiteOnes l = [] ∧ highest NInf l = NInf) ∨
  ((PInf ∉ l) ∧ ∃ b, highest NInf l = Fin b ∧ b ∈ finiteOnes l ∧
                   ∀ x, x ∈ finiteOnes l → x <= b).
Proof.
  induction l as [|x l IH] using rev_ind.
  { right. left. split_and!; [apply not_elem_of_nil | done | done]. }
  rewrite highest_snoc, finiteOnes_snoc.
  destruct IH as [[Hin ->] | [(Hno & Hfin & ->) | (Hno & b & -> & Hb & Hmost)]].
  - left. split; [apply elem_of_app; by left |]. by destruct x.
  - destruct x as [q| | |].
    + right. right. split.
      { intros [? | ?%list_elem_of_singleton]%elem_of_app; done. }
      exists q. rewrite Hfin. split_and!; [done | by left |].
      intros x ->%list_elem_of_singleton. apply Qle_refl.
    + left. split; [apply elem_of_app; right; left | done].
    + right. left. split_and!; [| by rewrite Hfin | done].
      intros [? | ?%list_elem_of_singleton]%elem_of_app; done.
    + right. left. split_and!; [| by rewrite Hfin | done].
      intros [? | ?%list_elem_of_singleton]%elem_of_app; done.
  - destruct x as [q| | |].
    + right. right. split.
      { intros [? | ?%list_elem_of_singleton]%elem_of_app; done. }
      cbn [lt]. destruct (Qltb b q) eqn:E;
        [apply Qltb_true in E | apply Qltb_false in E].
      * exists q. split_and!; [done | apply elem_of_app; right; left |].
        intros x [Hx | ->%list_elem_of_singleton]%elem_of_app.
        -- pose proof (Hmost x Hx). qlra.
        -- apply Qle_refl.
      * exists b. split_and!; [done | apply elem_of_app; by left |].
        intros x [Hx | ->%list_elem_of_singleton]%elem_of_app; [by apply Hmost | done].
    + left. split; [apply elem_of_app; right; left | done].
    + right. right. split.
      { intros [? | ?%list_elem_of_singleton]%elem_of_app; done. }
      exists b. rewrite app_nil_r. by split_and!.
    + right. right. split.
      { intros [? | ?%list_elem_of_singleton]%elem_of_app; done. }
      exists b. rewrite app_nil_r. by split_and!.
Qed.

(** A side of the box is finite exactly for boxed coordinates. *)
Lemma boxed_side l :
  boxed l ↔ ∃ a b, lowest PInf l = Fin a ∧ highest NInf l = Fin b ∧
                   extremes (finiteOnes l) a b.
Proof.
  split.
  - intros (Hfin & HP & HN).
    destruct (lowest_cases l) as [[? _] | [(_ & ? & _) | (_ & a & Ha & Hain & Hleast)]];
      [done | done |].
    destruct (highest_cases l) as [[? _] | [(_ & ? & _) | (_ & b & Hb & Hbin & Hmost)]];
      [done | done |].
    exists a, b. unfold extremes. split_and!; try done. intros x Hx. split; auto.
  - intros (a & b & Ha & Hb & Hain & _).
    destruct (lowest_cases l) as [[_ H] | [(_ & _ & H) | (HN & _)]];
      [by rewrite H in Ha | by rewrite H in Ha |].
    destruct (highest_cases l) as [[_ H] | [(_ & _ & H) | (HP & _)]];
      [by rewrite H in Hb | by rewrite H in Hb |].
    split_and!; [| done | done]. intros Hnil. rewrite Hnil in Hain.
    by apply elem_of_nil in Hain.
Qed.

(** What is not finite stays so through the arithmetic of the
    translation. *)
Lemma translation_finite h lo hi k :
  isFinite (sub h (mul (div (add lo hi) (Fin 2)) k)) = true →
  isFinite lo = true ∧ isFinite hi = true.
Proof.
  intros H.
  assert (isFinite (mul (div (add lo hi) (Fin 2)) k) = true) as H1.
  { set (z := mul (div (add lo hi) (Fin 2)) k) in *.
    destruct z, h; cbn in H; done. }
  assert (isFinite (div (add lo hi) (Fin 2)) = true) as H2.
  { set (z := div (add lo hi) (Fin 2)) in *.
    destruct z as [q| | |]; [done | | |]; destruct k as [kq| | |]; cbn in H1; try done.
    - by destruct (sgn kq).
    - by destruct (- sgn kq)%Z. }
  assert (isFinite (add lo hi) = true) as H3.
  { set (z := add lo hi) in *.
    destruct z as [q| | |]; [done | | |]; cbn in H2; try done;
      change (Qltb 2 0) with false in H2; done. }
  by destruct lo, hi.
Qed.

(** The transform [fitBounds] hands over when the box of its loop is
    finite. *)
Lemma fitBounds_on_box (cw ch : N) nodes a b c d :
  a <= b → c <= d →
  foldl Fit.growBox Fit.emptyBox nodes
    = {| Fit.minX := Fin a; Fit.maxX := Fin b; Fit.minY := Fin c; Fit.maxY := Fin d |} →
  ∃ k,
    min (max (min (Fin (inject_Z (Z.of_N cw) / (b + - a + 100 * 2)))
                  (Fin (inject_Z (Z.of_N ch) / (d + - c + 100 * 2))))
             (Fin 0.2)) (Fin 3) = Fin k ∧
    Fit.fitBounds cw ch nodes
      = Some {| t_k := Fin (1 * k);
                t_x := Fin (0 + 1 * (inject_Z (Z.of_N cw) / 2 + - ((a + b) / 2 * k)));
                t_y := Fin (0 + 1 * (inject_Z (Z.of_N ch) / 2 + - ((c + d) / 2 * k))) |}.
Proof.
  intros Hab Hcd Hbox.
  destruct (clamp_max_min (inject_Z (Z.of_N cw) / (b + - a + 100 * 2))
              (inject_Z (Z.of_N ch) / (d + - c + 100 * 2)) 0.2 3) as (k & Hk & _);
    [done |].
  exists k. split; [exact Hk |].
  unfold Fit.fitBounds. rewrite Hbox.
  destruct nodes as [|n0 l0]; [done |].
  cbn [Fit.minX Fit.maxX Fit.minY Fit.maxY eqb orb].
  cbn [sub neg add mul Fit.padding]. unfold ofN.
  rewrite !le_Fin_pos by qlra.
  rewrite !div_Fin by (try done; qlra).
  rewrite min_Fin_finite, Hk. cbn [mul sub neg add isFinite isNaN negb orb].
  done.
Qed.

(** [fitBounds] goes as far as the zoom transition for a finite box
    only. *)
Lemma fitBounds_Some_box (cw ch : N) nodes t :
  Fit.fitBounds cw ch nodes = Some t →
  isFinite (Fit.minX (foldl Fit.growBox Fit.emptyBox nodes)) = true ∧
  isFinite (Fit.maxX (foldl Fit.growBox Fit.emptyBox nodes)) = true ∧
  isFinite (Fit.minY (foldl Fit.growBox Fit.emptyBox nodes)) = true ∧
  isFinite (Fit.maxY (foldl Fit.growBox Fit.emptyBox nodes)) = true.
Proof.
  unfold Fit.fitBounds. destruct nodes as [|n nodes]; [done |].
  set (b := foldl Fit.growBox Fit.emptyBox (n :: nodes)).
  destruct (eqb (Fit.minX b) PInf || eqb (Fit.maxX b) NInf); [done |].
  cbv zeta.
  match goal with
  | |- context [sub ?h (mul (div (add (Fit.minX b) (Fit.maxX b)) (Fin 2)) ?k)] =>
      pose proof (translation_finite h (Fit.minX b) (Fit.maxX b) k) as HX;
      pose proof (translation_finite (div (ofN ch) (Fin 2)) (Fit.minY b) (Fit.maxY b) k) as HY;
      set (tX := sub h (mul (div (add (Fit.minX b) (Fit.maxX b)) (Fin 2)) k)) in *;
      set (tY := sub (div (ofN ch) (Fin 2))
                     (mul (div (add (Fit.minY b) (Fit.maxY b)) (Fin 2)) k)) in *
  end.
  destruct (isFinite tX); [| done].
  destruct (isFinite tY); [| by destruct (isNaN tX)].
  intros _. destruct HX as [? ?]; [done |]. destruct HY as [? ?]; done.
Qed.

(** [fitBounds] hands over a transform exactly when both axes are
    boxed. *)
Lemma fitBounds_Some_boxed (cw ch : N) nodes :
  is_Some (Fit.fitBounds cw ch nodes)
    ↔ boxed (passing nodes).*1 ∧ boxed (passing nodes).*2.
Proof.
  rewrite !boxed_side. split.
  - intros [t Ht]. apply fitBounds_Some_box in Ht as (H1 & H2 & H3 & H4).
    rewrite growBox_axes in H1, H2, H3, H4.
    cbn [Fit.minX Fit.maxX Fit.minY Fit.maxY Fit.emptyBox] in H1, H2, H3, H4.
    pose proof (lowest_cases (passing nodes).*1) as Lx.
    pose proof (highest_cases (passing nodes).*1) as Hx.
    pose proof (lowest_cases (passing nodes).*2) as Ly.
    pose proof (highest_cases (passing nodes).*2) as Hy.
    split.
    + destruct Lx as [[_ E] | [(_ & _ & E) | (_ & a & Ea & Hain & Hleast)]];
        [by rewrite E in H1 | by rewrite E in H1 |].
      destruct Hx as [[_ E] | [(_ & _ & E) | (_ & b & Eb & Hbin & Hmost)]];
        [by rewrite E in H2 | by rewrite E in H2 |].
      exists a, b. unfold extremes. split_and!; try done. intros x ?. split; auto.
    + destruct Ly as [[_ E] | [(_ & _ & E) | (_ & a & Ea & Hain & Hleast)]];
        [by rewrite E in H3 | by rewrite E in H3 |].
      destruct Hy as [[_ E] | [(_ & _ & E) | (_ & b & Eb & Hbin & Hmost)]];
        [by rewrite E in H4 | by rewrite E in H4 |].
      exists a, b. unfold extremes. split_and!; try done. intros x ?. split; auto.
  - intros [(a & b & Ha & Hb & Hain & _ & Hab) (c & d & Hc & Hd & Hcin & _ & Hcd)].
    destruct (fitBounds_on_box cw ch nodes a b c d) as (k & _ & ->); [| | | done].
    + destruct (Hab a Hain). qlra.
    + destruct (Hcd c Hcin). qlra.
    + rewrite growBox_axes. cbn [Fit.minX Fit.maxX Fit.minY Fit.maxY Fit.emptyBox].
      by rewrite Ha, Hb, Hc, Hd.
Qed.

(** The transform [fitToPath] hands over when the resolved path nodes
    have the bounding box [a], [b], [c], [d]. *)
Lemma fitToPath_value e (cw ch : N) pathNodes a b c d :
  boundsOf (validPoints (pathPoints e pathNodes)) a b c d →
  foldl Fit.growBox Fit.emptyBox (finPoint <$> pathPoints e pathNodes)
    = {| Fit.minX := Fin a; Fit.maxX := Fin b; Fit.minY := Fin c; Fit.maxY := Fin d |} →
  ∃ k,
    max (min (min (Fin (inject_Z (Z.of_N cw) / (b + - a + 100 * 2)))
                  (Fin (inject_Z (Z.of_N ch) / (d + - c + 100 * 2))))
             (Fin 2)) (Fin 0.2) = Fin k ∧
    Fit.fitToPath e cw ch pathNodes
      = Some {| t_k := Fin (1 * k);
                t_x := Fin (0 + 1 * (inject_Z (Z.of_N cw) / 2 + - ((a + b) / 2 * k)));
                t_y := Fin (0 + 1 * (inject_Z (Z.of_N ch) / 2 + - ((c + d) / 2 * k))) |}.
Proof.
  intros Hb Hbox. destruct (boundsOf_ordered _ _ _ _ _ Hb) as [Hab Hcd].
  destruct (clamp_min_max (inject_Z (Z.of_N cw) / (b + - a + 100 * 2))
              (inject_Z (Z.of_N ch) / (d + - c + 100 * 2)) 0.2 2) as (k & Hk & _);
    [done |].
  exists k. split; [exact Hk |].
  unfold Fit.fitToPath. rewrite growPathBox_fold, Hbox.
  destruct pathNodes as [|i0 l0].
  { destruct Hb as (_ & (p & []%elem_of_nil & _) & _). }
  cbn [Fit.minX Fit.maxX Fit.minY Fit.maxY].
  cbn [sub neg add mul Fit.padding]. unfold ofN.
  rewrite !div_Fin by (try done; qlra).
  rewrite Hk. cbn [mul sub neg add].
  done.
Qed.

End FitAchieves.

(** X15.  When, on each axis, a node that passes the test has a finite
    coordinate and none has an infinite one, [fitBounds] hands over a
    finite transform whose scale lies between 0.2 and 3 and which
    draws the centre of the box of the finite coordinates at the
    centre of the canvas ([screenX = worldX * k + x]); NaN coordinates
    are passed over, each on its axis.  Unless the scale had to be
    raised to 0.2, every node with two finite coordinates is drawn on
    the canvas, at least the padding of 100 times the scale inside its
    edges. *)
Theorem fitBounds_fits_the_valid_nodes (cw ch : N)
    (nodes : list (option (JsNum.t * JsNum.t))) :
  boxed (passing nodes).*1 → boxed (passing nodes).*2 →
  ∃ k tx ty a b c d,
    Fit.fitBounds cw ch nodes
      = Some {| t_k := JsNum.Fin k; t_x := JsNum.Fin tx; t_y := JsNum.Fin ty |} ∧
    extremes (finiteOnes (passing nodes).*1) a b ∧
    extremes (finiteOnes (passing nodes).*2) c d ∧
    (0.2 <= k <= 3)%Q ∧
    (tx + (a + b) / 2 * k == inject_Z (Z.of_N cw) / 2)%Q ∧
    (ty + (c + d) / 2 * k == inject_Z (Z.of_N ch) / 2)%Q ∧
    ((0.2 < k)%Q → ∀ x y, (JsNum.Fin x, JsNum.Fin y) ∈ passing nodes →
       (100 * k <= tx + x * k <= inject_Z (Z.of_N cw) - 100 * k)%Q ∧
       (100 * k <= ty + y * k <= inject_Z (Z.of_N ch) - 100 * k)%Q).
Proof.
  intros (a & b & Ha & Hb & Hxs)%boxed_side (c & d & Hc & Hd & Hys)%boxed_side.
  assert (a <= b)%Q as Hab by (destruct Hxs as (Hain & _ & H); destruct (H a Hain); qlra).
  assert (c <= d)%Q as Hcd by (destruct Hys as (Hcin & _ & H); destruct (H c Hcin); qlra).
  destruct (fitBounds_on_box cw ch nodes a b c d Hab Hcd) as (k & Hk & Hrun).
  { rewrite growBox_axes. cbn [Fit.minX Fit.maxX Fit.minY Fit.maxY Fit.emptyBox].
    by rewrite Ha, Hb, Hc, Hd. }
  destruct (clamp_max_min (inject_Z (Z.of_N cw) / (b + - a + 100 * 2))
              (inject_Z (Z.of_N ch) / (d + - c + 100 * 2)) 0.2 3 ltac:(done))
    as (k' & Hk' & Hrange & Hfit).
  rewrite Hk in Hk'. injection Hk' as <-.
  eexists _, _, _, a, b, c, d. split; [exact Hrun |].
  split; [exact Hxs |]. split; [exact Hys |].
  split_and!.
  - qlra.
  - qlra.
  - apply fit_centre.
  - apply fit_centre.
  - intros Hk1 x y Hin.
    assert (x ∈ finiteOnes (passing nodes).*1) as Hx.
    { apply list_elem_of_omap. exists (JsNum.Fin x). split; [| done].
      apply list_elem_of_fmap. by exists (JsNum.Fin x, JsNum.Fin y). }
    assert (y ∈ finiteOnes (passing nodes).*2) as Hy.
    { apply list_elem_of_omap. exists (JsNum.Fin y). split; [| done].
      apply list_elem_of_fmap. by exists (JsNum.Fin x, JsNum.Fin y). }
    destruct Hxs as (_ & _ & Hxs). destruct Hys as (_ & _ & Hys).
    destruct Hfit as [Hsx Hsy]; [qlra |].
    split; apply fit_inside; (auto || qlra).
Qed.

Lemma fitBounds_fits_the_valid_nodes_witness :
  ∃ k tx ty a b c d,
    Fit.fitBounds 800 600
      [Some (JsNum.Fin 0, JsNum.Fin 0); None; Some (JsNum.NaN, JsNum.Fin 5000);
       Some (JsNum.Fin 100, JsNum.Fin 50)]
      = Some {| t_k := JsNum.Fin k; t_x := JsNum.Fin tx; t_y := JsNum.Fin ty |} ∧
    extremes [0; 100]%Q a b ∧
    extremes [0; 5000; 50]%Q c d ∧
    (0.2 <= k <= 3)%Q ∧
    (tx + (a + b) / 2 * k == inject_Z (Z.of_N 800) / 2)%Q ∧
    (ty + (c + d) / 2 * k == inject_Z (Z.of_N 600) / 2)%Q ∧
    ((0.2 < k)%Q → ∀ x y,
       (JsNum.Fin x, JsNum.Fin y)
         ∈ [(JsNum.Fin 0, JsNum.Fin 0); (JsNum.NaN, JsNum.Fin 5000);
            (JsNum.Fin 100, JsNum.Fin 50)] →
       (100 * k <= tx + x * k <= inject_Z (Z.of_N 800) - 100 * k)%Q ∧
       (100 * k <= ty + y * k <= inject_Z (Z.of_N 600) - 100 * k)%Q).
Proof.
  apply (fitBounds_fits_the_valid_nodes 800 600
           [Some (JsNum.Fin 0, JsNum.Fin 0); None; Some (JsNum.NaN, JsNum.Fin 5000);
            Some (JsNum.Fin 100, JsNum.Fin 50)]).
  - split_and!; [discriminate | |];
      intros Hin; repeat (apply elem_of_cons in Hin as [[=] | Hin]);
      by apply elem_of_nil in Hin.
  - split_and!; [discriminate | |];
      intros Hin; repeat (apply elem_of_cons in Hin as [[=] | Hin]);
      by apply elem_of_nil in Hin.
Defined.

(** X16.  [fitBounds] returns before the zoom transition exactly when
    an axis is not boxed: no node passes the test, or those that pass
    have no finite coordinate on it, or one has an infinite one. *)
Theorem fitBounds_returns_early_unless_boxed (cw ch : N)
    (nodes : list (option (JsNum.t * JsNum.t))) :
  (Fit.fitBounds cw ch nodes = None
     ↔ ¬ (boxed (passing nodes).*1 ∧ boxed (passing nodes).*2)) ∧
  (passing nodes = [] → Fit.fitBounds cw ch nodes = None).
Proof.
  assert (Hiff : Fit.fitBounds cw ch nodes = None
                 ↔ ¬ (boxed (passing nodes).*1 ∧ boxed (passing nodes).*2)).
  { rewrite <- fitBounds_Some_boxed. split.
    - intros -> [t Ht]. done.
    - intros Hno. destruct (Fit.fitBounds cw ch nodes) as [t|]; [| done].
      destruct Hno. by exists t. }
  split; [exact Hiff |].
  intros Hnil. apply Hiff. intros [(Hfin & _) _]. apply Hfin. by rewrite Hnil.
Qed.

Lemma fitToPath_finite_when_resolving e (cw ch : N) (pathNodes : list string) :
  (∃ i, i ∈ pathNodes ∧ is_Some (getNode e i)) →
  ∃ t, Fit.fitToPath e cw ch pathNodes = Some t ∧ finiteTransform t.
Proof.
  intros (i0 & Hi0 & [n0 Hn0]).
  assert (validPoints (pathPoints e pathNodes) ≠ []) as Hne.
  { intros Hnil.
    assert ((n_x n0, n_y n0) ∈ validPoints (pathPoints e pathNodes)) as H.
    { unfold validPoints, pathPoints.
      apply list_elem_of_omap. exists (Some (n_x n0, n_y n0)). split; [| done].
      apply list_elem_of_fmap. exists i0. by rewrite Hn0. }
    rewrite Hnil in H. by apply elem_of_nil in H. }
  destruct (growBox_bounds _ Hne) as (a & b & c & d & Hbox & Hb).
  rewrite <- growBox_None_skip in Hbox.
  destruct (fitToPath_value e cw ch pathNodes a b c d Hb Hbox) as (k & Hk & Hrun).
  eexists. split; [exact Hrun | done].
Qed.

(** X17.  When at least one id of the path resolves, [fitToPath] hands
    over a finite transform whose scale lies between 0.2 and 2 and
    which draws the centre of the bounding box of the resolved nodes
    at the centre of the canvas; unless the scale had to be raised to
    0.2, every resolved node of the path is drawn on the canvas, at
    least the padding of 100 times the scale inside its edges. *)
Theorem fitToPath_fits_the_resolved_nodes e (cw ch : N) (pathNodes : list string) :
  (∃ i, i ∈ pathNodes ∧ is_Some (getNode e i)) →
  ∃ k tx ty a b c d,
    Fit.fitToPath e cw ch pathNodes
      = Some {| t_k := JsNum.Fin k; t_x := JsNum.Fin tx; t_y := JsNum.Fin ty |} ∧
    boundsOf (validPoints (pathPoints e pathNodes)) a b c d ∧
    (0.2 <= k <= 2)%Q ∧
    (tx + (a + b) / 2 * k == inject_Z (Z.of_N cw) / 2)%Q ∧
    (ty + (c + d) / 2 * k == inject_Z (Z.of_N ch) / 2)%Q ∧
    ((0.2 < k)%Q → ∀ i n, i ∈ pathNodes → getNode e i = Some n →
       (100 * k <= tx + n_x n * k <= inject_Z (Z.of_N cw) - 100 * k)%Q ∧
       (100 * k <= ty + n_y n * k <= inject_Z (Z.of_N ch) - 100 * k)%Q).
Proof.
  intros (i0 & Hi0 & [n0 Hn0]).
  assert (Hin : ∀ i n, i ∈ pathNodes → getNode e i = Some n →
                       (n_x n, n_y n) ∈ validPoints (pathPoints e pathNodes)).
  { intros i n Hi Hn. unfold validPoints, pathPoints.
    apply list_elem_of_omap. exists (Some (n_x n, n_y n)). split; [| done].
    apply list_elem_of_fmap. exists i. by rewrite Hn. }
  assert (validPoints (pathPoints e pathNodes) ≠ []) as Hne.
  { intros Hnil. pose proof (Hin i0 n0 Hi0 Hn0) as H. rewrite Hnil in H.
    by apply elem_of_nil in H. }
  destruct (growBox_bounds _ Hne) as (a & b & c & d & Hbox & Hb).
  rewrite <- growBox_None_skip in Hbox.
  destruct (fitToPath_value e cw ch pathNodes a b c d Hb Hbox) as (k & Hk & Hrun).
  destruct (clamp_min_max (inject_Z (Z.of_N cw) / (b + - a + 100 * 2))
              (inject_Z (Z.of_N ch) / (d + - c + 100 * 2)) 0.2 2 ltac:(done))
    as (k' & Hk' & Hrange & Hfit).
  rewrite Hk in Hk'. injection Hk' as <-.
  eexists _, _, _, a, b, c, d. split; [exact Hrun |]. split; [exact Hb |].
  split_and!.
  - qlra.
  - qlra.
  - apply fit_centre.
  - apply fit_centre.
  - intros Hk1 i n Hi Hn. destruct Hb as (Hall & _).
    destruct (Hall _ (Hin i n Hi Hn)) as [Hx Hy]. cbn [fst snd] in Hx, Hy.
    destruct Hfit as [Hsx Hsy]; [qlra |].
    split; apply fit_inside; (done || qlra).
Qed.

Lemma fitToPath_fits_the_resolved_nodes_witness :
  ∃ k tx ty a b c d,
    Fit.fitToPath scenarioB 800 600 ["s"; "ghost"; "t"]
      = Some {| t_k := JsNum.Fin k; t_x := JsNum.Fin tx; t_y := JsNum.Fin ty |} ∧
    boundsOf (validPoints (pathPoints scenarioB ["s"; "ghost"; "t"])) a b c d ∧
    (0.2 <= k <= 2)%Q ∧
    (tx + (a + b) / 2 * k == inject_Z (Z.of_N 800) / 2)%Q ∧
    (ty + (c + d) / 2 * k == inject_Z (Z.of_N 600) / 2)%Q ∧
    ((0.2 < k)%Q → ∀ i n, i ∈ ["s"; "ghost"; "t"] → getNode scenarioB i = Some n →
       (100 * k <= tx + n_x n * k <= inject_Z (Z.of_N 800) - 100 * k)%Q ∧
       (100 * k <= ty + n_y n * k <= inject_Z (Z.of_N 600) - 100 * k)%Q).
Proof.
  apply (fitToPath_fits_the_resolved_nodes scenarioB 800 600 ["s"; "ghost"; "t"]).
  exists "s". split; [left |]. eexists. vm_compute. reflexivity.
Defined.

(** ** From the floor files to the fitted route *)

Lemma transferFloorDistance_nonneg cfg n1 n2 : (0 ≤ transferFloorDistance cfg n1 n2)%Z.
Proof. unfold transferFloorDistance. case_bool_decide; lia. Qed.

Lemma loaded_nonNegative cfg w e0 floors b g :
  fileWeightsNonNegative w floors →
  adj (loadAllData cfg w e0 floors) = Some g →
  nonNegative g b.
Proof.
  intros Hfile Hg u a wt (l & Hl & Hin & Hw).
  apply (effectiveWeight_nonneg b a wt); [| done].
  destruct (loaded_adjacency cfg w e0 floors) as (g' & Hg' & _ & _ & Hent).
  rewrite Hg in Hg'. injection Hg' as <-.
  destruct (Hent u a) as (_ & edge & Hedge & -> & _); [by exists l |].
  apply loaded_edge_cases in Hedge
    as [(c & data & r & Hc & Hdata & Hr & ->) | (key & i & j & n1 & n2 & _ & _ & _ & _ & _ & ->)].
  - cbn [e_dist floorEdge]. destruct (re_dist r) as [d|] eqn:Hd; [| done].
    by apply (Hfile c data r d).
  - cbn [e_dist expectedTransferEdge].
    pose proof (transferFloorDistance_nonneg cfg n1 n2) as H.
    apply Qmult_le_0_compat; [| done].
    change 0%Q with (inject_Z 0). by rewrite <- Zle_Qle.
Qed.

(** The nodes of a walk in the loaded cache resolve when its first node
    does. *)
Lemma loaded_walk_resolves cfg w e0 floors b g u es v :
  adj (loadAllData cfg w e0 floors) = Some g →
  walk g b u es v →
  is_Some (getNode (loadAllData cfg w e0 floors) u) →
  ∀ i, i ∈ walkNodes u es → is_Some (getNode (loadAllData cfg w e0 floors) i).
Proof.
  intros Hg Hwalk. destruct (loaded_adjacency cfg w e0 floors) as (g' & Hg' & _ & _ & Hent).
  rewrite Hg in Hg'. injection Hg' as <-.
  induction Hwalk as [u | u a wt es v Hus Hwalk IH]; intros Hu i Hi.
  - apply list_elem_of_singleton in Hi as ->. done.
  - unfold walkNodes in Hi. cbn [fmap list_fmap] in Hi.
    apply elem_of_cons in Hi as [-> | Hi]; [done |].
    apply IH; [| done].
    destruct Hus as (l & Hl & Hin & _). apply (Hent u a). by exists l.
Qed.

(** X18.  When no edge of the floor files has a negative weight, then
    on the engine [loadAllData] has filled, in either mode,
    [calculatePath] returns; every id of the path resolves to a node
    of that id; and for a path that is not empty, [fitToPath], which
    [calculatePath] then calls on it, hands over a finite transform. *)
Theorem loaded_routes_resolve_and_fit cfg w e0 floors b startId endId (cw ch : N) :
  fileWeightsNonNegative w floors →
  ∃ p,
    calculatePath cfg (setAccessibilityMode b (loadAllData cfg w e0 floors)) startId endId
      = Some (withPath (setAccessibilityMode b (loadAllData cfg w e0 floors)) p, p) ∧
    (∀ i, i ∈ p →
       ∃ n, getNode (withPath (setAccessibilityMode b (loadAllData cfg w e0 floors)) p) i
              = Some n ∧ n_id n = i) ∧
    (p ≠ [] →
     ∃ t, Fit.fitToPath (withPath (setAccessibilityMode b (loadAllData cfg w e0 floors)) p)
            cw ch p = Some t ∧
          finiteTransform t).
Proof.
  intros Hfile.
  set (L := loadAllData cfg w e0 floors). set (E := setAccessibilityMode b L).
  destruct (loaded_adjacency cfg w e0 floors) as (g & Hg & _). fold L in Hg.
  pose proof (loaded_nonNegative cfg w e0 floors b g Hfile Hg) as Hnn.
  assert (Hget : ∀ p i, getNode (withPath E p) i = getNode L i) by done.
  assert (Hid : ∀ i n, getNode L i = Some n → n_id n = i).
  { intros i n Hn.
    destruct (loadAllData_shape cfg w e0 floors)
      as (nodes & ids & edges0 & vis & Hinv & Hnodes & Hids & _).
    fold L in Hnodes, Hids. unfold getNode in Hn. rewrite Hids, Hnodes in Hn.
    destruct (ids !! i) as [k|] eqn:Hk; [| done]. cbn [mbind option_bind] in Hn.
    destruct (li_ids _ _ _ _ Hinv i k Hk) as (n0 & Hn0 & Hid0).
    rewrite list_lookup_fmap, Hn0 in Hn. injection Hn as <-.
    by rewrite placeNode_id. }
  assert (Hfit : ∀ p, (∀ i, i ∈ p → is_Some (getNode L i)) → p ≠ [] →
            ∃ t, Fit.fitToPath (withPath E p) cw ch p = Some t ∧ finiteTransform t).
  { intros p Hall Hne. apply fitToPath_finite_when_resolving.
    destruct p as [|i p]; [done |]. exists i. split; [left |].
    rewrite Hget. apply Hall. left. }
  assert (HE : ensureGraph cfg (withPath E []) = withPath E [])
    by apply ensureGraph_loaded.
  unfold calculatePath. rewrite HE, Hget.
  change (targetIdsOf (withPath E []) endId) with (targetIdsOf E endId).
  destruct (getNode L startId) as [sNode|] eqn:Hs.
  2:{ exists []. split_and!; [done | by intros i ?%elem_of_nil | done]. }
  case_bool_decide as HT.
  { exists []. split_and!; [done | by intros i ?%elem_of_nil | done]. }
  assert (adjOf (withPath E []) = g) as ->.
  { unfold adjOf. change (adj (withPath E [])) with (adj L). by rewrite Hg. }
  change (accessibilityMode (withPath E [])) with b.
  destruct (search_runs g b (targetIdsOf E endId) (n_id sNode) Hnn)
    as (st & -> & HI & _).
  cbn [mbind option_bind].
  destruct (finalDestId st) as [t|] eqn:Hfd.
  - destruct (found_path _ _ _ _ st t HI Hfd) as (_ & es & Hwalk & -> & _).
    cbn [mbind option_bind].
    assert (Hall : ∀ i, i ∈ walkNodes (n_id sNode) es → is_Some (getNode L i)).
    { apply (loaded_walk_resolves cfg w e0 floors b g _ es t Hg Hwalk).
      rewrite (Hid _ _ Hs). fold L. by rewrite Hs. }
    exists (walkNodes (n_id sNode) es). split_and!; [done | | by apply Hfit].
    intros i Hi. rewrite Hget. destruct (Hall i Hi) as [n Hn].
    exists n. split; [done | by apply Hid].
  - cbn [mbind option_bind].
    exists []. split_and!; [done | by intros i ?%elem_of_nil | done].
Qed.

Lemma loaded_routes_resolve_and_fit_witness :
  ∃ p,
    calculatePath oneFloor_config (setAccessibilityMode true loadedVenue) "1_a" "1_b"
      = Some (withPath (setAccessibilityMode true loadedVenue) p, p) ∧
    (∀ i, i ∈ p →
       ∃ n, getNode (withPath (setAccessibilityMode true loadedVenue) p) i = Some n ∧
            n_id n = i) ∧
    (p ≠ [] →
     ∃ t, Fit.fitToPath (withPath (setAccessibilityMode true loadedVenue) p)
            800 600 p = Some t ∧
          finiteTransform t).
Proof.
  apply (loaded_routes_resolve_and_fit oneFloor_config blocked_world loadStart
           (FLOORS oneFloor_config) true "1_a" "1_b" 800 600).
  intros c data r d Hc Hdata Hr Hd.
  injection Hdata as <-.
  apply elem_of_cons in Hr as [-> | Hr].
  - injection Hd as <-. discriminate.
  - apply elem_of_cons in Hr as [-> | Hr]; [discriminate Hd |].
    by apply elem_of_nil in Hr.
Defined.

(** ** The fits the program makes *)

(** *** The ids of a route *)











(** ** Dragging under rotation *)

Section DragFacts.
Import Camera.
Local Open Scope R_scope.

Lemma sin2_cos2_mult x : sin x * sin x + cos x * cos x = 1.
Proof. pose proof (sin2_cos2 x) as H. unfold Rsqr in H. exact H. Qed.

(** X19.  The world shift of a drag, turned by the rotation, is the
    drag itself, and it is as long as the drag. *)
Theorem worldDelta_rotates_back_to_the_drag (rotation dx dy : R) :
  rotate rotation (worldDelta rotation dx dy) = (dx, dy) ∧
  (worldDelta rotation dx dy).1 * (worldDelta rotation dx dy).1
    + (worldDelta rotation dx dy).2 * (worldDelta rotation dx dy).2
    = dx * dx + dy * dy.
Proof.
  unfold rotate, worldDelta. cbn [fst snd].
  set (rad := rotation * PI / 180).
  pose proof (sin2_cos2_mult rad) as H.
  split.
  - f_equal.
    + replace ((dx * cos rad + dy * sin rad) * cos rad
                 - (- dx * sin rad + dy * cos rad) * sin rad)
        with (dx * (sin rad * sin rad + cos rad * cos rad)) by ring.
      rewrite H. ring.
    + replace ((dx * cos rad + dy * sin rad) * sin rad
                 + (- dx * sin rad + dy * cos rad) * cos rad)
        with (dy * (sin rad * sin rad + cos rad * cos rad)) by ring.
      rewrite H. ring.
  - replace ((dx * cos rad + dy * sin rad) * (dx * cos rad + dy * sin rad)
               + (- dx * sin rad + dy * cos rad) * (- dx * sin rad + dy * cos rad))
      with ((dx * dx + dy * dy) * (sin rad * sin rad + cos rad * cos rad)) by ring.
    rewrite H. ring.
Qed.

(** X20.  At any rotation and any zoom, [applyRotatedPan(dx, dy)] moves
    every drawn point by [(dx, dy)] on the screen. *)
Theorem applyRotatedPan_moves_the_picture_with_the_drag
    (width height rotation : R) (transform : Transform R) (dx dy : R) (p : R * R) :
  screenOf width height rotation (applyRotatedPan rotation transform dx dy) p
    = ((screenOf width height rotation transform p).1 + dx,
       (screenOf width height rotation transform p).2 + dy).
Proof.
  unfold screenOf, applyRotatedPan, rotate, worldDelta.
  cbn [fst snd t_x t_y t_k scale translate zoomIdentity jadd jmul jzero jone R_arith].
  set (rad := rotation * PI / 180).
  pose proof (sin2_cos2_mult rad) as H.
  f_equal.
  - replace (width / 2 +
       ((0 + 1 * (t_x transform + (dx * cos rad + dy * sin rad))
           + 1 * t_k transform * p.1 - width / 2) * cos rad
        - (0 + 1 * (t_y transform + (- dx * sin rad + dy * cos rad))
             + 1 * t_k transform * p.2 - height / 2) * sin rad))
      with (width / 2 +
       ((t_x transform + t_k transform * p.1 - width / 2) * cos rad
        - (t_y transform + t_k transform * p.2 - height / 2) * sin rad)
       + dx * (sin rad * sin rad + cos rad * cos rad)) by ring.
    rewrite H. ring.
  - replace (height / 2 +
       ((0 + 1 * (t_x transform + (dx * cos rad + dy * sin rad))
           + 1 * t_k transform * p.1 - width / 2) * sin rad
        + (0 + 1 * (t_y transform + (- dx * sin rad + dy * cos rad))
             + 1 * t_k transform * p.2 - height / 2) * cos rad))
      with (height / 2 +
       ((t_x transform + t_k transform * p.1 - width / 2) * sin rad
        + (t_y transform + t_k transform * p.2 - height / 2) * cos rad)
       + dy * (sin rad * sin rad + cos rad * cos rad)) by ring.
    rewrite H. ring.
Qed.

(** X21.  At a fixed rotation drags add up: two drags in a row give the
    transform of the one drag by their sum, a drag by nothing leaves
    the transform as it is, and a drag followed by the opposite drag
    gives the transform back. *)
Theorem applyRotatedPan_drags_add_up (rotation : R) (transform : Transform R)
    (dx1 dy1 dx2 dy2 : R) :
  applyRotatedPan rotation (applyRotatedPan rotation transform dx1 dy1) dx2 dy2
    = applyRotatedPan rotation transform (dx1 + dx2) (dy1 + dy2) ∧
  applyRotatedPan rotation transform 0 0 = transform ∧
  applyRotatedPan rotation (applyRotatedPan rotation transform dx1 dy1) (- dx1) (- dy1)
    = transform.
Proof.
  destruct transform as [k x y].
  unfold applyRotatedPan, worldDelta, scale, translate, zoomIdentity.
  cbn [fst snd t_x t_y t_k jadd jmul jzero jone R_arith].
  split_and!; f_equal; ring.
Qed.

End DragFacts.

(** ** panToNode, focusNode and switchFloor *)

Section ViewFacts.
Import JsNum.
Local Open Scope Q_scope.

Lemma centre_value (c x k : Q) : 0 + 1 * (c / 2 + - (x * k)) + x * (1 * k) == c / 2.
Proof. field. Qed.

(** X22.  [panToNode] reads the scale of the transform and nothing else
    of it.  For a finite scale it hands over a finite transform that
    draws the node at the centre of the canvas; the scale is kept when
    it is at least 0.5, and set to 0.8 otherwise, so it is at least 0.5
    afterwards; the floor of the node becomes current.  Without a node
    it returns early. *)
Theorem panToNode_centres_the_node (cw ch : N) (transform : Transform JsNum.t)
    (n : Node) (k0 : Q) :
  t_k transform = Fin k0 →
  ∃ k tx ty,
    panToNode cw ch transform (Some n)
      = Some (n_floorId n, {| t_k := Fin k; t_x := Fin tx; t_y := Fin ty |}) ∧
    (k0 < 0.5 → k == 0.8) ∧ (0.5 <= k0 → k == k0) ∧ 0.5 <= k ∧
    tx + n_x n * k == inject_Z (Z.of_N cw) / 2 ∧
    ty + n_y n * k == inject_Z (Z.of_N ch) / 2 ∧
    panToNode cw ch transform None = None.
Proof.
  intros Hk. unfold panToNode. cbn [mbind option_bind]. rewrite Hk.
  cbn [lt]. unfold ofN. rewrite !div_Fin by done.
  destruct (Qltb k0 0.5) eqn:E; [apply Qltb_true in E | apply Qltb_false in E];
    unfold scale, translate, zoomIdentity;
    cbn [t_k t_x t_y jadd jmul jzero jone JsNum_arith mul sub neg add];
    eexists _, _, _; (split; [done |]); split_and!;
    try apply centre_value; try done; intros; qlra.
Qed.

Lemma panToNode_centres_the_node_witness :
  ∃ k tx ty,
    panToNode 800 600 {| t_k := Fin (1 * 0.2); t_x := NaN; t_y := NaN |}
        (Some (plainNode "s"))
      = Some (n_floorId (plainNode "s"), {| t_k := Fin k; t_x := Fin tx; t_y := Fin ty |}) ∧
    (1 * 0.2 < 0.5 → k == 0.8) ∧ (0.5 <= 1 * 0.2 → k == 1 * 0.2) ∧ 0.5 <= k ∧
    tx + n_x (plainNode "s") * k == inject_Z (Z.of_N 800) / 2 ∧
    ty + n_y (plainNode "s") * k == inject_Z (Z.of_N 600) / 2 ∧
    panToNode 800 600 {| t_k := Fin (1 * 0.2); t_x := NaN; t_y := NaN |} None = None.
Proof.
  apply (panToNode_centres_the_node 800 600
           {| t_k := Fin (1 * 0.2); t_x := NaN; t_y := NaN |} (plainNode "s") (1 * 0.2)).
  reflexivity.
Defined.

(** X23.  For an id that resolves and a finite zoom level, [focusNode]
    hands over a finite transform of that scale which draws the node at
    the centre of the canvas; for an id that does not resolve, or a
    missing node, it returns early. *)
Theorem focusNode_centres_the_node e (cw ch : N) (i : string) (zoomLevel : Q) :
  match getNode e i with
  | Some n =>
      ∃ tx ty,
        focusNode e cw ch (ById i) (Fin zoomLevel)
          = Some {| t_k := Fin (1 * zoomLevel); t_x := Fin tx; t_y := Fin ty |} ∧
        focusNode e cw ch (ByNode (Some n)) (Fin zoomLevel)
          = focusNode e cw ch (ById i) (Fin zoomLevel) ∧
        tx + n_x n * (1 * zoomLevel) == inject_Z (Z.of_N cw) / 2 ∧
        ty + n_y n * (1 * zoomLevel) == inject_Z (Z.of_N ch) / 2
  | None => focusNode e cw ch (ById i) (Fin zoomLevel) = None
  end ∧
  focusNode e cw ch (ByNode None) (Fin zoomLevel) = None.
Proof.
  split; [| done]. unfold focusNode. destruct (getNode e i) as [n|]; [| done].
  cbn [mbind option_bind]. unfold ofN. rewrite !div_Fin by done.
  unfold scale, translate, zoomIdentity.
  cbn [t_k t_x t_y jadd jmul jzero jone JsNum_arith mul sub neg add].
  eexists _, _. split_and!; [done | done | apply centre_value | apply centre_value].
Qed.

Lemma layout_offsets_domain gap imgs l : ∀ offs crops y i,
  is_Some ((foldl (layoutStep gap imgs) (offs, crops, y) l).1.1 !! i) ↔
    is_Some (offs !! i) ∨ i ∈ (fc_id <$> l).
Proof.
  induction l as [|c l IH]; intros offs crops y i.
  - cbn [foldl fst fmap list_fmap]. split; [by left |].
    by intros [? | ?%elem_of_nil].
  - cbn [foldl]. rewrite layoutStep_eq, IH. cbn [fmap list_fmap].
    rewrite lookup_insert, elem_of_cons. split.
    + intros [H | ?]; [| by right; right].
      case_decide; [right; by left | by left].
    + intros [? | [-> | ?]].
      * left. by case_decide.
      * left. by rewrite decide_True.
      * by right.
Qed.

(** X24.  [switchFloor] sets the scale 0.5.  For a floor that has a
    stacking offset it sets a finite transform that draws the point
    half the image width from the left and half the image height
    below the offset at the centre of the canvas; for a floor without
    an offset the transform is not finite.  After [loadAllData] the
    floors with an offset are the floors of the configuration it was
    given. *)
Theorem switchFloor_centres_a_stacked_floor e (cw ch : N) (floorId : Z) :
  match floorOffsets e !! floorId with
  | Some y =>
      ∃ tx ty,
        switchFloor e cw ch floorId
          = {| t_k := Fin (1 * 0.5); t_x := Fin tx; t_y := Fin ty |} ∧
        tx + baseWidthOf (images e) floorId / 2 * (1 * 0.5) == inject_Z (Z.of_N cw) / 2 ∧
        ty + (y + baseHeightOf (images e) floorId / 2) * (1 * 0.5)
          == inject_Z (Z.of_N ch) / 2
  | None =>
      t_k (switchFloor e cw ch floorId) = Fin (1 * 0.5) ∧
      t_y (switchFloor e cw ch floorId) = NaN
  end ∧
  (∀ cfg w e0 floors,
     finiteTransform (switchFloor (loadAllData cfg w e0 floors) cw ch floorId)
       ↔ floorId ∈ (fc_id <$> floors)).
Proof.
  assert (Hcases : match floorOffsets e !! floorId with
    | Some y =>
        ∃ tx ty,
          switchFloor e cw ch floorId
            = {| t_k := Fin (1 * 0.5); t_x := Fin tx; t_y := Fin ty |} ∧
          tx + baseWidthOf (images e) floorId / 2 * (1 * 0.5)
            == inject_Z (Z.of_N cw) / 2 ∧
          ty + (y + baseHeightOf (images e) floorId / 2) * (1 * 0.5)
            == inject_Z (Z.of_N ch) / 2
    | None =>
        t_k (switchFloor e cw ch floorId) = Fin (1 * 0.5) ∧
        t_y (switchFloor e cw ch floorId) = NaN
    end).
  { unfold switchFloor. destruct (floorOffsets e !! floorId) as [y|].
    - unfold ofN. rewrite !div_Fin by done.
      unfold scale, translate, zoomIdentity.
      cbn [t_k t_x t_y jadd jmul jzero jone JsNum_arith mul sub neg add].
      eexists _, _. split_and!; [done | apply centre_value | apply centre_value].
    - unfold ofN. rewrite !div_Fin by done.
      unfold scale, translate, zoomIdentity.
      cbn [t_k t_x t_y jadd jmul jzero jone JsNum_arith mul sub neg add]. done. }
  split; [exact Hcases |].
  clear Hcases. intros cfg w e0 floors.
  set (L := loadAllData cfg w e0 floors).
  assert (Hdom : is_Some (floorOffsets L !! floorId) ↔ floorId ∈ (fc_id <$> floors)).
  { destruct (loadAllData_layout cfg w e0 floors) as (_ & Hoffs & _).
    fold L in Hoffs. rewrite Hoffs, layout_offsets_domain, lookup_empty.
    rewrite sortFloors_perm. split; [intros [[]%is_Some_None | ?] | intros ?]; auto. }
  rewrite <- Hdom. unfold switchFloor, finiteTransform.
  destruct (floorOffsets L !! floorId) as [y|].
  - unfold ofN. rewrite !div_Fin by done.
    unfold scale, translate, zoomIdentity.
    cbn [t_k t_x t_y jadd jmul jzero jone JsNum_arith mul sub neg add isFinite].
    split; [by eexists | done].
  - unfold ofN. rewrite !div_Fin by done.
    unfold scale, translate, zoomIdentity.
    cbn [t_k t_x t_y jadd jmul jzero jone JsNum_arith mul sub neg add isFinite].
    split; [by intros (_ & _ & ?) | by intros []%is_Some_None].
Qed.

End ViewFacts.

(** ** The controller: step clicks and the route list *)

Lemma stepClicks_snoc t0 clicks click :
  stepClicks t0 (clicks ++ [click]) =
    match handleStepClick (stepClicks t0 clicks).1 click.1 click.2 with
    | (t1, Some n) => (t1, (stepClicks t0 clicks).2 ++ [(click.2, n)])
    | (t1, None) => (t1, (stepClicks t0 clicks).2)
    end.
Proof. unfold stepClicks. by rewrite foldl_app. Qed.

(** X25.  Step clicks are throttled: whatever the times of the clicks,
    the clicks that reach the engine follow the earlier
    [lastStepClickTime] and each other by 800 ms at least, and
    [lastStepClickTime] ends as the time of the last of them; a click
    on a node 800 ms or more after [lastStepClickTime] does reach the
    engine. *)
Theorem step_clicks_are_throttled (t0 : Z) (clicks : list (option Node * Z)) :
  (stepClicks t0 clicks).1 = default t0 (fst <$> last (stepClicks t0 clicks).2) ∧
  (∀ t n, (stepClicks t0 clicks).2 !! 0 = Some (t, n) → (t0 + 800 ≤ t)%Z) ∧
  (∀ i t n t' n',
     (stepClicks t0 clicks).2 !! i = Some (t, n) →
     (stepClicks t0 clicks).2 !! S i = Some (t', n') → (t + 800 ≤ t')%Z) ∧
  (∀ n now, (t0 + 800 ≤ now)%Z → handleStepClick t0 (Some n) now = (now, Some n)).
Proof.
  assert (Hlive : ∀ n now, (t0 + 800 ≤ now)%Z →
                           handleStepClick t0 (Some n) now = (now, Some n)).
  { intros n now Hnow. unfold handleStepClick.
    destruct (now - t0 <? 800)%Z eqn:E; [| done]. apply Z.ltb_lt in E. lia. }
  induction clicks as [|click clicks IH] using rev_ind.
  { split_and!; [done | | | done].
    - intros t n Hi. done.
    - intros i t n t' n' Hi. done. }
  destruct IH as (Hlast & Hfirst & Hgap & _).
  rewrite stepClicks_snoc.
  destruct click as [[n|] now]; cbn [handleStepClick fst snd]; [| done].
  destruct (now - (stepClicks t0 clicks).1 <? 800)%Z eqn:Hcmp; [done |].
  apply Z.ltb_ge in Hcmp. cbn [fst snd].
  set (acc := (stepClicks t0 clicks).2) in *.
  split_and!; [| | | done].
  - by rewrite last_snoc.
  - intros t n0 Hi. destruct acc as [|x acc'] eqn:Hacc.
    + cbn in Hi. injection Hi as <- <-. cbn in Hlast. lia.
    + cbn in Hi. injection Hi as ->. apply (Hfirst t n0). done.
  - intros i t n0 t' n' Hi Hi'.
    destruct (decide (S i < length acc)) as [Hlt | Hge].
    + rewrite lookup_app_l in Hi, Hi' by lia. by apply (Hgap i t n0 t' n').
    + apply lookup_lt_Some in Hi' as Hlen. rewrite length_app in Hlen. simpl in Hlen.
      assert (S i = length acc) as HS by lia.
      rewrite lookup_app_l in Hi by lia.
      rewrite lookup_app_r in Hi' by lia.
      replace (S i - length acc) with 0 in Hi' by lia. injection Hi' as <- <-.
      assert (last acc = Some (t, n0)) as Hl.
      { rewrite last_lookup. replace (Nat.pred (length acc)) with i by lia. done. }
      rewrite Hl in Hlast. cbn in Hlast. lia.
Qed.

(** *** The route list *)

Lemma routeLoop_all e p turns : ∀ raw shown,
  mapM (λ q, routeStep e p q.1 q.2) turns = Some raw →
  routeLoop e p turns shown = (shown ++ omap (λ s, s) raw, true).
Proof.
  induction turns as [|[k i] turns IH]; intros raw shown Hraw.
  - injection Hraw as <-. cbn. by rewrite app_nil_r.
  - cbn [mapM] in Hraw. cbn [fst snd] in Hraw.
    destruct (routeStep e p k i) as [y|] eqn:Hy; [| done].
    cbn [mbind option_bind] in Hraw.
    destruct (mapM _ turns) as [raw'|] eqn:Hraw'; [| done].
    injection Hraw as <-. cbn [routeLoop]. rewrite Hy.
    destruct y as [s|]; cbn [omap list_omap].
    + rewrite (IH raw' _ eq_refl). by rewrite <- app_assoc.
    + by rewrite (IH raw' _ eq_refl).
Qed.

Lemma routeLoop_throws e p pre k i post : ∀ raw shown,
  mapM (λ q, routeStep e p q.1 q.2) pre = Some raw →
  routeStep e p k i = None →
  routeLoop e p (pre ++ (k, i) :: post) shown = (shown ++ omap (λ s, s) raw, false).
Proof.
  induction pre as [|[k0 i0] pre IH]; intros raw shown Hraw Hthrow.
  - injection Hraw as <-. cbn. rewrite Hthrow. by rewrite app_nil_r.
  - cbn [mapM] in Hraw. cbn [fst snd] in Hraw.
    destruct (routeStep e p k0 i0) as [y|] eqn:Hy; [| done].
    cbn [mbind option_bind] in Hraw.
    destruct (mapM _ pre) as [raw'|] eqn:Hraw'; [| done].
    injection Hraw as <-. cbn [app routeLoop]. rewrite Hy.
    destruct y as [s|]; cbn [omap list_omap].
    + rewrite (IH raw' _ eq_refl Hthrow). by rewrite <- app_assoc.
    + by rewrite (IH raw' _ eq_refl Hthrow).
Qed.

Lemma updateRouteList_turns e p :
  p ≠ [] →
  updateRouteList e p
    = (Steps (routeLoop e p (imap pair p) []).1, (routeLoop e p (imap pair p) []).2).
Proof. destruct p; [done |]. intros _. unfold updateRouteList. by destruct (routeLoop _ _ _ _). Qed.

(** The turns of the ids that come before any id that does not
    resolve. *)
Lemma routeSteps_raw e p pre :
  (∀ i, i ∈ pre → is_Some (getNode e i)) →
  ∃ raw,
    mapM (λ q, routeStep e p q.1 q.2) (imap pair pre) = Some raw ∧
    length raw = length pre ∧
    ∀ k i, pre !! k = Some i → ∃ y, raw !! k = Some y ∧ routeStep e p k i = Some y.
Proof.
  intros Hall.
  destruct (mapM_is_Some_2 (λ q, routeStep e p q.1 q.2) (imap pair pre)) as [raw Hraw].
  { apply Forall_forall. intros [k i] Hin. cbn.
    apply list_elem_of_lookup in Hin as [k' Hk'].
    rewrite list_lookup_imap in Hk'. destruct (pre !! k') as [i'|] eqn:Hp; [| done].
    injection Hk' as <- <-. unfold routeStep.
    destruct (Hall i' (list_elem_of_lookup_2 _ _ _ Hp)) as [n ->].
    cbn [mbind option_bind]. by destruct (_ && _). }
  exists raw. split; [done |]. apply mapM_Some_1 in Hraw. split.
  - apply Forall2_length in Hraw. by rewrite length_imap in Hraw.
  - intros k i Hk.
    destruct (Forall2_lookup_l _ _ _ k (k, i) Hraw) as (y & Hy & Hstep).
    { by rewrite list_lookup_imap, Hk. }
    by exists y.
Qed.

Lemma omap_kept {A} (raw : list (option A)) k s :
  raw !! k = Some (Some s) → s ∈ omap (λ x, x) raw.
Proof.
  intros Hk. apply list_elem_of_omap. exists (Some s).
  split; [by eapply list_elem_of_lookup_2 | done].
Qed.

Lemma omap_sublist {A B} (g : A → B) (raw : list (option A)) (ids : list B) :
  Forall2 (λ y i, ∀ s, y = Some s → g s = i) raw ids →
  (g <$> omap (λ x, x) raw) `sublist_of` ids.
Proof.
  induction 1 as [|y i raw ids Hy _ IH]; [done |].
  destruct y as [s|]; cbn [omap list_omap fmap list_fmap].
  - rewrite (Hy s eq_refl). by apply sublist_skip.
  - by apply sublist_cons.
Qed.

(** The steps of resolving ids are listed under the ids of their nodes,
    in the order of the path. *)
Lemma routeSteps_sublist e p pre raw :
  length raw = length pre →
  (∀ k i, pre !! k = Some i → ∃ y, raw !! k = Some y ∧ routeStep e p k i = Some y) →
  (s_nodeId <$> omap (λ s, s) raw)
    `sublist_of` ((λ i, default "" (n_id <$> getNode e i)) <$> pre).
Proof.
  intros Hlen Hlk. apply omap_sublist. apply Forall2_same_length_lookup. split.
  { by rewrite length_fmap. }
  intros k y id Hy Hid s ->. rewrite list_lookup_fmap in Hid.
  destruct (pre !! k) as [i|] eqn:Hp; [| done]. injection Hid as <-.
  destruct (Hlk k i Hp) as (y & Hy' & Hstep). rewrite Hy in Hy'. injection Hy' as <-.
  unfold routeStep in Hstep. destruct (getNode e i) as [n|]; [| done].
  cbn [mbind option_bind] in Hstep. destruct (_ && _); [done |].
  by injection Hstep as <-.
Qed.

(** The first id of the path, when it resolves, is listed first, marked
    as the start. *)
Lemma routeSteps_head e p pre raw i n :
  (∀ k i, pre !! k = Some i → ∃ y, raw !! k = Some y ∧ routeStep e p k i = Some y) →
  head pre = Some i → getNode e i = Some n →
  ∃ s, head (omap (λ s, s) raw) = Some s ∧ s_nodeId s = n_id n ∧ s_start s = true.
Proof.
  intros Hlk Hhead Hn. rewrite head_lookup in Hhead.
  destruct (Hlk 0 i Hhead) as (y & Hy & Hstep).
  unfold routeStep in Hstep. rewrite Hn in Hstep. cbn [mbind option_bind] in Hstep.
  cbn [Nat.eqb negb andb] in Hstep. rewrite !andb_false_r in Hstep.
  cbn [andb] in Hstep. injection Hstep as <-.
  destruct raw as [|y raw']; [done |]. injection Hy as ->.
  eexists. split; [done |]. done.
Qed.

(** Every step listed is the start, the end, next to a floor change, or
    a named node. *)
Lemma routeSteps_reason e p pre raw s :
  (∀ i, i ∈ pre → is_Some (getNode e i)) →
  length raw = length pre →
  (∀ k i, pre !! k = Some i → ∃ y, raw !! k = Some y ∧ routeStep e p k i = Some y) →
  s ∈ omap (λ s, s) raw →
  ∃ k i n, pre !! k = Some i ∧ getNode e i = Some n ∧ s_nodeId s = n_id n ∧
           s_end s = (k =? length p - 1) ∧
           (s_start s = true ∨ s_end s = true ∨ s_transfer s = true ∨
            str_truthy (n_name n) = true).
Proof.
  intros Hall Hlen Hlk (y & Hyin & ->)%list_elem_of_omap.
  apply list_elem_of_lookup in Hyin as [k Hk].
  assert (k < length pre) as Hkp by (apply lookup_lt_Some in Hk; lia).
  destruct (lookup_lt_is_Some_2 pre k Hkp) as [i Hi].
  destruct (Hlk k i Hi) as (y & Hy & Hstep). rewrite Hk in Hy. injection Hy as <-.
  destruct (Hall i (list_elem_of_lookup_2 _ _ _ Hi)) as [n Hn].
  exists k, i, n. split; [done |]. split; [done |].
  unfold routeStep in Hstep. rewrite Hn in Hstep. cbn [mbind option_bind] in Hstep.
  destruct (negb (str_truthy (n_name n))) eqn:Hname;
    destruct (k =? 0) eqn:Hstart;
    destruct (k =? length p - 1) eqn:Hend;
    cbn [negb andb] in Hstep;
    try (injection Hstep as <-; cbn [s_nodeId s_start s_end s_transfer];
         split_and!; [done | done |]; auto; fail).
  - destruct (_ || _) eqn:Htr; cbn [negb] in Hstep; [| done].
    injection Hstep as <-. cbn [s_nodeId s_start s_end s_transfer].
    split_and!; [done | done |]. auto.
  - injection Hstep as <-. cbn [s_nodeId s_start s_end s_transfer].
    split_and!; [done | done |]. right. right. right.
    by destruct (str_truthy (n_name n)).
Qed.

(** X26.  [updateRouteList] empties the list first.  For the empty path
    it shows the prompt.  For a path whose ids all resolve it returns
    and lists steps in the order of the path, each node at most as
    often as the path has it; the first and the last node of the path
    are listed, marked as start and as end; where two neighbours of the
    path lie on different floors both are listed, the second under the
    title of the arrival on its floor; and every step listed is the
    start, the end, next to a floor change, or a named node.  For a
    path with an id that does not resolve the call throws, and leaves
    on the list the steps of the ids before the first such id: in the
    order of the path, the start first, none marked as the end. *)
Theorem updateRouteList_lists_ends_and_floor_changes e (p : list string) :
  updateRouteList e [] = (Prompt, true) ∧
  (p ≠ [] → (∀ i, i ∈ p → is_Some (getNode e i)) →
   ∃ steps,
     updateRouteList e p = (Steps steps, true) ∧
     (s_nodeId <$> steps)
       `sublist_of` ((λ i, default "" (n_id <$> getNode e i)) <$> p) ∧
     (∀ i n, head p = Some i → getNode e i = Some n →
        ∃ s, head steps = Some s ∧ s_nodeId s = n_id n ∧ s_start s = true) ∧
     (∀ i n, last p = Some i → getNode e i = Some n →
        ∃ s, last steps = Some s ∧ s_nodeId s = n_id n ∧ s_end s = true) ∧
     (∀ k i j ni nj,
        p !! k = Some i → p !! S k = Some j → i ≠ "" → j ≠ "" →
        getNode e i = Some ni → getNode e j = Some nj →
        n_floorId ni ≠ n_floorId nj →
        (∃ s, s ∈ steps ∧ s_nodeId s = n_id ni ∧ s_transfer s = true) ∧
        (∃ s, s ∈ steps ∧ s_nodeId s = n_id nj ∧ s_transfer s = true ∧
              s_title s = Arrived (n_floorId nj))) ∧
     (∀ s, s ∈ steps →
        ∃ i n, i ∈ p ∧ getNode e i = Some n ∧ s_nodeId s = n_id n ∧
               (s_start s = true ∨ s_end s = true ∨ s_transfer s = true ∨
                str_truthy (n_name n) = true))) ∧
  (∀ pre i post,
     p = pre ++ i :: post →
     (∀ j, j ∈ pre → is_Some (getNode e j)) → getNode e i = None →
     ∃ steps,
       updateRouteList e p = (Steps steps, false) ∧
       (s_nodeId <$> steps)
         `sublist_of` ((λ j, default "" (n_id <$> getNode e j)) <$> pre) ∧
       (∀ j n, head pre = Some j → getNode e j = Some n →
          ∃ s, head steps = Some s ∧ s_nodeId s = n_id n ∧ s_start s = true) ∧
       (∀ s, s ∈ steps →
          s_end s = false ∧
          ∃ j n, j ∈ pre ∧ getNode e j = Some n ∧ s_nodeId s = n_id n ∧
                 (s_start s = true ∨ s_transfer s = true ∨
                  str_truthy (n_name n) = true))).
Proof.
  split; [done |]. split.
  - intros Hne Hall. destruct (routeSteps_raw e p p Hall) as (raw & Hraw & Hlen & Hlk).
    exists (omap (λ s, s) raw).
    assert (updateRouteList e p = (Steps (omap (λ s, s) raw), true)) as ->.
    { rewrite updateRouteList_turns by done.
      by rewrite (routeLoop_all _ _ _ raw [] Hraw). }
    split; [done |]. split_and!.
    + by apply (routeSteps_sublist e p p raw).
    + intros i n. by apply (routeSteps_head e p p raw).
    + intros i n Hlast Hn. rewrite last_lookup in Hlast.
      destruct (Hlk _ i Hlast) as (y & Hy & Hstep).
      unfold routeStep in Hstep. rewrite Hn in Hstep. cbn [mbind option_bind] in Hstep.
      assert ((Nat.pred (length p) =? length p - 1) = true) as Hend
        by (apply Nat.eqb_eq; lia).
      rewrite Hend in Hstep. cbn [negb] in Hstep.
      rewrite andb_false_r in Hstep. cbn [andb] in Hstep. injection Hstep as <-.
      destruct raw as [|y0 raw0] using rev_ind.
      { apply lookup_lt_Some in Hlast. simpl in Hlen. lia. }
      rewrite length_app in Hlen. simpl in Hlen.
      rewrite lookup_app_r in Hy by lia.
      replace (Nat.pred (length p) - length raw0) with 0 in Hy by lia.
      injection Hy as ->. rewrite omap_app. cbn [omap list_omap].
      rewrite last_snoc. eexists. split; [done |]. done.
    + intros k i j ni nj Hi Hj Hie Hje Hni Hnj Hfl.
      apply String.eqb_neq in Hie, Hje.
      assert ((n_floorId nj =? n_floorId ni)%Z = false) as Hji by (apply Z.eqb_neq; congruence).
      assert ((n_floorId ni =? n_floorId nj)%Z = false) as Hij by (by apply Z.eqb_neq).
      split.
      * destruct (Hlk k i Hi) as (y & Hy & Hstep).
        unfold routeStep in Hstep. rewrite Hni in Hstep.
        cbn [mbind option_bind] in Hstep.
        assert (neighbourNode e p (Some (S k)) = Some nj) as Hnext.
        { unfold neighbourNode. cbn [mbind option_bind]. rewrite Hj.
          cbn [mbind option_bind]. by rewrite Hje. }
        rewrite Hnext, Hji in Hstep. cbn [negb] in Hstep.
        rewrite orb_true_r in Hstep. cbn [negb] in Hstep.
        rewrite !andb_false_r in Hstep. injection Hstep as <-.
        eexists. split; [by eapply omap_kept |]. done.
      * destruct (Hlk (S k) j Hj) as (y & Hy & Hstep).
        unfold routeStep in Hstep. rewrite Hnj in Hstep.
        cbn [mbind option_bind] in Hstep.
        assert (neighbourNode e p (Some k) = Some ni) as Hprev.
        { unfold neighbourNode. cbn [mbind option_bind]. rewrite Hi.
          cbn [mbind option_bind]. by rewrite Hie. }
        rewrite Hprev, Hij in Hstep. cbn [negb orb] in Hstep.
        rewrite !andb_false_r in Hstep. injection Hstep as <-.
        eexists. split; [by eapply omap_kept |]. done.
    + intros s Hs.
      destruct (routeSteps_reason e p p raw s Hall Hlen Hlk Hs)
        as (k & i & n & Hk & Hn & Hid & _ & Hwhy).
      exists i, n. split; [by eapply list_elem_of_lookup_2 |]. done.
  - intros pre i post -> Hall Hnone.
    destruct (routeSteps_raw e (pre ++ i :: post) pre Hall) as (raw & Hraw & Hlen & Hlk).
    exists (omap (λ s, s) raw).
    assert (updateRouteList e (pre ++ i :: post) = (Steps (omap (λ s, s) raw), false)) as ->.
    { rewrite updateRouteList_turns by (by destruct pre).
      rewrite imap_app. cbn [imap].
      rewrite (routeLoop_throws _ _ _ _ _ _ raw [] Hraw); [done |].
      unfold routeStep. by rewrite Hnone. }
    split; [done |]. split_and!.
    + by apply (routeSteps_sublist e (pre ++ i :: post) pre raw).
    + intros j n. by apply (routeSteps_head e (pre ++ i :: post) pre raw).
    + intros s Hs.
      destruct (routeSteps_reason e (pre ++ i :: post) pre raw s Hall Hlen Hlk Hs)
        as (k & j & n & Hk & Hn & Hid & Hend & Hwhy).
      assert (s_end s = false) as Hnoend.
      { rewrite Hend. apply Nat.eqb_neq. apply lookup_lt_Some in Hk.
        rewrite length_app. cbn [length]. lia. }
      split; [done |]. exists j, n. split; [by eapply list_elem_of_lookup_2 |].
      split; [done |]. split; [done |].
      rewrite Hnoend in Hwhy. destruct Hwhy as [? | [? | [? | ?]]]; auto. done.
Qed.

Lemma updateRouteList_lists_ends_and_floor_changes_witness :
  (∃ steps,
     updateRouteList scenarioB ["s"; "t"] = (Steps steps, true) ∧
     (s_nodeId <$> steps)
       `sublist_of` ((λ i, default "" (n_id <$> getNode scenarioB i)) <$> ["s"; "t"])) ∧
  (∃ steps,
     updateRouteList scenarioB ["s"; "ghost"; "t"] = (Steps steps, false) ∧
     (s_nodeId <$> steps)
       `sublist_of` ((λ i, default "" (n_id <$> getNode scenarioB i)) <$> ["s"])).
Proof.
  split.
  - destruct (proj1 (proj2 (updateRouteList_lists_ends_and_floor_changes scenarioB ["s"; "t"])))
      as (steps & Hrun & Hsub & _).
    + done.
    + intros i Hi. apply elem_of_cons in Hi as [-> | Hi].
      * eexists. vm_compute. reflexivity.
      * apply elem_of_cons in Hi as [-> | Hi].
        -- eexists. vm_compute. reflexivity.
        -- by apply elem_of_nil in Hi.
    + exists steps. split; [exact Hrun | exact Hsub].
  - destruct (proj2 (proj2 (updateRouteList_lists_ends_and_floor_changes
                              scenarioB ["s"; "ghost"; "t"])) ["s"] "ghost" ["t"])
      as (steps & Hrun & Hsub & _).
    + done.
    + intros j ->%list_elem_of_singleton. eexists. vm_compute. reflexivity.
    + reflexivity.
    + exists steps. split; [exact Hrun | exact Hsub].
Defined.
